(** * rub-canteen-scraper: the extraction and normalisation pipeline of
    [src/scripts/fetch-menus.ts], embedded in Rocq.

    The file has five parts.  Part I translates the TypeScript source into
    executable definitions, one Rocq definition per source function, keeping
    the source's names.  Part II defines the vocabulary of the statements
    and the concrete inputs they are tried on.  Part III proves the lemmas
    about the program, by topic.  Part IV states and settles the properties
    of the natural-language specification, one by one.  Part V proves
    further properties of the program, read off its source.

    Modelling conventions.
    - A JavaScript string is the list of its UTF-16 code units ([jsstring]).
    - A [Date] is its time value, an integer number of milliseconds since
      1970-01-01T00:00:00Z.  The calendar functions are the ones of
      ECMA-262 (Day, DayFromYear, YearFromTime, MonthFromTime, DateFromTime,
      WeekDay, MakeDay, MakeDate).  Time values are not bounded: TimeClip,
      which turns a time value beyond +-8.64e15 ms (about the year
      +-275760) into an invalid date, is left out, so the model is the
      program on dates within that range.
    - A plain object used as a dictionary is the list of its own properties
      in enumeration order ([obj]); a [Map] is the list of its entries in
      insertion order ([jsmap]).  The names every object inherits from
      [Object.prototype] ([constructor], [toString], [__proto__] and the
      like) are not modelled as keys: the model is the program on keys
      other than these, as are the dates, the legend codes and the week
      keys the program makes and the slugs it is configured with.
    - Regular expressions are matched by a backtracking matcher in
      continuation-passing style, as ECMA-262 defines them.
    - cheerio is a library: a page is given by the results of the selector
      queries the source makes on it ([Page], [Block], [Item]).
    - Exceptions are the [inl] side of a sum; [console.warn] lines are
      collected in a log. *)

From Stdlib Require Import ZArith NArith List Bool Lia String Ascii.
From Stdlib Require Import Sorting.Sorted Sorting.Permutation.
From Stdlib Require Import Decimal DecimalString DecimalN DecimalZ DecimalNat.
From stdpp Require Import base option list gmap.
Import ListNotations.

Local Open Scope Z_scope.

(* ===================================================================== *)
(** * Part I — the program                                                *)
(* ===================================================================== *)

(* --------------------------------------------------------------------- *)
(** ** JavaScript strings *)

(** A string is a sequence of UTF-16 code units. *)
Abbreviation jsstring := (list N) (only parsing).

(** Literals of the source that are pure ASCII are written with [js]. *)
Definition js (s : string) : jsstring :=
  List.map N_of_ascii (list_ascii_of_string s).

(** [\s], and the characters removed by [String.prototype.trim]:
    WhiteSpace and LineTerminator of ECMA-262. *)
Definition isWhiteSpace (c : N) : bool :=
  ((9 <=? c) && (c <=? 13) || (c =? 32) || (c =? 160) || (c =? 5760)
   || (8192 <=? c) && (c <=? 8202) || (c =? 8232) || (c =? 8233)
   || (c =? 8239) || (c =? 8287) || (c =? 12288) || (c =? 65279))%N.

(** [\d] is [0-9] only. *)
Definition isDigit (c : N) : bool := ((48 <=? c) && (c <=? 57))%N.
Definition isUpperAZ (c : N) : bool := ((65 <=? c) && (c <=? 90))%N.
Definition isLowerAZ (c : N) : bool := ((97 <=? c) && (c <=? 122))%N.

Definition jsstring_eqb (a b : jsstring) : bool :=
  bool_decide (a = b).

(** Comparison of two strings by code units: the order of [<] and [>] on
    strings and of [Array.prototype.sort] without a comparator. *)
Fixpoint str_compare (a b : jsstring) : comparison :=
  match a, b with
  | [], [] => Eq
  | [], _ :: _ => Lt
  | _ :: _, [] => Gt
  | x :: a', y :: b' =>
      match N.compare x y with
      | Eq => str_compare a' b'
      | c => c
      end
  end.

Definition str_ltb (a b : jsstring) : bool :=
  match str_compare a b with Lt => true | _ => false end.
Definition str_gtb (a b : jsstring) : bool :=
  match str_compare a b with Gt => true | _ => false end.
Definition str_leb (a b : jsstring) : bool :=
  match str_compare a b with Gt => false | _ => true end.

(** [s.slice(k)] and [s.slice(a, b)] for indices inside the string. *)
Definition slice_from (k : nat) (s : jsstring) : jsstring := skipn k s.
Definition slice (a b : nat) (s : jsstring) : jsstring :=
  firstn (b - a) (skipn a s).

(** [s.indexOf(c)] for a one-character needle. *)
Fixpoint indexOf_char (c : N) (s : jsstring) : option nat :=
  match s with
  | [] => None
  | x :: s' => if (x =? c)%N then Some O
               else option_map S (indexOf_char c s')
  end.

(** [s.startsWith(p)]. *)
Fixpoint startsWith (p s : jsstring) : bool :=
  match p, s with
  | [], _ => true
  | _ :: _, [] => false
  | x :: p', y :: s' => (x =? y)%N && startsWith p' s'
  end.

(** [s.trim()]. *)
Fixpoint trimStart (s : jsstring) : jsstring :=
  match s with
  | c :: s' => if isWhiteSpace c then trimStart s' else s
  | [] => []
  end.
Definition trimEnd (s : jsstring) : jsstring := rev (trimStart (rev s)).
Definition trim (s : jsstring) : jsstring := trimEnd (trimStart s).

(** [s.split(c)] for a one-character separator: always at least one
    piece. *)
Fixpoint split_char (c : N) (s : jsstring) : list jsstring :=
  match s with
  | [] => [[]]
  | x :: s' =>
      match split_char c s' with
      | piece :: rest =>
          if (x =? c)%N then [] :: piece :: rest else (x :: piece) :: rest
      | [] => [[x]]
      end
  end.

(** [s.toLowerCase()], exact on Basic Latin and Latin-1 Supplement; other
    code units are left as they are (none of them lower-cases to a letter
    of the one word the source compares with). *)
Definition toLowerCase_unit (c : N) : N :=
  (if (65 <=? c) && (c <=? 90) then c + 32
   else if (192 <=? c) && (c <=? 222) && negb (c =? 215) then c + 32
   else c)%N.
Definition toLowerCase (s : jsstring) : jsstring := List.map toLowerCase_unit s.

(** [s.padStart(n, "0")]. *)
Definition padStart0 (n : nat) (s : jsstring) : jsstring :=
  repeat 48%N (n - length s) ++ s.

(** [String(n)] for an integer [n]. *)
Definition String_of_Z (z : Z) : jsstring :=
  js (NilEmpty.string_of_int (Z.to_int z)).

(** [Number(s)] for a token of decimal digits. *)
Definition digit_value (c : N) : Z := Z.of_N c - 48.
Definition Number_of_digits (s : jsstring) : Z :=
  fold_left (fun acc c => 10 * acc + digit_value c) s 0.

(* --------------------------------------------------------------------- *)
(** ** Regular expressions *)

Module Regex.

(** The character classes the source's patterns use. *)
Inductive cclass : Type :=
| CDigit                 (* \d     *)
| CSpace                 (* \s     *)
| CUpper                 (* [A-Z]  *)
| CLower                 (* [a-z]  *)
| CChar (c : N)          (* one literal character *)
| CNotChar (c : N).      (* [^c]   *)

Definition cclass_mem (cl : cclass) (c : N) : bool :=
  match cl with
  | CDigit => isDigit c
  | CSpace => isWhiteSpace c
  | CUpper => isUpperAZ c
  | CLower => isLowerAZ c
  | CChar x => (c =? x)%N
  | CNotChar x => negb (c =? x)%N
  end.

(** Patterns.  Quantifiers apply to character classes only, which is all
    the source needs; groups are numbered as in the source pattern. *)
Inductive regex : Type :=
| REmpty
| RClass (cl : cclass)
| RRep (cl : cclass) (lo : nat) (hi : option nat) (greedy : bool)
| RSeq (a b : regex)
| RAlt (a b : regex)
| RGroup (n : nat) (a : regex)
| RBol                   (* ^ without the m flag *)
| REol.                  (* $ without the m flag *)

(** Captures: group number to (start, end) indices, most recent first. *)
Definition caps : Type := list (nat * (nat * nat)).

(** A continuation receives the index reached, the rest of the input
    from that index and the captures so far. *)
Definition cont (R : Type) : Type := nat -> jsstring -> caps -> option R.

Definition hi_zero (hi : option nat) : bool :=
  match hi with Some O => true | _ => false end.
Definition hi_pred (hi : option nat) : option nat :=
  match hi with Some n => Some (Nat.pred n) | None => None end.

(** Greedy quantifier: take one more character if possible; on failure
    of everything after it, stop here (when [lo] is reached). *)
Fixpoint rep_greedy {R} (cl : cclass) (lo : nat) (hi : option nat)
    (i : nat) (rest : jsstring) (c : caps) (k : cont R) {struct rest}
    : option R :=
  let stop := match lo with O => k i rest c | S _ => None end in
  if hi_zero hi then stop
  else match rest with
       | x :: rest' =>
           if cclass_mem cl x then
             match rep_greedy cl (Nat.pred lo) (hi_pred hi) (S i) rest' c k with
             | Some r => Some r
             | None => stop
             end
           else stop
       | [] => stop
       end.

(** Lazy quantifier: stop here first (when [lo] is reached); on failure
    of everything after it, take one more character. *)
Fixpoint rep_lazy {R} (cl : cclass) (lo : nat) (hi : option nat)
    (i : nat) (rest : jsstring) (c : caps) (k : cont R) {struct rest}
    : option R :=
  let more :=
    if hi_zero hi then None
    else match rest with
         | x :: rest' =>
             if cclass_mem cl x
             then rep_lazy cl (Nat.pred lo) (hi_pred hi) (S i) rest' c k
             else None
         | [] => None
         end in
  match lo with
  | O => match k i rest c with
         | Some r => Some r
         | None => more
         end
  | S _ => more
  end.

Fixpoint rmatch {R} (r : regex) (i : nat) (rest : jsstring) (c : caps)
    (k : cont R) {struct r} : option R :=
  match r with
  | REmpty => k i rest c
  | RClass cl =>
      match rest with
      | x :: rest' => if cclass_mem cl x then k (S i) rest' c else None
      | [] => None
      end
  | RRep cl lo hi greedy =>
      if greedy then rep_greedy cl lo hi i rest c k
      else rep_lazy cl lo hi i rest c k
  | RSeq a b => rmatch a i rest c (fun j rest' c' => rmatch b j rest' c' k)
  | RAlt a b =>
      match rmatch a i rest c k with
      | Some res => Some res
      | None => rmatch b i rest c k
      end
  | RGroup n a =>
      rmatch a i rest c (fun j rest' c' => k j rest' ((n, (i, j)) :: c'))
  | RBol => match i with O => k i rest c | S _ => None end
  | REol => match rest with [] => k i rest c | _ :: _ => None end
  end.

(** A successful match: where it starts, where it ends, its captures. *)
Record rmatch_result : Type := MkMatch {
  m_start : nat;
  m_end : nat;
  m_caps : caps
}.

(** Try the pattern at index [i] exactly. *)
Definition match_here (r : regex) (i : nat) (rest : jsstring)
    : option rmatch_result :=
  rmatch r i rest [] (fun j _ c => Some (MkMatch i j c)).

(** Leftmost match at or after index [i]; [rest] is the input from [i]. *)
Fixpoint search (r : regex) (i : nat) (rest : jsstring)
    : option rmatch_result :=
  match match_here r i rest with
  | Some m => Some m
  | None =>
      match rest with
      | [] => None
      | _ :: rest' => search r (S i) rest'
      end
  end.

Fixpoint cap_lookup (n : nat) (c : caps) : option (nat * nat) :=
  match c with
  | [] => None
  | (m, se) :: c' => if Nat.eqb m n then Some se else cap_lookup n c'
  end.

(** [match[n]] of a successful match on [s], for a group that took part
    in it (the empty string stands for [undefined] otherwise; the source
    only reads groups that always take part). *)
Definition group (s : jsstring) (m : rmatch_result) (n : nat) : jsstring :=
  match cap_lookup n (m_caps m) with
  | Some (a, b) => slice a b s
  | None => []
  end.

(** [match[0]]. *)
Definition matched (s : jsstring) (m : rmatch_result) : jsstring :=
  slice (m_start m) (m_end m) s.

(** [s.match(r)] for a pattern without the g flag. *)
Definition str_match (r : regex) (s : jsstring) : option rmatch_result :=
  search r 0 s.

(** A RegExp object with the g flag: its pattern and its mutable
    [lastIndex]. *)
Record RegExp : Type := MkRegExp {
  source : regex;
  lastIndex : nat
}.

(** [new RegExp(pattern.source, pattern.flags)]: a fresh object. *)
Definition RegExp_new (pattern : RegExp) : RegExp :=
  MkRegExp (source pattern) 0.

(** [regex.exec(s)] with the g flag: search from [lastIndex]; a match
    moves [lastIndex] to its end, a failure resets it to 0. *)
Definition exec (re : RegExp) (s : jsstring)
    : option rmatch_result * RegExp :=
  if (length s <? lastIndex re)%nat then (None, MkRegExp (source re) 0)
  else match search (source re) (lastIndex re) (skipn (lastIndex re) s) with
       | Some m => (Some m, MkRegExp (source re) (m_end m))
       | None => (None, MkRegExp (source re) 0)
       end.

(** [Array.from(s.matchAll(r))] for a pattern literal with the g flag:
    successive [exec] calls from index 0; after an empty match the
    index advances by one. *)
Fixpoint matchAll_from (fuel : nat) (r : regex) (s : jsstring) (i : nat)
    : list rmatch_result :=
  match fuel with
  | O => []
  | S fuel' =>
      if (length s <? i)%nat then []
      else match search r i (skipn i s) with
           | None => []
           | Some m =>
               let next := if (m_end m =? m_start m)%nat
                           then S (m_end m) else m_end m in
               m :: matchAll_from fuel' r s next
           end
  end.
Definition matchAll (r : regex) (s : jsstring) : list rmatch_result :=
  matchAll_from (S (length s)) r s 0.

(** Splice the replacement over the given matches of [s]: [pos] is the
    index up to which [s] has been copied. *)
Fixpoint splice (s repl : jsstring) (pos : nat) (ms : list rmatch_result)
    : jsstring :=
  match ms with
  | [] => skipn pos s
  | m :: ms' =>
      slice pos (m_start m) s ++ repl ++ splice s repl (m_end m) ms'
  end.

(** [s.replace(r, repl)] with the g flag ([repl] without [$]). *)
Definition replace_all (r : regex) (repl s : jsstring) : jsstring :=
  splice s repl 0 (matchAll r s).

(** [s.replace(r, repl)] without the g flag: the first match only. *)
Definition replace_first (r : regex) (repl s : jsstring) : jsstring :=
  match search r 0 s with
  | Some m => splice s repl 0 [m]
  | None => s
  end.

(** Sequences and literals. *)
Fixpoint rseq (rs : list regex) : regex :=
  match rs with
  | [] => REmpty
  | [r] => r
  | r :: rs' => RSeq r (rseq rs')
  end.
Definition rchar (c : N) : regex := RClass (CChar c).
Definition rdigits (lo hi : nat) : regex := RRep CDigit lo (Some hi) true.

End Regex.
Import Regex.

(** [s.replace(",", ".")]: a string pattern replaces its first
    occurrence. *)
Fixpoint replace_first_char (c : N) (repl : jsstring) (s : jsstring)
    : jsstring :=
  match s with
  | [] => []
  | x :: s' => if (x =? c)%N then repl ++ s'
               else x :: replace_first_char c repl s'
  end.

(* --------------------------------------------------------------------- *)
(** ** Dates: the time-value functions of ECMA-262 *)

Module JSDate.

(** A [Date] is its time value in milliseconds. *)
Abbreviation Date := Z (only parsing).

Definition msPerDay : Z := 86400000.

Definition Day (t : Z) : Z := t / msPerDay.
Definition TimeWithinDay (t : Z) : Z := t mod msPerDay.

Definition isLeapYear (y : Z) : bool :=
  ((y mod 4 =? 0) && negb (y mod 100 =? 0)) || (y mod 400 =? 0).
Definition DaysInYear (y : Z) : Z := if isLeapYear y then 366 else 365.

Definition DayFromYear (y : Z) : Z :=
  365 * (y - 1970) + (y - 1969) / 4 - (y - 1901) / 100 + (y - 1601) / 400.
Definition TimeFromYear (y : Z) : Z := msPerDay * DayFromYear y.

(** The largest [y] with [TimeFromYear y <= t]: an estimate from the
    mean length of a year, corrected by at most one. *)
Definition YearFromDay (d : Z) : Z :=
  let y0 := 1970 + (d * 400) / 146097 in
  if d <? DayFromYear y0 then y0 - 1
  else if DayFromYear (y0 + 1) <=? d then y0 + 1
  else y0.
Definition YearFromTime (t : Z) : Z := YearFromDay (Day t).

Definition InLeapYear (t : Z) : Z :=
  if isLeapYear (YearFromTime t) then 1 else 0.
Definition DayWithinYear (t : Z) : Z :=
  Day t - DayFromYear (YearFromTime t).

(** Number of days of the year before month [m] (0 = January). *)
Definition daysBeforeMonth (m : Z) (leap : Z) : Z :=
  match m with
  | 0 => 0
  | 1 => 31
  | 2 => 59 + leap
  | 3 => 90 + leap
  | 4 => 120 + leap
  | 5 => 151 + leap
  | 6 => 181 + leap
  | 7 => 212 + leap
  | 8 => 243 + leap
  | 9 => 273 + leap
  | 10 => 304 + leap
  | _ => 334 + leap
  end.

Definition monthOfDayInYear (dwy leap : Z) : Z :=
  if dwy <? 31 then 0
  else if dwy <? 59 + leap then 1
  else if dwy <? 90 + leap then 2
  else if dwy <? 120 + leap then 3
  else if dwy <? 151 + leap then 4
  else if dwy <? 181 + leap then 5
  else if dwy <? 212 + leap then 6
  else if dwy <? 243 + leap then 7
  else if dwy <? 273 + leap then 8
  else if dwy <? 304 + leap then 9
  else if dwy <? 334 + leap then 10
  else 11.

Definition MonthFromTime (t : Z) : Z :=
  monthOfDayInYear (DayWithinYear t) (InLeapYear t).
Definition DateFromTime (t : Z) : Z :=
  DayWithinYear t - daysBeforeMonth (MonthFromTime t) (InLeapYear t) + 1.

(** 0 = Sunday ... 6 = Saturday. *)
Definition WeekDay (t : Z) : Z := (Day t + 4) mod 7.

Definition HourFromTime (t : Z) : Z := (t / 3600000) mod 24.
Definition MinFromTime (t : Z) : Z := (t / 60000) mod 60.
Definition SecFromTime (t : Z) : Z := (t / 1000) mod 60.
Definition msFromTime (t : Z) : Z := t mod 1000.

(** MakeDay: months outside 0..11 carry into the year, the day of the
    month is added as a plain offset. *)
Definition MakeDay (year month date : Z) : Z :=
  let ym := year + month / 12 in
  let mn := month mod 12 in
  DayFromYear ym + daysBeforeMonth mn (if isLeapYear ym then 1 else 0)
  + date - 1.
Definition MakeDate (day time : Z) : Z := day * msPerDay + time.

(** [Date.UTC(year, month, date)]: a year from 0 to 99 stands for
    1900 + year. *)
Definition UTC (year month date : Z) : Date :=
  let yr := if (0 <=? year) && (year <=? 99) then 1900 + year else year in
  MakeDate (MakeDay yr month date) 0.

Definition getUTCFullYear (d : Date) : Z := YearFromTime d.
Definition getUTCMonth (d : Date) : Z := MonthFromTime d.
Definition getUTCDate (d : Date) : Z := DateFromTime d.
Definition getUTCDay (d : Date) : Z := WeekDay d.
Definition getTime (d : Date) : Z := d.

(** [d.setUTCDate(dt)]. *)
Definition setUTCDate (d : Date) (dt : Z) : Date :=
  MakeDate (MakeDay (YearFromTime d) (MonthFromTime d) dt) (TimeWithinDay d).

(** Zero-padded decimal of a non-negative number. *)
Definition pad (n : nat) (z : Z) : jsstring := padStart0 n (String_of_Z z).

(** [d.toISOString()]: four digits for the years 0..9999, a sign and six
    digits otherwise. *)
Definition toISOString (d : Date) : jsstring :=
  let y := YearFromTime d in
  let year :=
    if (0 <=? y) && (y <=? 9999) then pad 4 y
    else (if 0 <=? y then js "+" else js "-") ++ pad 6 (Z.abs y) in
  year ++ js "-" ++ pad 2 (MonthFromTime d + 1) ++ js "-"
    ++ pad 2 (DateFromTime d) ++ js "T" ++ pad 2 (HourFromTime d) ++ js ":"
    ++ pad 2 (MinFromTime d) ++ js ":" ++ pad 2 (SecFromTime d) ++ js "."
    ++ pad 3 (msFromTime d) ++ js "Z".

(** Length of month [m] (0 = January) of year [y]. *)
Definition daysInMonth (y m : Z) : Z :=
  match m with
  | 1 => if isLeapYear y then 29 else 28
  | 3 | 5 | 8 | 10 => 30
  | _ => 31
  end.

(** [new Date(s + "T00:00:00Z")] for [s] of the form YYYY-MM-DD naming a
    day of the calendar.  Every other string is [None]: an invalid date,
    or a form the model does not cover. *)
Definition parseIsoDay (s : jsstring) : option Date :=
  match s with
  | [y1; y2; y3; y4; h1; m1; m2; h2; d1; d2] =>
      if forallb isDigit [y1; y2; y3; y4; m1; m2; d1; d2]
         && (h1 =? 45)%N && (h2 =? 45)%N
      then
        let y := Number_of_digits [y1; y2; y3; y4] in
        let m := Number_of_digits [m1; m2] in
        let d := Number_of_digits [d1; d2] in
        if (1 <=? m) && (m <=? 12) && (1 <=? d)
           && (d <=? daysInMonth y (m - 1))
        then Some (MakeDate (MakeDay y (m - 1) d) 0)
        else None
      else None
  | _ => None
  end.

End JSDate.
Import JSDate.

(* --------------------------------------------------------------------- *)
(** ** Objects used as dictionaries, and Maps *)

Module JSObject.

(** An array index is the canonical decimal form of an integer from 0 to
    2^32 - 2. *)
Definition isArrayIndex (k : jsstring) : bool :=
  match k with
  | [] => false
  | c :: k' =>
      forallb isDigit k
      && (negb (c =? 48)%N || match k' with [] => true | _ => false end)
      && (length k <=? 10)%nat
      && (Number_of_digits k <=? 4294967294)
  end.

(** The own properties of an object in the order [Object.keys],
    [Object.entries] and [JSON.stringify] list them: array indices first,
    in ascending numeric order, then the other names in the order they
    were created. *)
Definition obj (V : Type) : Type := list (jsstring * V).

Definition obj_empty {V} : obj V := [].

Fixpoint obj_get {V} (k : jsstring) (o : obj V) : option V :=
  match o with
  | [] => None
  | (k', v) :: o' => if jsstring_eqb k' k then Some v else obj_get k o'
  end.

Definition obj_has {V} (k : jsstring) (o : obj V) : bool :=
  match obj_get k o with Some _ => true | None => false end.

Fixpoint obj_replace {V} (k : jsstring) (v : V) (o : obj V) : obj V :=
  match o with
  | [] => []
  | (k', v') :: o' =>
      if jsstring_eqb k' k then (k', v) :: o'
      else (k', v') :: obj_replace k v o'
  end.

(** A new array-index property goes before the first property that is
    not an array index or is a larger one. *)
Fixpoint obj_insert_index {V} (k : jsstring) (v : V) (o : obj V) : obj V :=
  match o with
  | [] => [(k, v)]
  | (k', v') :: o' =>
      if isArrayIndex k' && (Number_of_digits k' <? Number_of_digits k)
      then (k', v') :: obj_insert_index k v o'
      else (k, v) :: o
  end.

(** [o[k] = v]. *)
Definition obj_set {V} (k : jsstring) (v : V) (o : obj V) : obj V :=
  if obj_has k o then obj_replace k v o
  else if isArrayIndex k then obj_insert_index k v o
  else o ++ [(k, v)].

Definition obj_keys {V} (o : obj V) : list jsstring := List.map fst o.
Definition obj_entries {V} (o : obj V) : list (jsstring * V) := o.

(** A [Map]: entries in insertion order, whatever the keys. *)
Definition jsmap (V : Type) : Type := list (jsstring * V).

Definition map_get {V} (k : jsstring) (m : jsmap V) : option V :=
  obj_get k m.
Definition map_has {V} (k : jsstring) (m : jsmap V) : bool := obj_has k m.
Definition map_set {V} (k : jsstring) (v : V) (m : jsmap V) : jsmap V :=
  if obj_has k m then obj_replace k v m else m ++ [(k, v)].
Definition map_keys {V} (m : jsmap V) : list jsstring := List.map fst m.
Definition map_values {V} (m : jsmap V) : list V := List.map snd m.

End JSObject.
Import JSObject.

(* --------------------------------------------------------------------- *)
(** ** Sorting *)

(** [Array.prototype.sort] is stable; for a comparator that is a total
    preorder its result is the one of any stable sort.  [leb a b] is
    [compare(a, b) <= 0]. *)
Section StableSort.
Context {A : Type} (leb : A -> A -> bool).

(** Insert [x] after the elements that do not come after it. *)
Fixpoint insert_sorted (x : A) (l : list A) : list A :=
  match l with
  | [] => [x]
  | y :: l' => if leb y x then y :: insert_sorted x l' else x :: l
  end.

(** Elements are inserted from the left, so equal ones keep their
    order. *)
Definition stable_sort (l : list A) : list A :=
  fold_left (fun acc x => insert_sorted x acc) l [].
End StableSort.

(** [keys.sort()]: by code units. *)
Definition sort_strings (l : list jsstring) : list jsstring :=
  stable_sort str_leb l.

(** [a.localeCompare(b) <= 0].  On the strings the source compares with it
    (dates of the fixed form YYYY-MM-DD, made of digits and hyphens) the
    locale's order is the order by code units. *)
Definition localeCompare_leb (a b : jsstring) : bool := str_leb a b.

(* --------------------------------------------------------------------- *)
(** ** Numbers *)

(** The numbers the program stores in its output.  [NumDec m s] is the
    double nearest to [m / 10^s]; with at most 15 significant digits, as
    here, distinct decimals are distinct doubles and print back as
    themselves.  [NumOther] stands for the result of [Number] on any other
    string; the program has none (lemma [parseLocaleNumber_amount]). *)
Inductive jsnumber : Type :=
| NumDec (mant : N) (scale : nat)
| NumOther.

(** [Number(s)] for the strings of digits with at most one dot, the empty
    string being 0. *)
Definition Number_decimal (s : jsstring) : jsnumber :=
  match indexOf_char 46 s with
  | None =>
      if forallb isDigit s then NumDec (Z.to_N (Number_of_digits s)) 0
      else NumOther
  | Some i =>
      let ip := firstn i s in
      let fp := skipn (S i) s in
      if forallb isDigit ip && forallb isDigit fp
         && negb ((length ip =? 0)%nat && (length fp =? 0)%nat)
      then NumDec (Z.to_N (Number_of_digits (ip ++ fp))) (length fp)
      else NumOther
  end.

(* --------------------------------------------------------------------- *)
(** ** The data model (the interfaces of the source) *)

Record CanteenConfig : Type := {
  slug : jsstring;
  cfg_name : jsstring;
  url : jsstring
}.

Record MealPrice : Type := {
  raw : jsstring;
  currency : jsstring;
  values : list jsnumber;
  labels : list jsstring
}.

Record MealEntry : Type := {
  title : jsstring;
  allergens : list jsstring;
  allergensRaw : option jsstring;
  price : option MealPrice;
  highlight : bool
}.

Record MealCategory : Type := {
  cat_title : jsstring;
  meals : list MealEntry
}.

Record DayMenu : Type := {
  date : jsstring;
  label : jsstring;
  categories : list MealCategory
}.

Record DayDetails : Type := {
  dd_label : jsstring;
  dd_categories : list MealCategory
}.

Record Legend : Type := {
  info : obj jsstring;
  lg_allergens : obj jsstring;
  additives : obj jsstring
}.

Record ParsedMenu : Type := {
  days : list DayMenu;
  legend : option Legend
}.

Record WeekPartition : Type := {
  isoYear : Z;
  isoWeekNo : Z;
  from : jsstring;
  to : jsstring;
  wp_days : list DayMenu
}.

Record WeekId : Type := {
  wk_isoYear : Z;
  wk_isoWeek : Z;
  wk_from : jsstring;
  wk_to : jsstring
}.

Record CanteenWeek : Type := {
  name : jsstring;
  sourceUrl : jsstring;
  cw_legend : option Legend;
  cw_days : obj DayDetails
}.

Record OutputWeek : Type := {
  week : WeekId;
  generatedAt : jsstring;
  canteens : obj CanteenWeek
}.

Record CanteenDay : Type := {
  cd_name : jsstring;
  cd_sourceUrl : jsstring;
  cd_legend : option Legend;
  cd_categories : list MealCategory
}.

Record DayGroup : Type := {
  dg_label : jsstring;
  dg_canteens : obj CanteenDay
}.

Record DayGroupedWeek : Type := {
  dgw_week : WeekId;
  dgw_generatedAt : jsstring;
  dgw_days : obj DayGroup
}.

(** The configured sources.  The one letter of the first name outside
    ASCII is the code unit U+00E4. *)
Definition CANTEENS : list CanteenConfig := [
  {| slug := js "main";
     cfg_name := js "Mensa Ruhr-Universit" ++ [228%N] ++ js "t Bochum";
     url := js "https://www.akafoe.de/gastronomie/speiseplaene-der-mensen/ruhr-universitaet-bochum/" |};
  {| slug := js "q-west";
     cfg_name := js "Q-West";
     url := js "https://www.akafoe.de/gastronomie/speiseplaene-der-mensen/q-west/" |};
  {| slug := js "rote-beete";
     cfg_name := js "Rote Beete";
     url := js "https://www.akafoe.de/gastronomie/speiseplaene-der-mensen/rote-bete/" |}
].

(* --------------------------------------------------------------------- *)
(** ** A page, as the selector queries of the source see it *)

(** One [.item] element:
    - [item_h4_text]: the text of its first [h4] with the [small]
      elements removed;
    - [item_small_text]: the text of the [small] elements of that [h4];
    - [item_price_text]: the text of its [.price] elements;
    - [item_tip]: whether it has the class [item-tip]. *)
Record Item : Type := {
  item_h4_text : jsstring;
  item_small_text : jsstring;
  item_price_text : jsstring;
  item_tip : bool
}.

(** One child node of a column: a node that is not a tag, or an element
    with its tag name, its text, whether it has the class [item], and what
    the item queries return on it. *)
Inductive ColumnNode : Type :=
| NonTag
| Element (tagName : jsstring) (text : jsstring) (hasItem : bool) (it : Item).

(** A dish row ([.dishes .row.list-dish]): the child nodes of each of its
    [> .col-md-6] columns. *)
Definition DishRow : Type := list (list ColumnNode).

(** A week container ([.box-speiseplan .block-space]): the text of its
    first [h2], the texts of its [.week .day] elements and its dish
    rows. *)
Record Block : Type := {
  block_h2 : jsstring;
  block_days : list jsstring;
  block_rows : list DishRow
}.

(** An [h3] under [.box-speiseplan]: its text and, when a following
    sibling [.row] exists, the texts of the [.col-sm-4] elements of the
    first one. *)
Record LegendHeading : Type := {
  h3_text : jsstring;
  h3_row_columns : option (list jsstring)
}.

Record Page : Type := {
  page_blocks : list Block;
  page_h3s : list LegendHeading
}.

(** What the program throws and what it warns about. *)
Inductive Error : Type :=
| ErrNoContainer                    (* Could not locate speiseplan container *)
| ErrDayLabel (label : jsstring)    (* Unable to parse day label "..." *)
| ErrNotFound (url : jsstring)      (* NotFoundError *)
| ErrHttp (url : jsstring).         (* HTTP status not ok, or a transport error *)

Inductive Warning : Type :=
| WarnCountMismatch (dayNodes dishRows : nat)
| WarnNoMenuData.

(* --------------------------------------------------------------------- *)
(** ** Text utilities *)

(** [/\s+/g] *)
Definition re_spaces : regex := RRep CSpace 1 None true.

Definition cleanText (value : jsstring) : jsstring :=
  trim (replace_all re_spaces (js " ") value).

(** [/\./g] *)
Definition re_dot : regex := rchar 46.

Definition parseLocaleNumber (value : jsstring) : jsnumber :=
  Number_decimal
    (replace_first_char 44 (js ".") (replace_all re_dot [] value)).

(* --------------------------------------------------------------------- *)
(** ** Meal normaliser *)

Definition derivePriceLabels (count : nat) : list jsstring :=
  match count with
  | 2%nat => [js "students"; js "guests"]
  | 3%nat => [js "students"; js "staff"; js "guests"]
  | _ => []
  end.

(** [/^\(|\)$/g] *)
Definition re_parens : regex :=
  RAlt (RSeq RBol (rchar 40)) (RSeq (rchar 41) REol).

(** [/(\d{1,2},\d{2})/g] *)
Definition re_price : regex :=
  RGroup 1 (rseq [rdigits 1 2; rchar 44; rdigits 2 2]).

(** The truthiness of a string ([filter(Boolean)], [if (key)]). *)
Definition nonEmpty (s : jsstring) : bool :=
  match s with [] => false | _ :: _ => true end.

Definition parseMeal (item : Item) : MealEntry :=
  let title := cleanText (item_h4_text item) in
  let allergensRaw :=
    replace_all re_parens [] (cleanText (item_small_text item)) in
  let allergens :=
    if (0 <? length allergensRaw)%nat
    then List.filter nonEmpty (List.map cleanText (split_char 44 allergensRaw))
    else [] in
  let priceText := cleanText (item_price_text item) in
  let priceValues :=
    List.map (fun m => parseLocaleNumber (group priceText m 1))
             (matchAll re_price priceText) in
  let price :=
    if (0 <? length priceValues)%nat
    then Some {| raw := priceText;
                 currency := js "EUR";
                 values := priceValues;
                 labels := derivePriceLabels (length priceValues) |}
    else None in
  {| title := title;
     allergens := allergens;
     allergensRaw := if (0 <? length allergensRaw)%nat
                     then Some allergensRaw else None;
     price := price;
     highlight := item_tip item |}.

(* --------------------------------------------------------------------- *)
(** ** Dish rows *)

(** [current.meals.push(meal)]: [current], when set, is the category
    pushed last, so the meal goes to the last element of the list. *)
Fixpoint push_meal (meal : MealEntry) (cats : list MealCategory)
    : list MealCategory :=
  match cats with
  | [] => []
  | [c] => [{| cat_title := cat_title c; meals := meals c ++ [meal] |}]
  | c :: cats' => c :: push_meal meal cats'
  end.

(** One child node of a column.  The state is the list of categories and
    whether [current] is set. *)
Definition parseDishRow_node
    (st : list MealCategory * bool) (node : ColumnNode)
    : list MealCategory * bool :=
  let '(cats, current) := st in
  match node with
  | NonTag => st
  | Element tagName text hasItem it =>
      if jsstring_eqb (toLowerCase tagName) (js "h3") then
        (cats ++ [{| cat_title := cleanText text; meals := [] |}], true)
      else if hasItem then
        let cats1 :=
          if current then cats
          else cats ++ [{| cat_title := js "Uncategorized"; meals := [] |}] in
        (push_meal (parseMeal it) cats1, true)
      else st
  end.

(** One column: [current] starts as null. *)
Definition parseDishRow_column
    (cats : list MealCategory) (column : list ColumnNode)
    : list MealCategory :=
  fst (fold_left parseDishRow_node column (cats, false)).

Definition parseDishRow (row : DishRow) : list MealCategory :=
  List.filter (fun category => (0 <? length (meals category))%nat)
              (fold_left parseDishRow_column row []).

(* --------------------------------------------------------------------- *)
(** ** Date resolver *)

(** [/(\d{2})\.(\d{2})\.(\d{4})/] *)
Definition re_fullDate : regex :=
  rseq [RGroup 1 (rdigits 2 2); rchar 46; RGroup 2 (rdigits 2 2); rchar 46;
        RGroup 3 (rdigits 4 4)].

(** [/(\d{2})\.(\d{2})\./] *)
Definition re_dayMonth : regex :=
  rseq [RGroup 1 (rdigits 2 2); rchar 46; RGroup 2 (rdigits 2 2); rchar 46].

Definition extractFirstDate (text : jsstring) : option Date :=
  match str_match re_fullDate text with
  | None => None
  | Some m =>
      let day := Number_of_digits (group text m 1) in
      let month := Number_of_digits (group text m 2) in
      let year := Number_of_digits (group text m 3) in
      Some (UTC year (month - 1) day)
  end.

Definition resolveDayDate (label : jsstring) (startDate : Date)
    (previous : option Date) : Error + Date :=
  match str_match re_dayMonth label with
  | None => inl (ErrDayLabel label)
  | Some m =>
      let day := Number_of_digits (group label m 1) in
      let month := Number_of_digits (group label m 2) in
      let year :=
        match previous with
        | Some p => getUTCFullYear p
        | None => getUTCFullYear startDate
        end in
      let candidate := UTC year (month - 1) day in
      let candidate :=
        match previous with
        | Some p =>
            if getTime candidate <? getTime p
            then UTC (year + 1) (month - 1) day
            else candidate
        | None => candidate
        end in
      let candidate :=
        match previous with
        | None =>
            if negb (getUTCMonth candidate =? getUTCMonth startDate)
            then UTC (getUTCFullYear startDate) (month - 1) day
            else candidate
        | Some _ => candidate
        end in
      inr candidate
  end.

Definition formatIsoDate (d : Date) : jsstring :=
  slice 0 10 (toISOString d).

(* --------------------------------------------------------------------- *)
(** ** Legend parser *)

(** The three category patterns, which share their tail
    [\)\s*([^,]+?)(?:(?:,|\.)\s|$)]. *)
Definition re_legend_tail : regex :=
  rseq [rchar 41;
        RRep CSpace 0 None true;
        RGroup 2 (RRep (CNotChar 44) 1 None false);
        RAlt (RSeq (RAlt (rchar 44) (rchar 46)) (RClass CSpace)) REol].

(** [/\(([A-Z]{1,2})\)\s*([^,]+?)(?:(?:,|\.)\s|$)/g] *)
Definition re_info : regex :=
  RSeq (rchar 40) (RSeq (RGroup 1 (RRep CUpper 1 (Some 2%nat) true)) re_legend_tail).

(** [/([a-z]\d?)\)\s*([^,]+?)(?:(?:,|\.)\s|$)/g] *)
Definition re_allergens : regex :=
  RSeq (RGroup 1 (RSeq (RClass CLower) (RRep CDigit 0 (Some 1%nat) true)))
       re_legend_tail.

(** [/(\d{1,2})\)\s*([^,]+?)(?:(?:,|\.)\s|$)/g] *)
Definition re_additives : regex :=
  RSeq (RGroup 1 (rdigits 1 2)) re_legend_tail.

(** [/\.$/] *)
Definition re_finalDot : regex := RSeq (rchar 46) REol.

(** The [while] loop of [parseLegendEntries].  It ends when [exec] finds
    no further match; [None] is a loop that [fuel] rounds did not end (a
    pattern that matches the empty string is found again at the same index
    for ever). *)
Fixpoint parseLegendEntries_loop (fuel : nat) (regex : RegExp)
    (body : jsstring) (entries : obj jsstring) : option (obj jsstring) :=
  match fuel with
  | O => None
  | S fuel' =>
      match exec regex body with
      | (None, _) => Some entries
      | (Some m, regex') =>
          let key := cleanText (group body m 1) in
          let value := replace_first re_finalDot [] (cleanText (group body m 2)) in
          parseLegendEntries_loop fuel' regex' body
            (if nonEmpty key then obj_set key value entries else entries)
      end
  end.

(** [pattern] is the caller's RegExp object; the function works on a copy
    and leaves it alone. *)
Definition parseLegendEntries (text : jsstring) (pattern : RegExp)
    : option (obj jsstring) :=
  let body :=
    match indexOf_char 58 text with
    | Some i => slice_from (S i) text
    | None => text
    end in
  let regex := RegExp_new pattern in
  parseLegendEntries_loop (length body + 2) regex body obj_empty.

(** The word the legend heading starts with, "erlaeuterungen" written
    with U+00E4. *)
Definition legendWord : jsstring := js "erl" ++ [228%N] ++ js "uterungen".

(** [$(columns.get(i)).text()]: the empty string when there is no such
    column. *)
Definition column_text (columns : list jsstring) (i : nat) : jsstring :=
  nth i columns [].

(** The result of [parseLegendEntries] where the loop ends, which it does
    for the three patterns used here ([parseLegendEntries_total]). *)
Definition entries_of (r : option (obj jsstring)) : obj jsstring :=
  match r with Some e => e | None => obj_empty end.

Definition parseLegend (page : Page) : option Legend :=
  match List.filter
          (fun h => startsWith legendWord (toLowerCase (cleanText (h3_text h))))
          (page_h3s page) with
  | [] => None
  | heading :: _ =>
      match h3_row_columns heading with
      | None => None
      | Some [] => None
      | Some columns =>
          let infoText := cleanText (column_text columns 0) in
          let allergensText := cleanText (column_text columns 1) in
          let additivesText := cleanText (column_text columns 2) in
          Some {| info := entries_of
                    (parseLegendEntries infoText (MkRegExp re_info 0));
                  lg_allergens := entries_of
                    (parseLegendEntries allergensText (MkRegExp re_allergens 0));
                  additives := entries_of
                    (parseLegendEntries additivesText (MkRegExp re_additives 0)) |}
      end
  end.

(* --------------------------------------------------------------------- *)
(** ** Menu page extractor *)

(** The [for] loop over the dish rows of one container, from [index];
    [dayMenus] is the array shared by all containers. *)
Fixpoint parseMenuPage_rows (dayNodes : list jsstring) (startDate : Date)
    (dishRows : list DishRow) (index : nat) (previousDate : option Date)
    (dayMenus : list DayMenu) : Error + list DayMenu :=
  match dishRows with
  | [] => inr dayMenus
  | row :: dishRows' =>
      let label := cleanText (nth index dayNodes []) in
      match resolveDayDate label startDate previousDate with
      | inl e => inl e
      | inr resolvedDate =>
          let isoDate := formatIsoDate resolvedDate in
          let categories := parseDishRow row in
          parseMenuPage_rows dayNodes startDate dishRows' (S index)
            (Some resolvedDate)
            (dayMenus ++ [{| date := isoDate; label := label;
                             categories := categories |}])
      end
  end.

(** One container.  [now] is what [new Date()] returns when the heading
    has no date. *)
Definition parseMenuPage_block (now : Date) (block : Block)
    (st : list Warning * list DayMenu)
    : list Warning * (Error + list DayMenu) :=
  let '(warnings, dayMenus) := st in
  let heading := cleanText (block_h2 block) in
  let startDate :=
    match extractFirstDate heading with
    | Some d => d
    | None => now
    end in
  let dayNodes := block_days block in
  let dishRows := block_rows block in
  let warnings :=
    if negb (length dayNodes =? length dishRows)%nat
    then warnings ++ [WarnCountMismatch (length dayNodes) (length dishRows)]
    else warnings in
  (warnings, parseMenuPage_rows dayNodes startDate dishRows 0 None dayMenus).

(** [blocks.each]: the containers in document order; a throw ends it.
    [now i] is the clock as container [i] reads it. *)
Fixpoint parseMenuPage_blocks (now : nat -> Date) (i : nat)
    (blocks : list Block) (st : list Warning * list DayMenu)
    : list Warning * (Error + list DayMenu) :=
  match blocks with
  | [] => (fst st, inr (snd st))
  | block :: blocks' =>
      match parseMenuPage_block (now i) block st with
      | (warnings, inl e) => (warnings, inl e)
      | (warnings, inr dayMenus) =>
          parseMenuPage_blocks now (S i) blocks' (warnings, dayMenus)
      end
  end.

(** The result: the warnings logged, and what is thrown or returned. *)
Definition parseMenuPage (now : nat -> Date) (page : Page)
    : list Warning * (Error + ParsedMenu) :=
  match page_blocks page with
  | [] => ([], inl ErrNoContainer)
  | blocks =>
      match parseMenuPage_blocks now 0 blocks ([], []) with
      | (warnings, inl e) => (warnings, inl e)
      | (warnings, inr dayMenus) =>
          (warnings, inr {| days := dayMenus; legend := parseLegend page |})
      end
  end.

(* --------------------------------------------------------------------- *)
(** ** Week partitioner *)

(** [Math.ceil(a / 7)] for an integer [a]: the double quotient is an
    integer exactly when 7 divides [a] and lies strictly between two
    integers otherwise, so its ceiling is the exact one. *)
Definition ceil_div7 (a : Z) : Z := - ((- a) / 7).

(** [(temp.getTime() - startOfYear.getTime()) / 86400000]: both dates are
    at midnight, so the quotient is exact. *)
Definition isoWeek (date : Date) : Z * Z :=
  let temp :=
    UTC (getUTCFullYear date) (getUTCMonth date) (getUTCDate date) in
  let dayNum := if getUTCDay temp =? 0 then 7 else getUTCDay temp in
  let temp := setUTCDate temp (getUTCDate temp + 4 - dayNum) in
  let startOfYear := UTC (getUTCFullYear temp) 0 1 in
  let week :=
    ceil_div7 ((getTime temp - getTime startOfYear) / 86400000 + 1) in
  (getUTCFullYear temp, week).

Definition weekKey (year week : Z) : jsstring :=
  String_of_Z year ++ js "-W" ++ padStart0 2 (String_of_Z week).

(** The partition of [day]'s week after [day] was pushed to it. *)
Definition partition_push (day : DayMenu) (partition : WeekPartition)
    : WeekPartition :=
  let from1 := if str_ltb (date day) (from partition)
               then date day else from partition in
  let to1 := if str_gtb (date day) (to partition)
             then date day else to partition in
  {| isoYear := isoYear partition;
     isoWeekNo := isoWeekNo partition;
     from := from1;
     to := to1;
     wp_days := wp_days partition ++ [day] |}.

(** One round of the first loop of [groupByWeek].  The partition is
    changed in place, which keeps its position in the Map.  [None]: the
    date of [day] is not a day of the calendar in the form YYYY-MM-DD,
    for which the model has no [Date]. *)
Definition groupByWeek_step (byWeek : jsmap WeekPartition) (day : DayMenu)
    : option (jsmap WeekPartition) :=
  match parseIsoDay (date day) with
  | None => None
  | Some d =>
      let '(year, week) := isoWeek d in
      let key := weekKey year week in
      let fresh := {| isoYear := year; isoWeekNo := week;
                      from := date day; to := date day; wp_days := [] |} in
      let byWeek1 :=
        if negb (map_has key byWeek) then map_set key fresh byWeek
        else byWeek in
      let partition :=
        match map_get key byWeek1 with
        | Some p => p
        | None => fresh
        end in
      Some (map_set key (partition_push day partition) byWeek1)
  end.

Fixpoint groupByWeek_loop (byWeek : jsmap WeekPartition) (days : list DayMenu)
    : option (jsmap WeekPartition) :=
  match days with
  | [] => Some byWeek
  | day :: days' =>
      match groupByWeek_step byWeek day with
      | None => None
      | Some byWeek' => groupByWeek_loop byWeek' days'
      end
  end.

Definition sort_days (p : WeekPartition) : WeekPartition :=
  {| isoYear := isoYear p;
     isoWeekNo := isoWeekNo p;
     from := from p;
     to := to p;
     wp_days := stable_sort (fun a b => localeCompare_leb (date a) (date b))
                            (wp_days p) |}.

(** The comparator of the final sort is at most 0. *)
Definition partition_leb (a b : WeekPartition) : bool :=
  if isoYear a =? isoYear b then isoWeekNo a - isoWeekNo b <=? 0
  else isoYear a - isoYear b <=? 0.

Definition groupByWeek (days : list DayMenu) : option (list WeekPartition) :=
  match groupByWeek_loop [] days with
  | None => None
  | Some byWeek =>
      Some (stable_sort partition_leb (List.map sort_days (map_values byWeek)))
  end.

Definition convertDaysToMap (days : list DayMenu) : obj DayDetails :=
  fold_left
    (fun map day =>
       obj_set (date day)
               {| dd_label := label day; dd_categories := categories day |}
               map)
    days obj_empty.

(* --------------------------------------------------------------------- *)
(** ** Aggregator: the day-indexed document *)

Definition emptyDayGroup : DayGroup :=
  {| dg_label := []; dg_canteens := obj_empty |}.
Definition emptyCanteenDay : CanteenDay :=
  {| cd_name := []; cd_sourceUrl := []; cd_legend := None;
     cd_categories := [] |}.

(** The body of the inner loop: one date of one canteen. *)
Definition accumulate_day (slug : jsstring) (canteen : CanteenWeek)
    (dayAccumulator : obj DayGroup) (entry : jsstring * DayDetails)
    : obj DayGroup :=
  let '(date, day) := entry in
  let acc1 :=
    if negb (obj_has date dayAccumulator)
    then obj_set date {| dg_label := dd_label day; dg_canteens := obj_empty |}
                 dayAccumulator
    else dayAccumulator in
  let group :=
    match obj_get date acc1 with Some g => g | None => emptyDayGroup end in
  obj_set date
    {| dg_label := dg_label group;
       dg_canteens :=
         obj_set slug
           {| cd_name := name canteen;
              cd_sourceUrl := sourceUrl canteen;
              cd_legend := cw_legend canteen;
              cd_categories := dd_categories day |}
           (dg_canteens group) |}
    acc1.

(** The body of the outer loop: one canteen. *)
Definition accumulate_canteen (dayAccumulator : obj DayGroup)
    (entry : jsstring * CanteenWeek) : obj DayGroup :=
  let '(slug, canteen) := entry in
  fold_left (accumulate_day slug canteen) (obj_entries (cw_days canteen))
            dayAccumulator.

(** The canteens of one date, inserted in sorted order. *)
Definition order_canteens (cs : obj CanteenDay) : obj CanteenDay :=
  fold_left
    (fun orderedCanteens slug =>
       obj_set slug
         (match obj_get slug cs with Some c => c | None => emptyCanteenDay end)
         orderedCanteens)
    (sort_strings (obj_keys cs)) obj_empty.

Definition buildDayGroupedWeek (source : OutputWeek) : DayGroupedWeek :=
  let dayAccumulator :=
    fold_left accumulate_canteen (obj_entries (canteens source)) obj_empty in
  let orderedDates := sort_strings (obj_keys dayAccumulator) in
  let orderedDays :=
    fold_left
      (fun orderedDays date =>
         let day := match obj_get date dayAccumulator with
                    | Some g => g
                    | None => emptyDayGroup
                    end in
         obj_set date
           {| dg_label := dg_label day;
              dg_canteens := order_canteens (dg_canteens day) |}
           orderedDays)
      orderedDates obj_empty in
  {| dgw_week := week source;
     dgw_generatedAt := generatedAt source;
     dgw_days := orderedDays |}.

(* --------------------------------------------------------------------- *)
(** ** JSON.stringify(payload, null, 2) *)

Module JSON.

(** The values the payloads are made of; the properties of an object in
    enumeration order. *)
#[local] Unset Elimination Schemes.
Inductive json : Type :=
| JNull
| JBool (b : bool)
| JInt (z : Z)
| JNum (n : jsnumber)
| JStr (s : jsstring)
| JArr (items : list json)
| JObj (props : list (jsstring * json)).
#[local] Set Elimination Schemes.

Definition hexDigit (n : N) : N :=
  (if n <? 10 then 48 + n else 87 + n)%N.

(** [\uXXXX] with lower-case hexadecimal digits. *)
Definition unicodeEscape (c : N) : jsstring :=
  (js "\u" ++ [hexDigit (c / 4096 mod 16); hexDigit (c / 256 mod 16);
               hexDigit (c / 16 mod 16); hexDigit (c mod 16)])%N.

Definition isHighSurrogate (c : N) : bool := ((55296 <=? c) && (c <=? 56319))%N.
Definition isLowSurrogate (c : N) : bool := ((56320 <=? c) && (c <=? 57343))%N.

(** QuoteJSONString without the enclosing quotes.  A surrogate is
    copied when it is one half of a pair and escaped when it is alone. *)
Fixpoint quoteBody (s : jsstring) : jsstring :=
  match s with
  | [] => []
  | c :: s' =>
      if (c =? 34)%N then [92%N; 34%N] ++ quoteBody s'
      else if (c =? 92)%N then js "\\" ++ quoteBody s'
      else if (c =? 8)%N then js "\b" ++ quoteBody s'
      else if (c =? 12)%N then js "\f" ++ quoteBody s'
      else if (c =? 10)%N then js "\n" ++ quoteBody s'
      else if (c =? 13)%N then js "\r" ++ quoteBody s'
      else if (c =? 9)%N then js "\t" ++ quoteBody s'
      else if (c <? 32)%N then unicodeEscape c ++ quoteBody s'
      else if isHighSurrogate c then
        match s' with
        | d :: s'' =>
            if isLowSurrogate d then c :: d :: quoteBody s''
            else unicodeEscape c ++ quoteBody s'
        | [] => unicodeEscape c
        end
      else if isLowSurrogate c then unicodeEscape c ++ quoteBody s'
      else c :: quoteBody s'
  end.

Definition quote (s : jsstring) : jsstring := [34%N] ++ quoteBody s ++ [34%N].

(** The digits of the fraction, without trailing zeros. *)
Fixpoint stripZeros (rev_digits : jsstring) : jsstring :=
  match rev_digits with
  | c :: r => if (c =? 48)%N then stripZeros r else rev_digits
  | [] => []
  end.

(** Number::toString of [m / 10^s], in the range where it uses plain
    decimal notation; [NumOther] is printed as NaN is, as null. *)
Definition numberToString (n : jsnumber) : jsstring :=
  match n with
  | NumOther => js "null"
  | NumDec m s =>
      let p := (10 ^ Z.of_nat s) in
      let ip := Z.of_N m / p in
      let fp := rev (stripZeros (rev (padStart0 s (String_of_Z (Z.of_N m mod p))))) in
      match fp with
      | [] => String_of_Z ip
      | _ => String_of_Z ip ++ js "." ++ fp
      end
  end.

Definition joinWith (sep : jsstring) (parts : list jsstring) : jsstring :=
  match parts with
  | [] => []
  | p :: ps => p ++ flat_map (fun q => sep ++ q) ps
  end.

Definition gap (depth : nat) : jsstring := repeat 32%N (2 * depth).

(** SerializeJSONProperty at nesting depth [depth]. *)
Fixpoint serialize (depth : nat) (j : json) : jsstring :=
  match j with
  | JNull => js "null"
  | JBool true => js "true"
  | JBool false => js "false"
  | JInt z => String_of_Z z
  | JNum n => numberToString n
  | JStr s => quote s
  | JArr [] => js "[]"
  | JArr items =>
      js "[" ++ [10%N] ++ gap (S depth)
      ++ joinWith (js "," ++ [10%N] ++ gap (S depth))
                  (List.map (serialize (S depth)) items)
      ++ [10%N] ++ gap depth ++ js "]"
  | JObj [] => js "{}"
  | JObj props =>
      js "{" ++ [10%N] ++ gap (S depth)
      ++ joinWith (js "," ++ [10%N] ++ gap (S depth))
                  (List.map (fun kv => quote (fst kv) ++ js ": "
                                       ++ serialize (S depth) (snd kv))
                            props)
      ++ [10%N] ++ gap depth ++ js "}"
  end.

Definition stringify (j : json) : jsstring := serialize 0 j.

End JSON.
Import JSON.

(** The payloads as JSON values, the properties in the order the source
    creates them. *)
Definition json_strings (l : list jsstring) : json := JArr (List.map JStr l).
Definition json_dict {V} (f : V -> json) (o : obj V) : json :=
  JObj (List.map (fun kv => (fst kv, f (snd kv))) o).
Definition json_nullable {V} (f : V -> json) (o : option V) : json :=
  match o with Some v => f v | None => JNull end.

Definition json_MealPrice (p : MealPrice) : json :=
  JObj [(js "raw", JStr (raw p));
        (js "currency", JStr (currency p));
        (js "values", JArr (List.map JNum (values p)));
        (js "labels", json_strings (labels p))].

Definition json_MealEntry (m : MealEntry) : json :=
  JObj [(js "title", JStr (title m));
        (js "allergens", json_strings (allergens m));
        (js "allergensRaw", json_nullable JStr (allergensRaw m));
        (js "price", json_nullable json_MealPrice (price m));
        (js "highlight", JBool (highlight m))].

Definition json_MealCategory (c : MealCategory) : json :=
  JObj [(js "title", JStr (cat_title c));
        (js "meals", JArr (List.map json_MealEntry (meals c)))].

Definition json_categories (cs : list MealCategory) : json :=
  JArr (List.map json_MealCategory cs).

Definition json_Legend (l : Legend) : json :=
  JObj [(js "info", json_dict JStr (info l));
        (js "allergens", json_dict JStr (lg_allergens l));
        (js "additives", json_dict JStr (additives l))].

Definition json_WeekId (w : WeekId) : json :=
  JObj [(js "isoYear", JInt (wk_isoYear w));
        (js "isoWeek", JInt (wk_isoWeek w));
        (js "from", JStr (wk_from w));
        (js "to", JStr (wk_to w))].

Definition json_DayDetails (d : DayDetails) : json :=
  JObj [(js "label", JStr (dd_label d));
        (js "categories", json_categories (dd_categories d))].

Definition json_CanteenWeek (c : CanteenWeek) : json :=
  JObj [(js "name", JStr (name c));
        (js "sourceUrl", JStr (sourceUrl c));
        (js "legend", json_nullable json_Legend (cw_legend c));
        (js "days", json_dict json_DayDetails (cw_days c))].

Definition json_OutputWeek (w : OutputWeek) : json :=
  JObj [(js "week", json_WeekId (week w));
        (js "generatedAt", JStr (generatedAt w));
        (js "canteens", json_dict json_CanteenWeek (canteens w))].

Definition json_CanteenDay (c : CanteenDay) : json :=
  JObj [(js "name", JStr (cd_name c));
        (js "sourceUrl", JStr (cd_sourceUrl c));
        (js "legend", json_nullable json_Legend (cd_legend c));
        (js "categories", json_categories (cd_categories c))].

Definition json_DayGroup (g : DayGroup) : json :=
  JObj [(js "label", JStr (dg_label g));
        (js "canteens", json_dict json_CanteenDay (dg_canteens g))].

Definition json_DayGroupedWeek (w : DayGroupedWeek) : json :=
  JObj [(js "week", json_WeekId (dgw_week w));
        (js "generatedAt", JStr (dgw_generatedAt w));
        (js "days", json_dict json_DayGroup (dgw_days w))].

(* --------------------------------------------------------------------- *)
(** ** Writing, and the run as a whole *)

(** The files under the output directory: path to content.  A file
    written as UTF-8 and read back as UTF-8 is the string that was
    written, since [JSON.stringify] leaves no lone surrogate. *)
Abbreviation FileSystem := (gmap (list N) (list N)) (only parsing).

(** The state of a run: the files, the paths written to (oldest first)
    and the warnings logged.  The lines of [console.log] are not kept. *)
Record World : Type := {
  files : FileSystem;
  written : list jsstring;
  warned : list Warning
}.

Definition writeJsonFile (targetPath : jsstring) (payload : json) (w : World)
    : World :=
  let json := stringify payload ++ [10%N] in
  if bool_decide (files w !! targetPath = Some json) then w
  else {| files := <[targetPath := json]> (files w);
          written := written w ++ [targetPath];
          warned := warned w |}.

(** [join(dir, name)] for a normalised [dir] and a plain file name. *)
Definition join (dir name : jsstring) : jsstring := dir ++ js "/" ++ name.

(** What a run reads from outside: the output directory, the clock at the
    start and as container [j] of source [i] reads it, and what
    [fetchHtml] gives for a URL (the page as cheerio loads it, or the
    error thrown). *)
Record Env : Type := {
  outputDir : jsstring;
  clock_start : Date;
  clock_block : nat -> nat -> Date;
  fetchHtml : jsstring -> Error + Page
}.

(** How [main] ends.  [NotModelled]: a day's date left the years 0..9999,
    where the model has no [Date] for its string. *)
Inductive Outcome : Type :=
| Rejected (e : Error)
| Completed
| NotModelled.

(** The body of the loop over the partitions of one source.  The entry
    is changed in place. *)
Definition merge_partition (generatedAt0 : jsstring) (canteen : CanteenConfig)
    (parsed : ParsedMenu) (aggregated : jsmap OutputWeek)
    (partition : WeekPartition) : jsmap OutputWeek :=
  let key := weekKey (isoYear partition) (isoWeekNo partition) in
  let fresh :=
    {| week := {| wk_isoYear := isoYear partition;
                  wk_isoWeek := isoWeekNo partition;
                  wk_from := from partition;
                  wk_to := to partition |};
       generatedAt := generatedAt0;
       canteens := obj_empty |} in
  let aggregated1 :=
    if negb (map_has key aggregated) then map_set key fresh aggregated
    else aggregated in
  let entry :=
    match map_get key aggregated1 with Some e => e | None => fresh end in
  let from1 := if str_ltb (wk_from (week entry)) (from partition)
               then wk_from (week entry) else from partition in
  let to1 := if str_gtb (wk_to (week entry)) (to partition)
             then wk_to (week entry) else to partition in
  map_set key
    {| week := {| wk_isoYear := wk_isoYear (week entry);
                  wk_isoWeek := wk_isoWeek (week entry);
                  wk_from := from1;
                  wk_to := to1 |};
       generatedAt := generatedAt entry;
       canteens :=
         obj_set (slug canteen)
           {| name := cfg_name canteen;
              sourceUrl := url canteen;
              cw_legend := legend parsed;
              cw_days := convertDaysToMap (wp_days partition) |}
           (canteens entry) |}
    aggregated1.

(** The loop over the sources, from source number [i]. *)
Fixpoint main_collect (env : Env) (generatedAt0 : jsstring) (i : nat)
    (sources : list CanteenConfig) (aggregated : jsmap OutputWeek)
    (warnings : list Warning)
    : list Warning * (Outcome + jsmap OutputWeek) :=
  match sources with
  | [] => (warnings, inr aggregated)
  | canteen :: sources' =>
      match fetchHtml env (url canteen) with
      | inl e => (warnings, inl (Rejected e))
      | inr html =>
          match parseMenuPage (clock_block env i) html with
          | (ws, inl e) => (warnings ++ ws, inl (Rejected e))
          | (ws, inr parsed) =>
              match groupByWeek (days parsed) with
              | None => (warnings ++ ws, inl NotModelled)
              | Some partitions =>
                  main_collect env generatedAt0 (S i) sources'
                    (fold_left (merge_partition generatedAt0 canteen parsed)
                               partitions aggregated)
                    (warnings ++ ws)
              end
          end
      end
  end.

(** The body of the loop over the sorted keys: the two files of one
    week. *)
Definition write_week (dir : jsstring) (aggregated : jsmap OutputWeek)
    (w : World) (key : jsstring) : World :=
  match map_get key aggregated with
  | None => w
  | Some weekPayload =>
      let w1 := writeJsonFile (join dir (key ++ js ".json"))
                              (json_OutputWeek weekPayload) w in
      let byDayPayload := buildDayGroupedWeek weekPayload in
      writeJsonFile (join (join dir (js "by-day")) (key ++ js ".json"))
                    (json_DayGroupedWeek byDayPayload) w1
  end.

(** [main] over the given sources, from the files [fs]. *)
Definition main_with (sources : list CanteenConfig) (env : Env)
    (fs : FileSystem) : Outcome * World :=
  let generatedAt0 := toISOString (clock_start env) in
  match main_collect env generatedAt0 0 sources [] [] with
  | (warnings, inl out) =>
      (out, {| files := fs; written := []; warned := warnings |})
  | (warnings, inr aggregated) =>
      match aggregated with
      | [] => (Completed, {| files := fs; written := [];
                             warned := warnings ++ [WarnNoMenuData] |})
      | _ =>
          let sortedKeys := sort_strings (map_keys aggregated) in
          (Completed,
           fold_left (write_week (outputDir env) aggregated) sortedKeys
                     {| files := fs; written := []; warned := warnings |})
      end
  end.

Definition main (env : Env) (fs : FileSystem) : Outcome * World :=
  main_with CANTEENS env fs.

(* ===================================================================== *)
(** * Part II — the vocabulary of the properties                          *)
(* ===================================================================== *)

(** The predicates and functions the statements of Parts III and IV are
    written with, and the concrete pages, days and weeks they are tried
    on. *)

(* --------------------------------------------------------------------- *)
(** ** The ISO week in the words of the specification *)

(** A calendar date is the number of its day, counted from 1970-01-01, a
    Thursday.  [dayNumber] numbers the days of the week Monday = 1 ..
    Sunday = 7. *)
Definition dayNumber (day : Z) : Z := (day + 3) mod 7 + 1.

(** Shift to the Thursday of the week (by 4 - dayNumber); the ISO year is
    the year of the shifted date, the week is
    ceil((daysSinceJan1OfShiftedYear + 1) / 7). *)
Definition isoWeek_spec (day : Z) : Z * Z :=
  let thursday := day + (4 - dayNumber day) in
  let year := YearFromDay thursday in
  let daysSinceJan1 := thursday - DayFromYear year in
  (year, (daysSinceJan1 + 1 + 6) / 7).

(* --------------------------------------------------------------------- *)
(** ** Matches *)

(** The least number of characters a match of the pattern takes. *)
Fixpoint minlen (r : regex) : nat :=
  match r with
  | REmpty | RBol | REol => 0
  | RClass _ => 1
  | RRep _ lo _ _ => lo
  | RSeq a b => minlen a + minlen b
  | RAlt a b => Nat.min (minlen a) (minlen b)
  | RGroup _ a => minlen a
  end.

(** Where a matcher hands over to its continuation: at an index [j]
    that is at least [n] characters further, with the input left from
    there. *)
Definition reaches {R} (n i : nat) (rest : jsstring) (k : cont R)
    (res : R) : Prop :=
  exists j c', (i + n <= j)%nat /\ (j - i <= length rest)%nat
               /\ k j (skipn (j - i) rest) c' = Some res.

Definition is2digits (s : jsstring) : Prop :=
  exists c1 c2, s = [c1; c2] /\ isDigit c1 = true /\ isDigit c2 = true.

(* --------------------------------------------------------------------- *)
(** ** Labels and resolved dates *)

(** The day and month numbers the resolver reads from a label. *)
Definition label_day_month (label : jsstring) : option (Z * Z) :=
  match str_match re_dayMonth label with
  | Some m => Some (Number_of_digits (group label m 1),
                    Number_of_digits (group label m 2))
  | None => None
  end.

(** Threading: each resolved date is the previous date of the next
    label. *)
Fixpoint resolveDays (startDate : Date) (previous : option Date)
    (labels : list jsstring) : Error + list Date :=
  match labels with
  | [] => inr []
  | l :: ls =>
      match resolveDayDate l startDate previous with
      | inl e => inl e
      | inr d =>
          match resolveDays startDate (Some d) ls with
          | inl e => inl e
          | inr ds => inr (d :: ds)
          end
      end
  end.

(** A time value at midnight. *)
Definition aligned (t : Z) : Prop := t = MakeDate (Day t) 0.

(** A label whose month token is not 00. *)
Definition month_from_1 (label : jsstring) : Prop :=
  exists d m, label_day_month label = Some (d, m) /\ 1 <= m.

(** Length of month [m] (1 = January) of a common year. *)
Definition monthLength (m : Z) : Z :=
  match m with
  | 2 => 28
  | 4 | 6 | 9 | 11 => 30
  | _ => 31
  end.

(** A (day, month) pair that names a day of every year. *)
Definition calendar_day (dm : Z * Z) : Prop :=
  1 <= snd dm <= 12 /\ 1 <= fst dm <= monthLength (snd dm).

(** [a] is earlier in the year than [b]. *)
Definition md_ltb (a b : Z * Z) : bool :=
  (snd a <? snd b) || ((snd a =? snd b) && (fst a <? fst b)).

(** The years the resolver gives to a sequence of (day, month) pairs,
    starting in year [y] after the pair [prev]: one more each time the
    pair is earlier than the one before it. *)
Fixpoint resolved_years (y : Z) (prev : option (Z * Z)) (dms : list (Z * Z))
    : list Z :=
  match dms with
  | [] => []
  | dm :: rest =>
      let y' := match prev with
                | Some p => if md_ltb dm p then y + 1 else y
                | None => y
                end in
      y' :: resolved_years y' (Some dm) rest
  end.

(** The number of the day (day, month) within its year, from 0. *)
Definition dayOfYear (leap : Z) (dm : Z * Z) : Z :=
  daysBeforeMonth (snd dm - 1) leap + fst dm - 1.

(** The labels read as the (day, month) pairs [dms]. *)
Definition labels_read (labels : list jsstring) (dms : list (Z * Z)) : Prop :=
  Forall2 (fun l dm => label_day_month l = Some dm) labels dms.

(** No pair of the run is earlier than the one before it. *)
Definition ascending (dms : list (Z * Z)) : Prop :=
  Sorted (fun a b => md_ltb b a = false) dms.

(** The labels the loop of a container reads: one per dish row, by
    index, the empty text where there is no day element. *)
Definition labels_from (dayNodes : list jsstring) (index n : nat)
    : list jsstring :=
  List.map (fun i => cleanText (nth i dayNodes [])) (seq index n).

(** The labels read in one container. *)
Definition block_labels (b : Block) : list jsstring :=
  labels_from (block_days b) 0 (length (block_rows b)).

(** A label without day and month. *)
Definition unparseable (label : jsstring) : Prop :=
  label_day_month label = None.

(** The day menus built from labels, resolved dates and dish rows. *)
Fixpoint build_days (labels : list jsstring) (dates : list Z)
    (rows : list DishRow) : list DayMenu :=
  match labels, dates, rows with
  | l :: labels', d :: dates', r :: rows' =>
      {| date := formatIsoDate d; label := l; categories := parseDishRow r |}
      :: build_days labels' dates' rows'
  | _, _, _ => []
  end.

(** A call that ends in a throw. *)
Definition throws {A} (r : Error + A) : Prop := exists e, r = inl e.

(* --------------------------------------------------------------------- *)
(** ** Prices and legends *)

(** An amount as the price pattern reads it: one or two digits, a comma,
    two digits. *)
Definition amount_text (s : jsstring) : Prop :=
  exists ds c3 c4,
    s = ds ++ [44%N; c3; c4]
    /\ (1 <= length ds <= 2)%nat /\ forallb isDigit ds = true
    /\ isDigit c3 = true /\ isDigit c4 = true.

(** A match of the pattern in [s], as [matchAll] finds it. *)
Definition match_of (r : regex) (s : jsstring) (m : rmatch_result) : Prop :=
  (m_start m <= length s)%nat
  /\ match_here r (m_start m) (skipn (m_start m) s) = Some m.

(** The three category patterns of [parseLegend]. *)
Definition category_patterns : list regex :=
  [re_info; re_allergens; re_additives].

(* --------------------------------------------------------------------- *)
(** ** Orders, keys and partitions *)


(** Back from code units to characters. *)
Definition unjs (l : jsstring) : string :=
  string_of_list_ascii (List.map ascii_of_N l).

(** The integer a decimal text stands for. *)
Definition dec_value (l : jsstring) : option Z :=
  option_map Z.of_int (NilEmpty.int_of_string (unjs l)).

(** The ISO year and week [groupByWeek] computes for a day. *)
Definition week_of (day : DayMenu) : option (Z * Z) :=
  option_map isoWeek (parseIsoDay (date day)).

(** The day is of ISO year [y] and week [w]. *)
Definition in_week (y w : Z) (day : DayMenu) : bool :=
  match week_of day with
  | Some (y', w') => (y' =? y) && (w' =? w)
  | None => false
  end.

(** What holds of the partition stored under key [k] once the days
    [processed] went through the loop. *)
Record part_ok (processed : list DayMenu) (k : jsstring) (p : WeekPartition)
    : Prop := {
  ok_key : k = weekKey (isoYear p) (isoWeekNo p);
  ok_days : wp_days p
            = List.filter (in_week (isoYear p) (isoWeekNo p)) processed;
  ok_nonempty : wp_days p <> [];
  ok_from_le : Forall (fun d => str_leb (from p) (date d) = true) (wp_days p);
  ok_from_in : Exists (fun d => date d = from p) (wp_days p);
  ok_to_ge : Forall (fun d => str_leb (date d) (to p) = true) (wp_days p);
  ok_to_in : Exists (fun d => date d = to p) (wp_days p)
}.

(** The invariant of the first loop of [groupByWeek]: distinct keys,
    every partition as above, every processed day with its partition. *)
Definition byWeek_ok (processed : list DayMenu) (byWeek : jsmap WeekPartition)
    : Prop :=
  List.NoDup (map_keys byWeek)
  /\ Forall (fun kp => part_ok processed (fst kp) (snd kp)) byWeek
  /\ Forall (fun d => exists y w, week_of d = Some (y, w)
                                  /\ In (weekKey y w) (map_keys byWeek))
            processed.

(** A day whose date is a day of the calendar written YYYY-MM-DD. *)
Definition dated (day : DayMenu) : Prop :=
  exists d, parseIsoDay (date day) = Some d.

(** Partitions in ascending order of (isoYear, isoWeek), no two alike. *)
Definition week_lt (a b : WeekPartition) : Prop :=
  isoYear a < isoYear b
  \/ (isoYear a = isoYear b /\ isoWeekNo a < isoWeekNo b).

(** What [groupByWeek] promises of one partition of [days]. *)
Record partition_spec (days : list DayMenu) (q : WeekPartition) : Prop := {
  ps_members :
    Permutation (wp_days q)
                (List.filter (in_week (isoYear q) (isoWeekNo q)) days);
  ps_sorted :
    Sorted (fun a b => str_leb (date a) (date b) = true) (wp_days q);
  ps_from_le : Forall (fun d => str_leb (from q) (date d) = true) (wp_days q);
  ps_from_in : Exists (fun d => date d = from q) (wp_days q);
  ps_to_ge : Forall (fun d => str_leb (date d) (to q) = true) (wp_days q);
  ps_to_in : Exists (fun d => date d = to q) (wp_days q)
}.

(* --------------------------------------------------------------------- *)
(** ** The day-indexed document *)










(* --------------------------------------------------------------------- *)
(** ** Runs *)

(** One call of [writeJsonFile]: the path and the payload. *)
Definition write_target (w : World) (t : jsstring * json) : World :=
  writeJsonFile (fst t) (snd t) w.

(** What the call wants the file to hold. *)
Definition content (t : jsstring * json) : jsstring :=
  stringify (snd t) ++ [10%N].

(** The writes of one week and of all weeks. *)
Definition week_targets (dir : jsstring) (aggregated : jsmap OutputWeek)
    (key : jsstring) : list (jsstring * json) :=
  match map_get key aggregated with
  | None => []
  | Some weekPayload =>
      [(join dir (key ++ js ".json"), json_OutputWeek weekPayload);
       (join (join dir (js "by-day")) (key ++ js ".json"),
        json_DayGroupedWeek (buildDayGroupedWeek weekPayload))]
  end.

(** The characters of a week key: digits, the hyphen and W. *)
Definition key_char (c : N) : Prop := isDigit c = true \/ c = 45%N \/ c = 87%N.

(** A week key: what the keys of the aggregation Map are. *)
Definition is_weekKey (k : jsstring) : Prop := exists y w, k = weekKey y w.

(** The invariant of the aggregation Map: distinct week keys. *)
Definition agg_ok (aggregated : jsmap OutputWeek) : Prop :=
  List.NoDup (map_keys aggregated) /\ Forall is_weekKey (map_keys aggregated).

(* --------------------------------------------------------------------- *)
(** ** Concrete inputs *)

(** Monday 29 December 2025, and the labels of the week that starts
    there. *)
Definition ex_anchor : Z := UTC 2025 11 29.
Definition ex_new_year_labels : list jsstring :=
  [js "Mo, 29.12."; js "Di, 30.12."; js "Mi, 31.12."; js "Do, 01.01.";
   js "Fr, 02.01."].

(** Labels whose second one has the month token 00. *)
Definition ex_month_zero_labels : list jsstring :=
  [js "So, 15.12."; js "Mo, 10.00."].

(** An item with three prices and one without price or allergens. *)
Definition ex_schnitzel : Item :=
  {| item_h4_text := js "Schnitzel  mit Pommes";
     item_small_text := js "(a, a1, g)";
     item_price_text := js "2,20 EUR - 3,30 EUR - 4,40 EUR";
     item_tip := true |}.
Definition ex_plain_item : Item :=
  {| item_h4_text := js "Tagessuppe"; item_small_text := [];
     item_price_text := []; item_tip := false |}.

(** A dish row with one category of one item. *)
Definition ex_row (it : Item) : DishRow :=
  [[Element (js "h3") (js "Aktion") false it; Element (js "div") [] true it]].

(** One container with one day element and two dish rows. *)
Definition ex_page_fewer_days : Page :=
  {| page_blocks :=
       [{| block_h2 := js "Speiseplan vom 20.10.2025 - 24.10.2025";
           block_days := [js "Mo, 20.10."];
           block_rows := [ex_row ex_schnitzel; ex_row ex_plain_item] |}];
     page_h3s := [] |}.

(** One container with two day elements and one dish row. *)
Definition ex_page_fewer_rows : Page :=
  {| page_blocks :=
       [{| block_h2 := js "Speiseplan vom 20.10.2025 - 24.10.2025";
           block_days := [js "Mo, 20.10."; js "Di, 21.10."];
           block_rows := [ex_row ex_plain_item] |}];
     page_h3s := [] |}.

(** The amounts [parseMeal] reads in an item: the matches of the price
    pattern in the cleaned price text, left to right. *)
Definition price_matches (item : Item) : list rmatch_result :=
  matchAll re_price (cleanText (item_price_text item)).
Definition price_amounts (item : Item) : list jsnumber :=
  List.map (fun m => parseLocaleNumber
                       (group (cleanText (item_price_text item)) m 1))
           (price_matches item).

(** Days of two weeks, out of order. *)
Definition ex_day (d l : string) : DayMenu :=
  {| date := js d; label := js l; categories := [] |}.
Definition ex_days : list DayMenu :=
  [ex_day "2025-01-02" "Do, 02.01."; ex_day "2024-12-30" "Mo, 30.12.";
   ex_day "2024-12-27" "Fr, 27.12."; ex_day "2024-12-23" "Mo, 23.12."].


(** A page with one day, and a run at clock [t] in which every source
    serves that page.  The two clocks are 06:00 on 20 and on 21 October
    2025. *)
Definition ex_page_monday : Page :=
  {| page_blocks :=
       [{| block_h2 := js "Speiseplan vom 20.10.2025 - 24.10.2025";
           block_days := [js "Mo, 20.10."];
           block_rows := [ex_row ex_schnitzel] |}];
     page_h3s := [] |}.
Definition ex_env (t : Z) : Env :=
  {| outputDir := js "data/menus";
     clock_start := t;
     clock_block := fun _ _ => t;
     fetchHtml := fun _ => inr ex_page_monday |}.
Definition ex_clock_1 : Z := UTC 2025 9 20 + 6 * 3600000.
Definition ex_clock_2 : Z := UTC 2025 9 21 + 6 * 3600000.

(** Two sources in one order and in the other. *)
Definition ex_source_a : CanteenConfig :=
  {| slug := js "main"; cfg_name := js "Mensa"; url := js "https://a/" |}.
Definition ex_source_b : CanteenConfig :=
  {| slug := js "q-west"; cfg_name := js "Q-West"; url := js "https://b/" |}.

(** ** Clean texts and German numbers *)

(** The number of leading characters of [rest] in the class. *)
Fixpoint run (cl : cclass) (rest : jsstring) : nat :=
  match rest with
  | x :: rest' => if cclass_mem cl x then S (run cl rest') else O
  | [] => O
  end.

(** What replacing does to the input left, when a match is a character of
    the class [cl] followed by [len] of the characters after it. *)
Fixpoint replaced (cl : cclass) (len : jsstring -> nat) (repl : jsstring)
    (fuel : nat) (rest : jsstring) : jsstring :=
  match fuel with
  | O => rest
  | S fuel' =>
      match rest with
      | [] => []
      | x :: rest' =>
          if cclass_mem cl x
          then repl ++ replaced cl len repl fuel' (skipn (len rest') rest')
          else x :: replaced cl len repl fuel' rest'
      end
  end.

(** Runs of white space turned into one space each; [inSpace] tells that
    the character before was white space. *)
Fixpoint squeeze (inSpace : bool) (s : jsstring) : jsstring :=
  match s with
  | [] => []
  | c :: s' =>
      if isWhiteSpace c
      then (if inSpace then squeeze true s' else 32%N :: squeeze true s')
      else c :: squeeze false s'
  end.

(** No two spaces side by side. *)
Fixpoint noDoubleSpace (s : jsstring) : bool :=
  match s with
  | c :: s' =>
      match s' with
      | d :: _ => negb ((c =? 32) && (d =? 32))%N
      | [] => true
      end && noDoubleSpace s'
  | [] => true
  end.

(** The form [cleanText] gives a text: its only white space is the
    space U+0020, never two side by side and none at either end. *)
Definition clean (t : jsstring) : Prop :=
  Forall (fun c => isWhiteSpace c = true -> c = 32%N) t
  /\ noDoubleSpace t = true
  /\ trim t = t.

(** The characters that are not white space. *)
Definition inked (s : jsstring) : jsstring :=
  List.filter (fun c => negb (isWhiteSpace c)) s.

(** The text does not begin with white space. *)
Definition starts_inked (s : jsstring) : Prop :=
  match s with c :: _ => isWhiteSpace c = false | [] => True end.

(** The text without its dots. *)
Definition undotted (s : jsstring) : jsstring :=
  List.filter (fun c => negb (c =? 46)%N) s.

(** ** Dish rows and meals *)

(** The items of a child node that [parseDishRow] turns into meals: an
    element with the class [item] that is no [h3]. *)
Definition node_items (node : ColumnNode) : list Item :=
  match node with
  | NonTag => []
  | Element tagName _ hasItem it =>
      if jsstring_eqb (toLowerCase tagName) (js "h3") then []
      else if hasItem then [it] else []
  end.

(** The items of a dish row, column by column, in document order. *)
Definition row_items (row : DishRow) : list Item :=
  flat_map (flat_map node_items) row.

(** ** Date strings *)

(** [pad n z] is [n] digits that read [z]. *)
Definition pad_ok (n : nat) (z : Z) : bool :=
  (length (pad n z) =? n)%nat && forallb isDigit (pad n z)
  && (Number_of_digits (pad n z) =? z).

(** The date in the form [formatIsoDate] gives it for the years 0 to
    9999: YYYY-MM-DD. *)
Definition isoText (y m d : Z) : jsstring :=
  pad 4 y ++ js "-" ++ pad 2 m ++ js "-" ++ pad 2 d.

(** ** Calendar weeks *)

(** The number of the calendar week, Monday to Sunday, a day lies in:
    week 0 is the week of Thursday 1970-01-01. *)
Definition weekIndex (day : Z) : Z := (day + 3) / 7.

(** ** Day maps and the transposed week *)




(** ** Written files *)

(** The two files of the week [key] under the output directory. *)
Definition week_paths (dir key : jsstring) : list jsstring :=
  [join dir (key ++ js ".json");
   join (join dir (js "by-day")) (key ++ js ".json")].

(** A path [main] writes to: one of the two files of some ISO week. *)
Definition week_file (dir p : jsstring) : Prop :=
  exists year week, In p (week_paths dir (weekKey year week)).

(** ** The days of a page *)

(** The warning a container causes: one when its day elements and dish
    rows differ in number. *)
Definition mismatch_warning (b : Block) : list Warning :=
  if negb (length (block_days b) =? length (block_rows b))%nat
  then [WarnCountMismatch (length (block_days b)) (length (block_rows b))]
  else [].

(** The date of a day menu is the ISO form of a day. *)
Definition iso_dated (day : DayMenu) : Prop :=
  exists t, aligned t /\ date day = formatIsoDate t.

(** ** Partitions as calendar weeks *)

(** The day a day menu is dated, from the year 101 on. *)
Definition day_of (d : DayMenu) (t : Z) : Prop :=
  parseIsoDay (date d) = Some t /\ 101 <= getUTCFullYear t.

(** Two day menus are in one partition. *)
Definition together (parts : list WeekPartition) (d1 d2 : DayMenu) : Prop :=
  exists q, In q parts /\ In d1 (wp_days q) /\ In d2 (wp_days q).

(** ** The order of time, and pages without dish rows *)

(** [String(y)] of a year of four digits is its four digits. *)
Definition year4_ok (y : Z) : bool :=
  jsstring_eqb (String_of_Z y) (pad 4 y).

(** The date of a day menu is [formatIsoDate] of the day [t], in the
    years 0 to 9999. *)
Definition dated_by (d : DayMenu) (t : Z) : Prop :=
  date d = formatIsoDate t /\ 0 <= getUTCFullYear t <= 9999.

(** A page whose containers have no dish row. *)
Definition no_dish_rows (page : Page) : Prop :=
  page_blocks page <> []
  /\ Forall (fun b => block_rows b = []) (page_blocks page).

(** ** Legend keys *)

(** The keys of the three sub-categories of a legend: one or two capital
    letters; a small letter, with a digit after it or not; one or two
    digits. *)
Definition info_key (k : jsstring) : Prop :=
  (1 <= length k <= 2)%nat /\ forallb isUpperAZ k = true.
Definition allergen_key (k : jsstring) : Prop :=
  exists x ds, k = x :: ds /\ isLowerAZ x = true
               /\ (length ds <= 1)%nat /\ forallb isDigit ds = true.
Definition additive_key (k : jsstring) : Prop :=
  (1 <= length k <= 2)%nat /\ forallb isDigit k = true.

(** Where group 1 of a match of [r] lies and what it holds, and that
    group 2 holds no comma. *)
Definition legend_match (P : jsstring -> Prop) (body : jsstring)
    (m : rmatch_result) : Prop :=
  P (group body m 1) /\ ~ In 44%N (group body m 2).

(** ** Day labels *)

(** A day label: text without digits, then DD.MM. and anything. *)
Definition day_label (pre post : jsstring) (d m : Z) : jsstring :=
  pre ++ pad 2 d ++ js "." ++ pad 2 m ++ js "." ++ post.

(** ** Further concrete inputs *)

(** A dish row of two columns: an item before any heading, a heading
    with one item, and in the second column an item before any
    heading. *)
Definition ex_row_two_columns : DishRow :=
  [[Element (js "div") [] true ex_plain_item;
    Element (js "H3") (js " Aktion ") false ex_plain_item;
    NonTag;
    Element (js "div") [] true ex_schnitzel];
   [Element (js "div") [] true ex_plain_item]].


(** A page whose one container has day elements but no dish row, and a
    run in which every source serves it. *)
Definition ex_page_no_rows : Page :=
  {| page_blocks :=
       [{| block_h2 := js "Speiseplan";
           block_days := [js "Mo, 20.10."];
           block_rows := [] |}];
     page_h3s := [] |}.
Definition ex_env_no_rows : Env :=
  {| outputDir := js "data/menus";
     clock_start := ex_clock_1;
     clock_block := fun _ _ => ex_clock_1;
     fetchHtml := fun _ => inr ex_page_no_rows |}.

(** A page with a legend. *)
Definition ex_page_legend : Page :=
  {| page_blocks := [];
     page_h3s :=
       [{| h3_text := js "Erl" ++ [228%N] ++ js "uterungen";
           h3_row_columns :=
             Some [js "Inhalt: (V) Vegan, (VG) Vegetarisch.";
                   js "Allergene: a) Gluten, a1) Weizen, g) Milch.";
                   js "Zusatzstoffe: 1) Farbstoff, 12) Phosphat."] |}] |}.

(* ===================================================================== *)
(** * Part III — properties                                               *)
(* ===================================================================== *)

Ltac zlia := Z.div_mod_to_equations; lia.

Ltac month_cases m :=
  let H := fresh in
  assert (H : m = 1 \/ m = 2 \/ m = 3 \/ m = 4 \/ m = 5 \/ m = 6 \/ m = 7
              \/ m = 8 \/ m = 9 \/ m = 10 \/ m = 11 \/ m = 12) by lia;
  repeat (destruct H as [H | H]; [subst m | ]); [.. | subst m].

(* --------------------------------------------------------------------- *)
(** ** Calendar arithmetic *)

Lemma DayFromYear_succ y : DayFromYear (y + 1) = DayFromYear y + DaysInYear y.
Proof.
  unfold DayFromYear, DaysInYear, isLeapYear.
  destruct (y mod 4 =? 0) eqn:E4; destruct (y mod 100 =? 0) eqn:E100;
    destruct (y mod 400 =? 0) eqn:E400; simpl;
    rewrite ?Z.eqb_eq, ?Z.eqb_neq in *; zlia.
Qed.

Lemma DaysInYear_cases y : DaysInYear y = 365 \/ DaysInYear y = 366.
Proof. unfold DaysInYear. destruct (isLeapYear y); auto. Qed.

Lemma DayFromYear_lt y1 y2 : y1 < y2 -> DayFromYear y1 < DayFromYear y2.
Proof. unfold DayFromYear. zlia. Qed.

Lemma DayFromYear_le y1 y2 : y1 <= y2 -> DayFromYear y1 <= DayFromYear y2.
Proof. unfold DayFromYear. zlia. Qed.

Lemma YearFromDay_spec d :
  DayFromYear (YearFromDay d) <= d < DayFromYear (YearFromDay d + 1).
Proof.
  unfold YearFromDay.
  set (y0 := 1970 + d * 400 / 146097).
  assert (H0 : DayFromYear (y0 - 1) <= d < DayFromYear (y0 + 2)).
  { unfold y0, DayFromYear. zlia. }
  destruct (Z.ltb_spec d (DayFromYear y0)).
  - replace (y0 - 1 + 1) with y0 by lia. lia.
  - destruct (Z.leb_spec (DayFromYear (y0 + 1)) d).
    + replace (y0 + 1 + 1) with (y0 + 2) by lia. lia.
    + lia.
Qed.

Lemma YearFromDay_unique d y :
  DayFromYear y <= d < DayFromYear (y + 1) -> YearFromDay d = y.
Proof.
  intros H. pose proof (YearFromDay_spec d) as S.
  destruct (Z.lt_trichotomy (YearFromDay d) y) as [L | [E | G]]; [ | exact E | ].
  - assert (DayFromYear (YearFromDay d + 1) <= DayFromYear y)
      by (apply DayFromYear_le; lia). lia.
  - assert (DayFromYear (y + 1) <= DayFromYear (YearFromDay d))
      by (apply DayFromYear_le; lia). lia.
Qed.

Lemma Day_MakeDate d : Day (MakeDate d 0) = d.
Proof. unfold Day, MakeDate, msPerDay. zlia. Qed.

Lemma TimeWithinDay_MakeDate d : TimeWithinDay (MakeDate d 0) = 0.
Proof. unfold TimeWithinDay, MakeDate, msPerDay. zlia. Qed.

Lemma DayWithinYear_range t :
  0 <= DayWithinYear t < 365 + InLeapYear t.
Proof.
  unfold DayWithinYear, InLeapYear, YearFromTime.
  pose proof (YearFromDay_spec (Day t)) as S.
  rewrite DayFromYear_succ in S. unfold DaysInYear in S.
  destruct (isLeapYear (YearFromDay (Day t))); lia.
Qed.

Lemma InLeapYear_cases t : InLeapYear t = 0 \/ InLeapYear t = 1.
Proof. unfold InLeapYear. destruct (isLeapYear _); auto. Qed.

Lemma monthOfDayInYear_range dwy leap : 0 <= monthOfDayInYear dwy leap <= 11.
Proof.
  unfold monthOfDayInYear.
  repeat (match goal with |- context [if ?b then _ else _] => destruct b end); lia.
Qed.

Lemma MonthFromTime_range t : 0 <= MonthFromTime t <= 11.
Proof. apply monthOfDayInYear_range. Qed.

(** The date of the month is between 1 and the length of the month. *)
Lemma DateFromTime_range t :
  1 <= DateFromTime t <= daysInMonth (YearFromTime t) (MonthFromTime t).
Proof.
  unfold DateFromTime, MonthFromTime, daysInMonth.
  pose proof (DayWithinYear_range t) as R.
  unfold InLeapYear in *.
  destruct (isLeapYear (YearFromTime t)); unfold monthOfDayInYear;
    repeat (match goal with
            | |- context [if ?a <? ?b then _ else _] =>
                destruct (Z.ltb_spec a b)
            end); simpl; lia.
Qed.

(** The calendar fields of a time value name its day. *)
Lemma MakeDay_fields t :
  MakeDay (YearFromTime t) (MonthFromTime t) (DateFromTime t) = Day t.
Proof.
  pose proof (MonthFromTime_range t) as R.
  unfold MakeDay.
  replace (MonthFromTime t / 12) with 0 by zlia.
  replace (MonthFromTime t mod 12) with (MonthFromTime t) by zlia.
  rewrite Z.add_0_r.
  unfold DateFromTime, DayWithinYear, InLeapYear. lia.
Qed.

Lemma MakeDay_shift y m d k : MakeDay y m (d + k) = MakeDay y m d + k.
Proof. unfold MakeDay. lia. Qed.

Lemma UTC_plain y m d :
  ~ (0 <= y <= 99) -> UTC y m d = MakeDate (MakeDay y m d) 0.
Proof.
  intros H. unfold UTC.
  destruct (Z.leb_spec 0 y), (Z.leb_spec y 99); simpl; try reflexivity; lia.
Qed.

Lemma UTC_aligned y m d : UTC y m d = MakeDate (Day (UTC y m d)) 0.
Proof. unfold UTC. now rewrite Day_MakeDate. Qed.

(** *** ISO weeks *)

Lemma MakeDay_jan1 y : MakeDay y 0 1 = DayFromYear y.
Proof.
  unfold MakeDay. change (0 / 12) with 0. change (0 mod 12) with 0.
  unfold daysBeforeMonth. rewrite !Z.add_0_r. lia.
Qed.

Lemma setUTCDate_shift t k :
  setUTCDate t (DateFromTime t + k) = MakeDate (Day t + k) (TimeWithinDay t).
Proof. unfold setUTCDate. now rewrite MakeDay_shift, MakeDay_fields. Qed.

Lemma dayNum_dayNumber t :
  (if WeekDay t =? 0 then 7 else WeekDay t) = dayNumber (Day t).
Proof.
  unfold WeekDay, dayNumber.
  destruct (Z.eqb_spec ((Day t + 4) mod 7) 0); zlia.
Qed.

Lemma ceil_div7_eq a : ceil_div7 a = (a + 6) / 7.
Proof. unfold ceil_div7. zlia. Qed.

Lemma isoWeek_spec_eq date :
  ~ (0 <= YearFromTime date <= 99) ->
  ~ (0 <= fst (isoWeek_spec (Day date)) <= 99) ->
  isoWeek date = isoWeek_spec (Day date).
Proof.
  intros Hy Hth. unfold isoWeek, getUTCFullYear, getUTCMonth, getUTCDate,
    getUTCDay, getTime.
  rewrite (UTC_plain _ _ _ Hy), MakeDay_fields.
  set (temp := MakeDate (Day date) 0).
  assert (Dt : Day temp = Day date) by apply Day_MakeDate.
  rewrite dayNum_dayNumber, Dt.
  replace (DateFromTime temp + 4 - dayNumber (Day date))
    with (DateFromTime temp + (4 - dayNumber (Day date))) by lia.
  rewrite setUTCDate_shift, Dt.
  assert (Tw : TimeWithinDay temp = 0) by apply TimeWithinDay_MakeDate.
  rewrite !Tw.
  unfold isoWeek_spec in *. simpl in Hth.
  set (th := Day date + (4 - dayNumber (Day date))) in *.
  unfold YearFromTime. rewrite !Day_MakeDate.
  rewrite (UTC_plain _ _ _ Hth).
  f_equal. rewrite ceil_div7_eq. f_equal.
  rewrite MakeDay_jan1. unfold MakeDate, msPerDay.
  replace (th * 86400000 + 0 - (DayFromYear (YearFromDay th) * 86400000 + 0))
    with ((th - DayFromYear (YearFromDay th)) * 86400000) by lia.
  rewrite Z.div_mul by lia. lia.
Qed.

(* --------------------------------------------------------------------- *)
(** ** The matcher *)

Lemma reaches_here {R} i rest c (k : cont R) res :
  k i rest c = Some res -> reaches 0 i rest k res.
Proof.
  intros H. exists i, c. rewrite Nat.sub_diag. simpl.
  split; [lia | split; [lia | exact H]].
Qed.

Lemma reaches_step {R} n i x rest (k : cont R) res :
  reaches n (S i) rest k res -> reaches (S n) i (x :: rest) k res.
Proof.
  intros (j & c' & H1 & H2 & H3). exists j, c'.
  split; [lia | split; [simpl; lia | ]].
  replace (j - i)%nat with (S (j - S i)) by lia. exact H3.
Qed.

Lemma reaches_weaken {R} n m i rest (k : cont R) res :
  (m <= n)%nat -> reaches n i rest k res -> reaches m i rest k res.
Proof.
  intros L (j & c' & H1 & H2 & H3). exists j, c'.
  split; [lia | split; [lia | exact H3]].
Qed.

Lemma rep_greedy_reaches {R} cl rest : forall lo hi i c (k : cont R) res,
  rep_greedy cl lo hi i rest c k = Some res -> reaches lo i rest k res.
Proof.
  induction rest as [| x rest IH]; intros lo hi i c k res H; simpl in H.
  - destruct lo; [ | destruct (hi_zero hi); discriminate].
    apply (reaches_here i [] c). now destruct (hi_zero hi).
  - assert (Stop : match lo with O => k i (x :: rest) c | S _ => None end
                   = Some res -> reaches lo i (x :: rest) k res).
    { destruct lo; [apply reaches_here | discriminate]. }
    destruct (hi_zero hi); [auto | ].
    destruct (cclass_mem cl x); [ | auto].
    destruct (rep_greedy cl (Nat.pred lo) (hi_pred hi) (S i) rest c k)
      as [r |] eqn:E; [ | auto].
    injection H as ->. apply IH in E. apply (reaches_step _ _ x) in E.
    eapply reaches_weaken; [ | exact E]. lia.
Qed.

Lemma rep_lazy_reaches {R} cl rest : forall lo hi i c (k : cont R) res,
  rep_lazy cl lo hi i rest c k = Some res -> reaches lo i rest k res.
Proof.
  induction rest as [| x rest IH]; intros lo hi i c k res H; simpl in H.
  - destruct lo.
    + destruct (k i [] c) eqn:E.
      * injection H as ->. eapply reaches_here; eauto.
      * destruct (hi_zero hi); discriminate.
    + destruct (hi_zero hi); discriminate.
  - assert (More : (if hi_zero hi then None
                    else if cclass_mem cl x
                         then rep_lazy cl (Nat.pred lo) (hi_pred hi) (S i) rest c k
                         else None) = Some res ->
                   reaches lo i (x :: rest) k res).
    { destruct (hi_zero hi); [discriminate | ].
      destruct (cclass_mem cl x); [ | discriminate].
      intros E. apply IH in E. apply (reaches_step _ _ x) in E.
      eapply reaches_weaken; [ | exact E]. lia. }
    destruct lo; [ | auto].
    destruct (k i (x :: rest) c) eqn:E; [ | auto].
    injection H as ->. eapply reaches_here; eauto.
Qed.

Lemma reaches_compose {R} n m i rest (k : cont R) (k' : cont R) res :
  reaches n i rest k' res ->
  (forall j c', (i + n <= j)%nat -> (j - i <= length rest)%nat ->
      k' j (skipn (j - i) rest) c' = Some res ->
      reaches m j (skipn (j - i) rest) k res) ->
  reaches (n + m) i rest k res.
Proof.
  intros (j & c' & H1 & H2 & H3) Hk.
  destruct (Hk j c' H1 H2 H3) as (j2 & c2 & G1 & G2 & G3).
  exists j2, c2. rewrite length_skipn in G2.
  split; [lia | split; [lia | ]].
  rewrite skipn_skipn in G3.
  replace (j2 - i)%nat with (j2 - j + (j - i))%nat by lia. exact G3.
Qed.

(** The matcher succeeds only through its continuation, and only after
    taking at least [minlen r] characters. *)
Lemma rmatch_reaches {R} r : forall i rest c (k : cont R) res,
  rmatch r i rest c k = Some res -> reaches (minlen r) i rest k res.
Proof.
  induction r as [ | cl | cl lo hi g | a IHa b IHb | a IHa b IHb | n a IHa | | ];
    intros i rest c k res H; simpl in H |- *.
  - eapply reaches_here; eauto.
  - destruct rest as [| x rest]; [discriminate | ].
    destruct (cclass_mem cl x); [ | discriminate].
    apply reaches_step. eapply reaches_here; eauto.
  - destruct g; [eapply rep_greedy_reaches | eapply rep_lazy_reaches]; eauto.
  - apply IHa in H. eapply reaches_compose; [exact H | ].
    intros j c' _ _ Hb. exact (IHb _ _ _ _ _ Hb).
  - destruct (rmatch a i rest c k) eqn:E.
    + injection H as ->. apply IHa in E.
      eapply reaches_weaken; [ | exact E]. lia.
    + apply IHb in H. eapply reaches_weaken; [ | exact H]. lia.
  - apply IHa in H. destruct H as (j & c' & H1 & H2 & H3).
    exists j, ((n, (i, j)) :: c'). auto.
  - destruct i; [ | discriminate]. eapply reaches_here; eauto.
  - destruct rest; [ | discriminate]. eapply reaches_here; eauto.
Qed.

Lemma match_here_bounds r i rest m :
  match_here r i rest = Some m ->
  m_start m = i /\ (i + minlen r <= m_end m)%nat
  /\ (m_end m <= i + length rest)%nat.
Proof.
  unfold match_here. intros H. apply rmatch_reaches in H.
  destruct H as (j & c' & H1 & H2 & H3). injection H3 as <-. simpl. lia.
Qed.

(** A match found by [search] from index [i] of [s] starts at or after
    [i], is a match at its start, and no earlier index from [i] has one. *)
Lemma search_spec r s : forall i m,
  (i <= length s)%nat ->
  search r i (skipn i s) = Some m ->
  (i <= m_start m)%nat /\ (m_start m <= length s)%nat
  /\ match_here r (m_start m) (skipn (m_start m) s) = Some m
  /\ (forall j, (i <= j < m_start m)%nat ->
        match_here r j (skipn j s) = None).
Proof.
  intros i m Hi. remember (length s - i)%nat as n eqn:En.
  revert i Hi En. induction n as [| n IH]; intros i Hi En H.
  - assert (i = length s) by lia. subst i.
    rewrite skipn_all in H. simpl in H.
    destruct (match_here r (length s) []) eqn:E; [ | discriminate].
    injection H as ->. pose proof (match_here_bounds _ _ _ _ E) as (B & _).
    rewrite B. rewrite skipn_all. repeat split; auto; try lia.
  - destruct (skipn i s) as [| x rest] eqn:Es.
    { apply (f_equal (@length N)) in Es. rewrite length_skipn in Es.
      simpl in Es. lia. }
    simpl in H. destruct (match_here r i (x :: rest)) eqn:E.
    + injection H as ->. pose proof (match_here_bounds _ _ _ _ E) as (B & _).
      rewrite B, Es. repeat split; auto; try lia.
    + assert (Es' : skipn (S i) s = rest).
      { replace (S i) with (1 + i)%nat by lia.
        rewrite <- skipn_skipn, Es. reflexivity. }
      rewrite <- Es' in H. apply IH in H; [ | lia | lia].
      destruct H as (H1 & H2 & H3 & H4).
      repeat split; auto; try lia.
      intros j Hj. destruct (Nat.eq_dec j i) as [-> | Ne].
      * now rewrite Es.
      * apply H4. lia.
Qed.

(** Exactly two digits. *)
Lemma rep_digits2 {R} i rest c (k : cont R) :
  rep_greedy CDigit 2 (Some 2%nat) i rest c k =
  match rest with
  | c1 :: c2 :: rest' =>
      if isDigit c1 && isDigit c2 then k (S (S i)) rest' c else None
  | _ => None
  end.
Proof.
  destruct rest as [| c1 [| c2 rest']]; simpl; try reflexivity.
  - now destruct (isDigit c1).
  - destruct (isDigit c1); simpl; [ | reflexivity].
    destruct (isDigit c2); simpl; [ | reflexivity].
    destruct rest'; simpl; now destruct (k _ _ _).
Qed.

Lemma rchar_match {R} x i rest c (k : cont R) :
  rmatch (rchar x) i rest c k =
  match rest with
  | y :: rest' => if (y =? x)%N then k (S i) rest' c else None
  | [] => None
  end.
Proof. reflexivity. Qed.

Lemma match_here_dayMonth i rest m :
  match_here re_dayMonth i rest = Some m ->
  exists c1 c2 c3 c4 rest',
    rest = c1 :: c2 :: 46%N :: c3 :: c4 :: 46%N :: rest'
    /\ isDigit c1 = true /\ isDigit c2 = true
    /\ isDigit c3 = true /\ isDigit c4 = true
    /\ m = MkMatch i (6 + i) [(2, (3 + i, 5 + i)); (1, (i, 2 + i))]%nat.
Proof.
  unfold match_here, re_dayMonth, rseq, rdigits.
  cbn [rmatch]. rewrite rep_digits2.
  destruct rest as [| c1 [| c2 rest]]; try discriminate.
  destruct (isDigit c1) eqn:D1; [ | discriminate].
  destruct (isDigit c2) eqn:D2; [ | discriminate].
  cbn [andb]. rewrite rchar_match.
  destruct rest as [| p1 rest]; [discriminate | ].
  destruct (N.eqb_spec p1 46); [subst p1 | discriminate].
  rewrite rep_digits2.
  destruct rest as [| c3 [| c4 rest]]; try discriminate.
  destruct (isDigit c3) eqn:D3; [ | discriminate].
  destruct (isDigit c4) eqn:D4; [ | discriminate].
  cbn [andb]. rewrite rchar_match.
  destruct rest as [| p2 rest]; [discriminate | ].
  destruct (N.eqb_spec p2 46); [subst p2 | discriminate].
  intros H. injection H as <-.
  exists c1, c2, c3, c4, rest. repeat split; auto.
Qed.

(* --------------------------------------------------------------------- *)
(** ** The date resolver *)

Lemma Number_of_2digits c1 c2 :
  isDigit c1 = true -> isDigit c2 = true ->
  0 <= Number_of_digits [c1; c2] <= 99.
Proof.
  unfold isDigit, Number_of_digits, digit_value. simpl.
  rewrite !andb_true_iff, !N.leb_le. lia.
Qed.

Lemma str_match_dayMonth label mt :
  str_match re_dayMonth label = Some mt ->
  exists c1 c2 c3 c4,
    group label mt 1 = [c1; c2] /\ group label mt 2 = [c3; c4]
    /\ isDigit c1 = true /\ isDigit c2 = true
    /\ isDigit c3 = true /\ isDigit c4 = true.
Proof.
  unfold str_match. intros E.
  change label with (skipn 0 label) in E at 1.
  apply search_spec in E; [ | lia].
  destruct E as (_ & _ & E & _).
  apply match_here_dayMonth in E.
  destruct E as (c1 & c2 & c3 & c4 & rest' & Es & D1 & D2 & D3 & D4 & Em).
  exists c1, c2, c3, c4.
  assert (Hc : m_caps mt = [(2, (3 + m_start mt, 5 + m_start mt));
                            (1, (m_start mt, 2 + m_start mt))]%nat)
    by (rewrite Em; reflexivity).
  unfold group. rewrite Hc. cbn [cap_lookup Nat.eqb]. unfold slice.
  replace (2 + m_start mt - m_start mt)%nat with 2%nat by lia.
  replace (5 + m_start mt - (3 + m_start mt))%nat with 2%nat by lia.
  rewrite <- (skipn_skipn 3 (m_start mt)), Es.
  repeat split; auto.
Qed.

Lemma label_day_month_range label d m :
  label_day_month label = Some (d, m) -> 0 <= d <= 99 /\ 0 <= m <= 99.
Proof.
  unfold label_day_month.
  destruct (str_match re_dayMonth label) as [mt |] eqn:E; [ | discriminate].
  intros H. injection H as <- <-.
  apply str_match_dayMonth in E.
  destruct E as (c1 & c2 & c3 & c4 & -> & -> & D1 & D2 & D3 & D4).
  split; apply Number_of_2digits; auto.
Qed.

Lemma resolveDayDate_unfold label startDate previous :
  resolveDayDate label startDate previous =
  match label_day_month label with
  | None => inl (ErrDayLabel label)
  | Some (day, month) =>
      match previous with
      | None => inr (UTC (YearFromTime startDate) (month - 1) day)
      | Some p =>
          if UTC (YearFromTime p) (month - 1) day <? p
          then inr (UTC (YearFromTime p + 1) (month - 1) day)
          else inr (UTC (YearFromTime p) (month - 1) day)
      end
  end.
Proof.
  unfold resolveDayDate, label_day_month, getUTCFullYear, getTime.
  destruct (str_match re_dayMonth label); [ | reflexivity].
  destruct previous as [p |].
  - now destruct (_ <? p).
  - now destruct (negb _).
Qed.

(** *** Non-decreasing dates *)

Lemma aligned_UTC y m d : aligned (UTC y m d).
Proof. apply UTC_aligned. Qed.

Lemma daysBeforeMonth_nonneg mn leap :
  0 <= leap -> 0 <= daysBeforeMonth mn leap.
Proof.
  intros L. unfold daysBeforeMonth.
  destruct mn as [| p | p]; try lia.
  do 4 (destruct p as [p | p |]; try lia).
Qed.

Lemma MakeDay_lower y' yr mi d :
  y' <= yr -> 0 <= mi -> 0 <= d -> DayFromYear y' - 1 <= MakeDay yr mi d.
Proof.
  intros Hy Hm Hd. unfold MakeDay.
  assert (0 <= mi / 12) by zlia.
  assert (DayFromYear y' <= DayFromYear (yr + mi / 12))
    by (apply DayFromYear_le; lia).
  assert (0 <= daysBeforeMonth (mi mod 12)
                 (if isLeapYear (yr + mi / 12) then 1 else 0))
    by (apply daysBeforeMonth_nonneg; destruct (isLeapYear _); lia).
  lia.
Qed.

Lemma UTC_next_year_ge p mi d :
  aligned p -> 0 <= mi -> 0 <= d -> p <= UTC (YearFromTime p + 1) mi d.
Proof.
  intros Ha Hm Hd. unfold UTC.
  set (y := YearFromTime p + 1).
  set (yr := if (0 <=? y) && (y <=? 99) then 1900 + y else y).
  assert (Hyr : y <= yr).
  { unfold yr. destruct (Z.leb_spec 0 y), (Z.leb_spec y 99); simpl; lia. }
  pose proof (MakeDay_lower y yr mi d Hyr Hm Hd) as L.
  pose proof (YearFromDay_spec (Day p)) as S.
  fold (YearFromTime p) in S. fold y in S.
  rewrite Ha. unfold MakeDate, msPerDay. nia.
Qed.

Lemma resolveDayDate_next label startDate p d m :
  aligned p -> label_day_month label = Some (d, m) -> 1 <= m ->
  exists r, resolveDayDate label startDate (Some p) = inr r
            /\ p <= r /\ aligned r.
Proof.
  intros Ha Hl Hm. rewrite resolveDayDate_unfold, Hl.
  pose proof (label_day_month_range _ _ _ Hl) as [Hd _].
  destruct (Z.ltb_spec (UTC (YearFromTime p) (m - 1) d) p).
  - eexists. split; [reflexivity | ]. split; [ | apply aligned_UTC].
    apply UTC_next_year_ge; auto; lia.
  - eexists. split; [reflexivity | ]. split; [lia | apply aligned_UTC].
Qed.

Lemma resolveDayDate_first label startDate d m :
  label_day_month label = Some (d, m) ->
  resolveDayDate label startDate None
  = inr (UTC (YearFromTime startDate) (m - 1) d).
Proof. intros Hl. now rewrite resolveDayDate_unfold, Hl. Qed.

Lemma resolveDays_sorted_from startDate labels : forall p,
  aligned p -> Forall month_from_1 labels ->
  exists dates,
    resolveDays startDate (Some p) labels = inr dates
    /\ length dates = length labels
    /\ Sorted Z.le dates /\ HdRel Z.le p dates.
Proof.
  induction labels as [| l ls IH]; intros p Ha Hf.
  - exists []. simpl. auto.
  - inversion Hf as [| ? ? (d & m & Hl & Hm) Hf']; subst.
    destruct (resolveDayDate_next l startDate p d m Ha Hl Hm)
      as (r & Hr & Hle & Har).
    destruct (IH r Har Hf') as (ds & Hds & Hlen & Hs & Hh).
    exists (r :: ds). cbn [resolveDays]. rewrite Hr, Hds.
    repeat split; auto. simpl. now rewrite Hlen.
Qed.

Lemma resolveDays_sorted startDate labels :
  Forall month_from_1 labels ->
  exists dates,
    resolveDays startDate None labels = inr dates
    /\ length dates = length labels
    /\ Sorted Z.le dates.
Proof.
  destruct labels as [| l ls]; intros Hf.
  - exists []. simpl. auto.
  - inversion Hf as [| ? ? (d & m & Hl & Hm) Hf']; subst.
    pose proof (resolveDayDate_first l startDate d m Hl) as Hr.
    destruct (resolveDays_sorted_from startDate ls _
                (aligned_UTC (YearFromTime startDate) (m - 1) d) Hf')
      as (ds & Hds & Hlen & Hs & Hh).
    eexists. cbn [resolveDays]. rewrite Hr, Hds.
    split; [reflexivity | ].
    split; [simpl; now rewrite Hlen | ]. constructor; auto.
Qed.

(** *** The year boundary *)

Lemma dayOfYear_range leap dm :
  calendar_day dm -> 0 <= leap <= 1 -> 0 <= dayOfYear leap dm < 365 + leap.
Proof.
  destruct dm as [d m]. unfold calendar_day, dayOfYear. simpl.
  intros [Hm Hd] Hl. month_cases m; simpl in *; lia.
Qed.

Lemma dayOfYear_lt leap a b :
  calendar_day a -> calendar_day b -> 0 <= leap <= 1 ->
  (dayOfYear leap a < dayOfYear leap b <-> md_ltb a b = true).
Proof.
  destruct a as [d m], b as [pd pm]. unfold calendar_day, dayOfYear, md_ltb.
  simpl. intros [Hm Hd] [Hpm Hpd] Hl.
  rewrite orb_true_iff, andb_true_iff, !Z.ltb_lt, Z.eqb_eq.
  month_cases m; month_cases pm; simpl in *; lia.
Qed.

Lemma UTC_calendar y dm :
  ~ (0 <= y <= 99) -> calendar_day dm ->
  UTC y (snd dm - 1) (fst dm)
  = MakeDate (DayFromYear y
              + dayOfYear (if isLeapYear y then 1 else 0) dm) 0.
Proof.
  intros Hy [Hm Hd]. rewrite UTC_plain by exact Hy.
  unfold MakeDay, dayOfYear.
  replace ((snd dm - 1) / 12) with 0 by zlia.
  replace ((snd dm - 1) mod 12) with (snd dm - 1) by zlia.
  rewrite Z.add_0_r. f_equal. lia.
Qed.

Lemma YearFromTime_calendar y dm :
  ~ (0 <= y <= 99) -> calendar_day dm ->
  YearFromTime (UTC y (snd dm - 1) (fst dm)) = y.
Proof.
  intros Hy Hc. rewrite UTC_calendar by assumption.
  unfold YearFromTime. rewrite Day_MakeDate.
  apply YearFromDay_unique. rewrite DayFromYear_succ. unfold DaysInYear.
  pose proof (dayOfYear_range (if isLeapYear y then 1 else 0) dm Hc).
  destruct (isLeapYear y); lia.
Qed.

Lemma UTC_calendar_lt y a b :
  ~ (0 <= y <= 99) -> calendar_day a -> calendar_day b ->
  (UTC y (snd a - 1) (fst a) <? UTC y (snd b - 1) (fst b)) = md_ltb a b.
Proof.
  intros Hy Ha Hb. rewrite !UTC_calendar by assumption.
  assert (L : 0 <= (if isLeapYear y then 1 else 0) <= 1)
    by (destruct (isLeapYear y); lia).
  pose proof (dayOfYear_lt _ a b Ha Hb L) as E.
  unfold MakeDate, msPerDay.
  destruct (md_ltb a b).
  - apply Z.ltb_lt. assert (dayOfYear (if isLeapYear y then 1 else 0) a
                            < dayOfYear (if isLeapYear y then 1 else 0) b)
      by (apply E; reflexivity). lia.
  - apply Z.ltb_ge.
    assert (~ dayOfYear (if isLeapYear y then 1 else 0) a
              < dayOfYear (if isLeapYear y then 1 else 0) b)
      by (intros C; apply E in C; discriminate). lia.
Qed.

Lemma resolveDays_years_from startDate labels : forall dms y pd pm,
  labels_read labels dms -> Forall calendar_day dms ->
  100 <= y -> calendar_day (pd, pm) ->
  exists dates,
    resolveDays startDate (Some (UTC y (pm - 1) pd)) labels = inr dates
    /\ List.map getUTCFullYear dates = resolved_years y (Some (pd, pm)) dms.
Proof.
  induction labels as [| l ls IH]; intros dms y pd pm Hr Hc Hy Hp.
  - inversion Hr; subst. exists []. auto.
  - inversion Hr as [| ? dm ? dms' Hl Hr']; subst.
    inversion Hc as [| ? ? Hdm Hc']; subst.
    cbn [resolveDays resolved_years].
    rewrite resolveDayDate_unfold, Hl. destruct dm as [d m].
    assert (Ny : forall k, 0 <= k -> ~ (0 <= y + k <= 99)) by (intros; lia).
    pose proof (YearFromTime_calendar y (pd, pm)) as Yp.
    cbn [fst snd] in Yp. rewrite Yp by (auto; lia).
    pose proof (UTC_calendar_lt y (d, m) (pd, pm)) as Lt.
    cbn [fst snd] in Lt. rewrite Lt by (auto; lia).
    destruct (md_ltb (d, m) (pd, pm)).
    + destruct (IH dms' (y + 1) d m Hr' Hc') as (ds & Hds & Hys);
        [lia | assumption | ].
      rewrite Hds. eexists. split; [reflexivity | ].
      cbn [List.map]. unfold getUTCFullYear at 1.
      pose proof (YearFromTime_calendar (y + 1) (d, m)) as Yd.
      cbn [fst snd] in Yd. rewrite Yd by (auto; lia).
      now rewrite Hys.
    + destruct (IH dms' y d m Hr' Hc') as (ds & Hds & Hys);
        [lia | assumption | ].
      rewrite Hds. eexists. split; [reflexivity | ].
      cbn [List.map]. unfold getUTCFullYear at 1.
      pose proof (YearFromTime_calendar y (d, m)) as Yd.
      cbn [fst snd] in Yd. rewrite Yd by (auto; lia).
      now rewrite Hys.
Qed.

Lemma resolveDays_years startDate labels dms :
  labels_read labels dms -> Forall calendar_day dms ->
  100 <= getUTCFullYear startDate ->
  exists dates,
    resolveDays startDate None labels = inr dates
    /\ List.map getUTCFullYear dates
       = resolved_years (getUTCFullYear startDate) None dms.
Proof.
  intros Hr Hc Hy. destruct Hr as [| l dm ls dms' Hl Hr'].
  - exists []. auto.
  - inversion Hc as [| ? ? Hdm Hc']; subst.
    cbn [resolveDays resolved_years].
    rewrite resolveDayDate_unfold, Hl. destruct dm as [d m].
    destruct (resolveDays_years_from startDate ls dms'
                (getUTCFullYear startDate) d m Hr' Hc' Hy Hdm)
      as (ds & Hds & Hys).
    unfold getUTCFullYear in *. rewrite Hds.
    eexists. split; [reflexivity | ].
    cbn [List.map]. unfold getUTCFullYear.
    pose proof (YearFromTime_calendar (YearFromTime startDate) (d, m)) as Yd.
    cbn [fst snd] in Yd. rewrite Yd by (auto; lia).
    now rewrite Hys.
Qed.

Lemma resolved_years_ascending dms : forall y p,
  ascending dms -> HdRel (fun a b => md_ltb b a = false) p dms ->
  resolved_years y (Some p) dms = repeat y (length dms).
Proof.
  induction dms as [| dm dms IH]; intros y p Hs Hh; [reflexivity | ].
  inversion Hs; subst. inversion Hh; subst.
  cbn [resolved_years length repeat].
  match goal with H : md_ltb dm p = false |- _ => rewrite H end.
  f_equal. now apply IH.
Qed.

Lemma resolved_years_boundary l1 : forall y prev l2 b,
  ascending (l1 ++ [b]) ->
  match prev with
  | Some p => md_ltb (hd b l1) p = false
  | None => True
  end ->
  ascending l2 ->
  match l2 with a :: _ => md_ltb a b = true | [] => True end ->
  resolved_years y prev ((l1 ++ [b]) ++ l2)
  = repeat y (length (l1 ++ [b])) ++ repeat (y + 1) (length l2).
Proof.
  induction l1 as [| c l1 IH]; intros y prev l2 b Hs Hp Hs2 Hd.
  - cbn [app resolved_years length repeat hd] in *.
    assert (E : match prev with
                | Some p => if md_ltb b p then y + 1 else y
                | None => y
                end = y).
    { destruct prev; [now rewrite Hp | reflexivity]. }
    rewrite E. f_equal.
    destruct l2 as [| a l2]; [reflexivity | ].
    cbn [resolved_years length repeat]. rewrite Hd. f_equal.
    inversion Hs2; subst. now apply resolved_years_ascending.
  - cbn [app resolved_years length repeat hd] in *.
    assert (E : match prev with
                | Some p => if md_ltb c p then y + 1 else y
                | None => y
                end = y).
    { destruct prev; [now rewrite Hp | reflexivity]. }
    rewrite E. f_equal.
    inversion Hs as [| ? ? Hs' Hh]; subst.
    apply IH; auto.
    destruct l1; inversion Hh; subst; assumption.
Qed.

(* --------------------------------------------------------------------- *)
(** ** The menu page extractor *)

Lemma parseMenuPage_rows_resolveDays dayNodes startDate rows :
  forall index previous dayMenus,
  parseMenuPage_rows dayNodes startDate rows index previous dayMenus =
  match resolveDays startDate previous
          (labels_from dayNodes index (length rows)) with
  | inl e => inl e
  | inr dates =>
      inr (dayMenus
           ++ build_days (labels_from dayNodes index (length rows)) dates rows)
  end.
Proof.
  induction rows as [| row rows IH]; intros index previous dayMenus.
  - simpl. now rewrite app_nil_r.
  - cbn [parseMenuPage_rows length]. unfold labels_from in *.
    cbn [seq List.map resolveDays].
    destruct (resolveDayDate _ startDate previous) as [e | d]; [reflexivity | ].
    rewrite IH.
    destruct (resolveDays startDate (Some d) _) as [e | ds]; [reflexivity | ].
    cbn [build_days]. now rewrite <- app_assoc.
Qed.

Lemma resolveDayDate_error label startDate previous :
  (exists e, resolveDayDate label startDate previous = inl e)
  <-> unparseable label.
Proof.
  rewrite resolveDayDate_unfold. unfold unparseable.
  destruct (label_day_month label) as [[d m] |].
  - split; [ | discriminate]. intros [e H].
    destruct previous; [destruct (_ <? _) | ]; discriminate.
  - split; eauto.
Qed.

Lemma resolveDays_error startDate labels : forall previous,
  (exists e, resolveDays startDate previous labels = inl e)
  <-> Exists unparseable labels.
Proof.
  induction labels as [| l ls IH]; intros previous.
  - simpl. split; [intros [e H]; discriminate | intros H; inversion H].
  - cbn [resolveDays]. rewrite Exists_cons.
    rewrite <- (resolveDayDate_error l startDate previous).
    destruct (resolveDayDate l startDate previous) as [e | d].
    + split; eauto.
    + rewrite <- (IH (Some d)).
      destruct (resolveDays startDate (Some d) ls) as [e | ds].
      * split; eauto.
      * split; [intros [e H]; discriminate | ].
        intros [[e H] | [e H]]; discriminate.
Qed.

Lemma parseMenuPage_block_throws now b st :
  throws (snd (parseMenuPage_block now b st))
  <-> Exists unparseable (block_labels b).
Proof.
  destruct st as [ws dm]. unfold parseMenuPage_block, throws. cbn [snd].
  rewrite parseMenuPage_rows_resolveDays. unfold block_labels.
  rewrite <- (resolveDays_error
                (match extractFirstDate (cleanText (block_h2 b)) with
                 | Some d => d | None => now end) _ None).
  destruct (resolveDays _ None _) as [e | ds].
  - split; eauto.
  - split; intros [e H]; discriminate.
Qed.

Lemma parseMenuPage_blocks_throws now blocks : forall i st,
  throws (snd (parseMenuPage_blocks now i blocks st))
  <-> Exists unparseable (flat_map block_labels blocks).
Proof.
  induction blocks as [| b bs IH]; intros i st.
  - simpl. split; [intros [e H]; discriminate | intros H; inversion H].
  - cbn [parseMenuPage_blocks flat_map]. rewrite Exists_app.
    rewrite <- (parseMenuPage_block_throws (now i) b st).
    destruct (parseMenuPage_block (now i) b st) as [ws [e | dm]] eqn:E.
    + cbn [snd]. unfold throws. split; eauto.
    + rewrite <- (IH (S i) (ws, dm)). cbn [snd]. unfold throws at 2.
      split; [auto | ]. intros [[e H] | H]; [discriminate | exact H].
Qed.

Lemma parseMenuPage_throws now page :
  throws (snd (parseMenuPage now page))
  <-> page_blocks page = []
      \/ Exists unparseable (flat_map block_labels (page_blocks page)).
Proof.
  unfold parseMenuPage.
  destruct (page_blocks page) as [| b bs] eqn:Eb.
  - cbn [snd]. unfold throws. split; eauto.
  - rewrite <- (parseMenuPage_blocks_throws now (b :: bs) 0 ([], [])).
    destruct (parseMenuPage_blocks now 0 (b :: bs) ([], [])) as [ws [e | dm]].
    + cbn [snd]. unfold throws. split; eauto.
    + cbn [snd]. unfold throws. split.
      * intros [e H]; discriminate.
      * intros [H | [e H]]; discriminate.
Qed.

Lemma cleanText_empty : cleanText [] = [].
Proof. reflexivity. Qed.

Lemma unparseable_empty : unparseable [].
Proof. reflexivity. Qed.

(** More dish rows than day elements: the row after the last day element
    has the empty label, and the page is lost. *)
Lemma parseMenuPage_fewer_days_throws now page b :
  In b (page_blocks page) ->
  (length (block_days b) < length (block_rows b))%nat ->
  throws (snd (parseMenuPage now page)).
Proof.
  intros Hin Hlt. apply parseMenuPage_throws. right.
  apply List.Exists_exists. exists []. split; [ | apply unparseable_empty].
  apply in_flat_map. exists b. split; [exact Hin | ].
  unfold block_labels, labels_from. apply in_map_iff.
  exists (length (block_days b)). split.
  - rewrite nth_overflow by lia. apply cleanText_empty.
  - apply in_seq. lia.
Qed.

(* --------------------------------------------------------------------- *)
(** ** Prices *)

Lemma rep_digits12 {R} i rest c (k : cont R) :
  rep_greedy CDigit 1 (Some 2%nat) i rest c k =
  match rest with
  | c1 :: rest1 =>
      if isDigit c1 then
        match rest1 with
        | c2 :: rest2 =>
            if isDigit c2 then
              match k (S (S i)) rest2 c with
              | Some r => Some r
              | None => k (S i) rest1 c
              end
            else k (S i) rest1 c
        | [] => k (S i) [] c
        end
      else None
  | [] => None
  end.
Proof.
  destruct rest as [| c1 [| c2 rest2]]; simpl; try reflexivity.
  - destruct (isDigit c1); [ | reflexivity]. now destruct (k _ _ _).
  - destruct (isDigit c1); [ | reflexivity].
    destruct (isDigit c2).
    + destruct rest2; simpl.
      * destruct (k (S (S i)) [] c); [reflexivity | ].
        now destruct (k (S i) _ _).
      * destruct (k (S (S i)) _ c); [reflexivity | ].
        now destruct (k (S i) _ _).
    + now destruct (k _ _ _).
Qed.

(** The rest of the price pattern after its first digits. *)
Lemma price_tail_match i j rest m :
  rmatch (RSeq (rchar 44) (RRep CDigit 2 (Some 2%nat) true)) j rest []
    (fun j' _ c' => Some (MkMatch i j' ((1%nat, (i, j')) :: c'))) = Some m ->
  exists c3 c4 rest',
    rest = 44%N :: c3 :: c4 :: rest'
    /\ isDigit c3 = true /\ isDigit c4 = true
    /\ m = MkMatch i (3 + j) [(1%nat, (i, (3 + j)%nat))].
Proof.
  cbn [rmatch]. rewrite rchar_match.
  destruct rest as [| p rest]; [discriminate | ].
  destruct (N.eqb_spec p 44); [subst p | discriminate].
  rewrite rep_digits2.
  destruct rest as [| c3 [| c4 rest]]; try discriminate.
  destruct (isDigit c3) eqn:D3; [ | discriminate].
  destruct (isDigit c4) eqn:D4; [ | discriminate].
  cbn [andb]. intros E. injection E as <-.
  exists c3, c4, rest. auto.
Qed.

Lemma match_here_price i rest m :
  match_here re_price i rest = Some m ->
  exists n, (3 < n <= length rest)%nat
    /\ amount_text (firstn n rest)
    /\ m = MkMatch i (n + i) [(1%nat, (i, (n + i)%nat))].
Proof.
  unfold match_here, re_price, rseq, rdigits.
  cbn [rmatch]. rewrite rep_digits12. intros H.
  destruct rest as [| c1 rest1]; [discriminate | ].
  destruct (isDigit c1) eqn:D1; [ | discriminate].
  assert (One : forall m',
    rmatch (RSeq (rchar 44) (RRep CDigit 2 (Some 2%nat) true)) (S i) rest1 []
      (fun j' _ c' => Some (MkMatch i j' ((1%nat, (i, j')) :: c'))) = Some m' ->
    exists n, (3 < n <= length (c1 :: rest1))%nat
      /\ amount_text (firstn n (c1 :: rest1))
      /\ m' = MkMatch i (n + i) [(1%nat, (i, (n + i)%nat))]).
  { intros m' E. apply price_tail_match in E.
    destruct E as (c3 & c4 & rest' & -> & D3 & D4 & ->).
    exists 4%nat. split; [simpl; lia | ]. split; [ | reflexivity].
    exists [c1], c3, c4. simpl. rewrite D1. repeat split; auto. }
  destruct rest1 as [| c2 rest2]; [now apply One | ].
  destruct (isDigit c2) eqn:D2; [ | now apply One].
  match type of H with
  | match ?a with Some _ => _ | None => _ end = _ => destruct a eqn:E
  end; [ | now apply One].
  injection H as ->. apply price_tail_match in E.
  destruct E as (c3 & c4 & rest' & -> & D3 & D4 & ->).
  exists 5%nat. split; [simpl; lia | ]. split; [ | reflexivity].
  exists [c1; c2], c3, c4. simpl. rewrite D1, D2. repeat split; auto.
Qed.

(** *** All matches of a pattern *)

Lemma matchAll_from_spec r s fuel : forall i,
  Forall (fun m => (i <= m_start m)%nat /\ match_of r s m)
         (matchAll_from fuel r s i)
  /\ StronglySorted (fun a b => (m_end a <= m_start b)%nat)
                    (matchAll_from fuel r s i).
Proof.
  induction fuel as [| fuel IH]; intros i; cbn [matchAll_from].
  - split; constructor.
  - destruct (Nat.ltb_spec (length s) i); [split; constructor | ].
    destruct (search r i (skipn i s)) as [m |] eqn:E; [ | split; constructor].
    apply search_spec in E; [ | assumption].
    destruct E as (E1 & E2 & E3 & _).
    set (next := if (m_end m =? m_start m)%nat then S (m_end m) else m_end m).
    destruct (IH next) as [F Sd].
    split.
    + constructor; [split; [assumption | split; assumption] | ].
      eapply List.Forall_impl; [ | exact F]. cbn beta.
      intros m' [L M]. split; [ | exact M].
      pose proof (match_here_bounds _ _ _ _ E3) as (_ & B & _).
      unfold next in L. destruct (m_end m =? m_start m)%nat; lia.
    + constructor; [exact Sd | ].
      eapply List.Forall_impl; [ | exact F]. cbn beta.
      intros m' [L _]. unfold next in L.
      destruct (m_end m =? m_start m)%nat; lia.
Qed.

Lemma matchAll_spec r s :
  Forall (match_of r s) (matchAll r s)
  /\ StronglySorted (fun a b => (m_end a <= m_start b)%nat) (matchAll r s).
Proof.
  unfold matchAll. destruct (matchAll_from_spec r s (S (length s)) 0) as [F Sd].
  split; [ | exact Sd]. eapply List.Forall_impl; [ | exact F].
  cbn beta. intros m [_ M]. exact M.
Qed.

(** *** Amounts *)

Lemma digit_neq c x :
  isDigit c = true -> (x < 48 \/ 57 < x)%N -> (c =? x)%N = false.
Proof.
  unfold isDigit. rewrite andb_true_iff, !N.leb_le. intros [A B] C.
  apply N.eqb_neq. lia.
Qed.

Lemma search_dot_none s : forall i,
  Forall (fun c => c <> 46%N) s -> search re_dot i s = None.
Proof.
  induction s as [| x s IH]; intros i F; [reflexivity | ].
  inversion F as [| ? ? Hx F']; subst.
  cbn [search]. unfold match_here, re_dot. rewrite rchar_match.
  apply N.eqb_neq in Hx. rewrite Hx. now apply IH.
Qed.

Lemma replace_all_dot_none s :
  Forall (fun c => c <> 46%N) s -> replace_all re_dot [] s = s.
Proof.
  intros F. unfold replace_all, matchAll. cbn [matchAll_from].
  destruct (Nat.ltb_spec (length s) 0); [lia | ].
  cbn [skipn]. rewrite search_dot_none by assumption. reflexivity.
Qed.

Lemma digit_value_range c : isDigit c = true -> 0 <= digit_value c <= 9.
Proof.
  unfold isDigit, digit_value. rewrite andb_true_iff, !N.leb_le. lia.
Qed.

(** An amount is a decimal number with two fraction digits. *)
Lemma parseLocaleNumber_amount s :
  amount_text s -> exists mant, parseLocaleNumber s = NumDec mant 2.
Proof.
  intros (ds & c3 & c4 & -> & Hlen & Hds & D3 & D4).
  unfold parseLocaleNumber.
  assert (forall c, isDigit c = true -> c <> 46%N /\ c <> 44%N).
  { intros c D. split; apply N.eqb_neq, digit_neq; auto; lia. }
  destruct ds as [| c1 [| c2 [| ? ?]]]; simpl in Hlen; try lia;
    simpl in Hds; rewrite ?andb_true_iff in Hds.
  - destruct Hds as [D1 _].
    rewrite replace_all_dot_none
      by (cbn [app];
          repeat (apply List.Forall_cons;
                  [first [apply H; assumption | discriminate] | ]);
          apply List.Forall_nil).
    cbn [app replace_first_char].
    rewrite (digit_neq c1 44) by (auto; lia). rewrite N.eqb_refl.
    unfold Number_decimal. cbn [app indexOf_char js List.map list_ascii_of_string].
    change (N_of_ascii ".") with 46%N.
    rewrite (digit_neq c1 46) by (auto; lia). rewrite N.eqb_refl.
    cbn [option_map firstn skipn forallb length]. rewrite D1, D3, D4.
    eexists. reflexivity.
  - destruct Hds as [D1 [D2 _]].
    rewrite replace_all_dot_none
      by (cbn [app];
          repeat (apply List.Forall_cons;
                  [first [apply H; assumption | discriminate] | ]);
          apply List.Forall_nil).
    cbn [app replace_first_char].
    rewrite (digit_neq c1 44), (digit_neq c2 44) by (auto; lia).
    rewrite N.eqb_refl.
    unfold Number_decimal. cbn [app indexOf_char js List.map list_ascii_of_string].
    change (N_of_ascii ".") with 46%N.
    rewrite (digit_neq c1 46), (digit_neq c2 46) by (auto; lia).
    rewrite N.eqb_refl.
    cbn [option_map firstn skipn forallb length]. rewrite D1, D2, D3, D4.
    eexists. reflexivity.
Qed.

Lemma group1_price s m :
  match_of re_price s m -> amount_text (group s m 1).
Proof.
  intros [L M]. apply match_here_price in M.
  destruct M as (n & Hn & A & Em).
  assert (Hc : m_caps m = [(1%nat, (m_start m, (n + m_start m)%nat))])
    by (rewrite Em; reflexivity).
  unfold group. rewrite Hc. cbn [cap_lookup Nat.eqb]. unfold slice.
  replace (n + m_start m - m_start m)%nat with n by lia. exact A.
Qed.

(* --------------------------------------------------------------------- *)
(** ** Objects *)

Lemma jsstring_eqb_eq a b : jsstring_eqb a b = true <-> a = b.
Proof. unfold jsstring_eqb. apply bool_decide_eq_true. Qed.

Lemma jsstring_eqb_refl a : jsstring_eqb a a = true.
Proof. now apply jsstring_eqb_eq. Qed.

Lemma jsstring_eqb_neq a b : jsstring_eqb a b = false <-> a <> b.
Proof. unfold jsstring_eqb. apply bool_decide_eq_false. Qed.

Section ObjFacts.
Context {V : Type}.
Implicit Types (o : obj V) (k : jsstring) (v : V).

Lemma obj_get_In k o v : obj_get k o = Some v -> In (k, v) o.
Proof.
  induction o as [| [k' v'] o IH]; simpl; [discriminate | ].
  destruct (jsstring_eqb k' k) eqn:E.
  - apply jsstring_eqb_eq in E. intros H. injection H as ->. subst. auto.
  - auto.
Qed.

Lemma obj_get_None k o : obj_get k o = None <-> ~ In k (obj_keys o).
Proof.
  induction o as [| [k' v'] o IH]; simpl; [tauto | ].
  destruct (jsstring_eqb k' k) eqn:E.
  - apply jsstring_eqb_eq in E. split; [discriminate | tauto].
  - apply jsstring_eqb_neq in E. rewrite IH. tauto.
Qed.

Lemma obj_has_In k o : obj_has k o = true <-> In k (obj_keys o).
Proof.
  unfold obj_has.
  induction o as [| [k' v'] o IH]; simpl.
  - split; [discriminate | tauto].
  - destruct (jsstring_eqb k' k) eqn:E.
    + apply jsstring_eqb_eq in E. tauto.
    + apply jsstring_eqb_neq in E. rewrite IH. tauto.
Qed.

Lemma obj_has_false k o : obj_has k o = false <-> ~ In k (obj_keys o).
Proof.
  rewrite <- obj_has_In. destruct (obj_has k o); split; auto; try discriminate.
  intros H. now contradiction H.
Qed.

Lemma obj_get_NoDup k v o :
  List.NoDup (obj_keys o) -> In (k, v) o -> obj_get k o = Some v.
Proof.
  induction o as [| [k' v'] o IH]; simpl; [tauto | ].
  intros Hn [E | I].
  - injection E as -> ->. now rewrite jsstring_eqb_refl.
  - inversion Hn as [| ? ? Hk Hn']; subst.
    destruct (jsstring_eqb k' k) eqn:E; [ | auto].
    apply jsstring_eqb_eq in E. subst. contradiction Hk.
    change k with (fst (k, v)). now apply in_map.
Qed.

Lemma obj_keys_replace k v o : obj_keys (obj_replace k v o) = obj_keys o.
Proof.
  induction o as [| [k' v'] o IH]; simpl; [reflexivity | ].
  destruct (jsstring_eqb k' k); simpl; [reflexivity | now rewrite IH].
Qed.

Lemma obj_get_replace k v o k2 :
  obj_get k2 (obj_replace k v o) =
  if obj_has k o && jsstring_eqb k k2 then Some v else obj_get k2 o.
Proof.
  unfold obj_has.
  induction o as [| [k' v'] o IH]; simpl; [reflexivity | ].
  destruct (jsstring_eqb k' k) eqn:E; simpl.
  - apply jsstring_eqb_eq in E. subst k'.
    now destruct (jsstring_eqb k k2).
  - rewrite IH. destruct (jsstring_eqb k' k2) eqn:E2; [ | reflexivity].
    apply jsstring_eqb_eq in E2. subst k'.
    assert (N : jsstring_eqb k k2 = false)
      by (apply jsstring_eqb_neq; apply jsstring_eqb_neq in E; congruence).
    rewrite N. now rewrite andb_false_r.
Qed.

Lemma obj_keys_insert_index k v o :
  Permutation (obj_keys (obj_insert_index k v o)) (k :: obj_keys o).
Proof.
  induction o as [| [k' v'] o IH]; simpl; [reflexivity | ].
  destruct (_ && _); simpl; [ | reflexivity].
  rewrite IH. apply perm_swap.
Qed.

Lemma obj_get_insert_index k v o k2 :
  obj_has k o = false ->
  obj_get k2 (obj_insert_index k v o) =
  if jsstring_eqb k k2 then Some v else obj_get k2 o.
Proof.
  unfold obj_has.
  induction o as [| [k' v'] o IH]; simpl; intros Hh; [reflexivity | ].
  destruct (jsstring_eqb k' k) eqn:E; [discriminate | ].
  destruct (_ && _); simpl; [ | reflexivity].
  rewrite IH by exact Hh.
  destruct (jsstring_eqb k' k2) eqn:E2; [ | reflexivity].
  apply jsstring_eqb_eq in E2. subst k'.
  assert (N : jsstring_eqb k k2 = false)
    by (apply jsstring_eqb_neq; apply jsstring_eqb_neq in E; congruence).
  now rewrite N.
Qed.

Lemma obj_get_app k o1 o2 :
  obj_get k (o1 ++ o2) =
  match obj_get k o1 with Some v => Some v | None => obj_get k o2 end.
Proof.
  induction o1 as [| [k' v'] o1 IH]; simpl; [reflexivity | ].
  now destruct (jsstring_eqb k' k).
Qed.

(** Reading a property after [o[k] = v]. *)
Lemma obj_get_set k v o k2 :
  obj_get k2 (obj_set k v o) =
  if jsstring_eqb k k2 then Some v else obj_get k2 o.
Proof.
  unfold obj_set. destruct (obj_has k o) eqn:Hh.
  - rewrite obj_get_replace, Hh. reflexivity.
  - destruct (isArrayIndex k).
    + now rewrite obj_get_insert_index.
    + rewrite obj_get_app. simpl.
      destruct (jsstring_eqb k k2) eqn:E.
      * apply jsstring_eqb_eq in E. subst. unfold obj_has in Hh.
        now destruct (obj_get k2 o).
      * now destruct (obj_get k2 o).
Qed.

(** The property names after [o[k] = v], whatever their order. *)
Lemma obj_keys_set_perm k v o :
  Permutation (obj_keys (obj_set k v o))
              (if obj_has k o then obj_keys o else k :: obj_keys o).
Proof.
  unfold obj_set. destruct (obj_has k o).
  - now rewrite obj_keys_replace.
  - destruct (isArrayIndex k).
    + apply obj_keys_insert_index.
    + unfold obj_keys. rewrite map_app. simpl.
      symmetry. apply Permutation_cons_append.
Qed.

Lemma obj_set_NoDup k v o :
  List.NoDup (obj_keys o) -> List.NoDup (obj_keys (obj_set k v o)).
Proof.
  intros Hn. eapply Permutation.Permutation_NoDup.
  - symmetry. apply obj_keys_set_perm.
  - destruct (obj_has k o) eqn:E; [exact Hn | ].
    constructor; [ | exact Hn]. now apply obj_has_false.
Qed.


Lemma obj_set_has k v o k2 :
  obj_has k2 (obj_set k v o) = jsstring_eqb k k2 || obj_has k2 o.
Proof.
  unfold obj_has at 1. rewrite obj_get_set.
  destruct (jsstring_eqb k k2); [reflexivity | ]. reflexivity.
Qed.

End ObjFacts.

(* --------------------------------------------------------------------- *)
(** ** The legend parser *)

Lemma category_patterns_minlen r :
  In r category_patterns -> (1 <= minlen r)%nat.
Proof.
  intros [<- | [<- | [<- | []]]]; simpl; lia.
Qed.

Lemma exec_progress re s m re' :
  (1 <= minlen (source re))%nat ->
  exec re s = (Some m, re') ->
  source re' = source re
  /\ (lastIndex re < lastIndex re' <= length s)%nat.
Proof.
  intros Hmin. unfold exec.
  destruct (Nat.ltb_spec (length s) (lastIndex re)) as [Hlt | Hle];
    [discriminate | ].
  destruct (search (source re) (lastIndex re) (skipn (lastIndex re) s))
    as [m' |] eqn:E; [ | discriminate].
  intros H. injection H as -> <-. simpl.
  apply search_spec in E; [ | assumption].
  destruct E as (E1 & E2 & E3 & _).
  apply match_here_bounds in E3. destruct E3 as (_ & B1 & B2).
  rewrite length_skipn in B2. split; [reflexivity | lia].
Qed.

(** The loop ends for a pattern that cannot match the empty string. *)
Lemma parseLegendEntries_loop_total fuel : forall regex body entries,
  (1 <= minlen (source regex))%nat ->
  (lastIndex regex <= length body)%nat ->
  (length body - lastIndex regex + 2 <= fuel)%nat ->
  exists result,
    parseLegendEntries_loop fuel regex body entries = Some result.
Proof.
  induction fuel as [| fuel IH]; intros regex body entries Hmin Hli Hf;
    [lia | ].
  cbn [parseLegendEntries_loop].
  destruct (exec regex body) as [[m |] regex'] eqn:E; [ | eauto].
  destruct (exec_progress _ _ _ _ Hmin E) as (Hs & Hp).
  apply IH; [now rewrite Hs | lia | lia].
Qed.

Lemma parseLegendEntries_loop_NoDup fuel : forall regex body entries result,
  List.NoDup (obj_keys entries) ->
  parseLegendEntries_loop fuel regex body entries = Some result ->
  List.NoDup (obj_keys result).
Proof.
  induction fuel as [| fuel IH]; intros regex body entries result Hn;
    cbn [parseLegendEntries_loop]; [discriminate | ].
  destruct (exec regex body) as [[m |] regex'].
  - apply IH. destruct (nonEmpty _); [now apply obj_set_NoDup | exact Hn].
  - intros H. injection H as <-. exact Hn.
Qed.

(** The parse does not depend on the state of the caller's pattern
    object. *)
Lemma parseLegendEntries_lastIndex text r i j :
  parseLegendEntries text (MkRegExp r i)
  = parseLegendEntries text (MkRegExp r j).
Proof. reflexivity. Qed.

Lemma parseLegendEntries_total text pattern :
  (1 <= minlen (source pattern))%nat ->
  exists entries,
    parseLegendEntries text pattern = Some entries
    /\ List.NoDup (obj_keys entries).
Proof.
  intros Hmin. unfold parseLegendEntries.
  set (body := match indexOf_char 58 text with
               | Some i => slice_from (S i) text
               | None => text
               end).
  destruct (parseLegendEntries_loop_total (length body + 2)
              (RegExp_new pattern) body obj_empty) as [result Hr];
    [exact Hmin | simpl; lia | simpl; lia | ].
  exists result. split; [exact Hr | ].
  eapply parseLegendEntries_loop_NoDup; [ | exact Hr]. constructor.
Qed.

(* --------------------------------------------------------------------- *)
(** ** Orders and sorting *)

(** *** The order of strings *)

Lemma str_compare_refl a : str_compare a a = Eq.
Proof. induction a as [| x a IH]; simpl; [ | rewrite N.compare_refl]; auto. Qed.

Lemma str_compare_eq a : forall b, str_compare a b = Eq -> a = b.
Proof.
  induction a as [| x a IH]; intros [| y b]; simpl; try discriminate; auto.
  destruct (N.compare_spec x y) as [He | Hl | Hg]; try discriminate.
  intros H. subst. f_equal. auto.
Qed.

Lemma str_compare_antisym a : forall b,
  str_compare b a = CompOpp (str_compare a b).
Proof.
  induction a as [| x a IH]; intros [| y b]; simpl; auto.
  rewrite (N.compare_antisym x y).
  destruct (N.compare x y); simpl; auto.
Qed.

Lemma str_compare_lt_trans a : forall b c,
  str_compare a b = Lt -> str_compare b c = Lt -> str_compare a c = Lt.
Proof.
  induction a as [| x a IH]; intros [| y b] [| z c]; simpl; try discriminate;
    auto.
  destruct (N.compare_spec x y) as [E1 | L1 | G1],
           (N.compare_spec y z) as [E2 | L2 | G2]; try discriminate;
    subst; intros H1 H2.
  - rewrite N.compare_refl. eauto.
  - now apply N.compare_lt_iff in L2 as ->.
  - now apply N.compare_lt_iff in L1 as ->.
  - assert (L : (x < z)%N) by lia. now apply N.compare_lt_iff in L as ->.
Qed.

Lemma str_leb_refl a : str_leb a a = true.
Proof. unfold str_leb. now rewrite str_compare_refl. Qed.

Lemma str_leb_total a b : str_leb a b = true \/ str_leb b a = true.
Proof.
  unfold str_leb. rewrite (str_compare_antisym a b).
  destruct (str_compare a b); simpl; auto.
Qed.

Lemma str_leb_trans a b c :
  str_leb a b = true -> str_leb b c = true -> str_leb a c = true.
Proof.
  unfold str_leb.
  destruct (str_compare a b) eqn:E1; try discriminate;
    destruct (str_compare b c) eqn:E2; try discriminate; intros _ _.
  - apply str_compare_eq in E1, E2. subst. now rewrite str_compare_refl.
  - apply str_compare_eq in E1. subst. now rewrite E2.
  - apply str_compare_eq in E2. subst. now rewrite E1.
  - now rewrite (str_compare_lt_trans _ _ _ E1 E2).
Qed.

Lemma str_leb_antisym a b :
  str_leb a b = true -> str_leb b a = true -> a = b.
Proof.
  unfold str_leb. rewrite (str_compare_antisym a b).
  destruct (str_compare a b) eqn:E; simpl; try discriminate.
  intros _ _. now apply str_compare_eq.
Qed.

Lemma str_ltb_leb a b : str_ltb a b = true -> str_leb a b = true.
Proof. unfold str_ltb, str_leb. now destruct (str_compare a b). Qed.

Lemma str_ltb_false a b : str_ltb a b = false -> str_leb b a = true.
Proof.
  unfold str_ltb, str_leb. rewrite (str_compare_antisym a b).
  now destruct (str_compare a b).
Qed.

Lemma str_gtb_leb a b : str_gtb a b = true -> str_leb b a = true.
Proof.
  unfold str_gtb, str_leb. rewrite (str_compare_antisym a b).
  now destruct (str_compare a b).
Qed.

Lemma str_gtb_false a b : str_gtb a b = false -> str_leb a b = true.
Proof. unfold str_gtb, str_leb. now destruct (str_compare a b). Qed.


(** *** Stable sorting *)

Section SortFacts.
Context {A : Type} (leb : A -> A -> bool).
Local Abbreviation le := (fun a b : A => leb a b = true).

Lemma insert_sorted_perm x l : Permutation (insert_sorted leb x l) (x :: l).
Proof.
  induction l as [| y l IH]; simpl; [reflexivity | ].
  destruct (leb y x); [ | reflexivity].
  rewrite IH. apply perm_swap.
Qed.

Lemma insert_sorted_HdRel a x l :
  le a x -> HdRel le a l -> HdRel le a (insert_sorted leb x l).
Proof.
  destruct l as [| y l]; simpl; intros Hx Hh; [auto | ].
  destruct (leb y x); constructor; auto. now inversion Hh.
Qed.

Lemma stable_sort_acc_perm l : forall acc,
  Permutation (fold_left (fun acc x => insert_sorted leb x acc) l acc)
              (acc ++ l).
Proof.
  induction l as [| x l IH]; intros acc; simpl.
  - now rewrite app_nil_r.
  - rewrite IH, insert_sorted_perm. apply Permutation_middle.
Qed.

Lemma stable_sort_perm l : Permutation (stable_sort leb l) l.
Proof. apply (stable_sort_acc_perm l []). Qed.

Hypothesis leb_total : forall a b, leb a b = true \/ leb b a = true.

Lemma insert_sorted_Sorted x l :
  Sorted le l -> Sorted le (insert_sorted leb x l).
Proof.
  induction l as [| y l IH]; simpl; intros Hs; [auto | ].
  inversion Hs as [| ? ? Hs' Hh]; subst.
  destruct (leb y x) eqn:E.
  - constructor; [auto | ]. now apply insert_sorted_HdRel.
  - constructor; [exact Hs | ]. constructor.
    destruct (leb_total x y) as [L | L]; [exact L | congruence].
Qed.

Lemma stable_sort_acc_Sorted l : forall acc,
  Sorted le acc ->
  Sorted le (fold_left (fun acc x => insert_sorted leb x acc) l acc).
Proof.
  induction l as [| x l IH]; intros acc Hs; simpl; [exact Hs | ].
  apply IH. now apply insert_sorted_Sorted.
Qed.

Lemma stable_sort_Sorted l : Sorted le (stable_sort leb l).
Proof. apply stable_sort_acc_Sorted. constructor. Qed.
End SortFacts.

(* --------------------------------------------------------------------- *)
(** ** Week keys *)

(** *** Week keys name one week each *)

Lemma unjs_js s : unjs (js s) = s.
Proof.
  unfold unjs, js. rewrite List.map_map.
  rewrite (List.map_ext _ (fun a => a)) by (intros a; apply ascii_N_embedding).
  rewrite List.map_id. apply string_of_list_ascii_of_string.
Qed.

Lemma dec_value_String_of_Z z : dec_value (String_of_Z z) = Some z.
Proof.
  unfold dec_value, String_of_Z. rewrite unjs_js, NilEmpty.isi. simpl.
  now rewrite DecimalZ.of_to.
Qed.

Lemma String_of_Z_inj y y' : String_of_Z y = String_of_Z y' -> y = y'.
Proof.
  intros H. apply (f_equal dec_value) in H.
  rewrite !dec_value_String_of_Z in H. congruence.
Qed.

Lemma js_length s : length (js s) = String.length s.
Proof.
  unfold js. rewrite length_map. induction s; simpl; auto.
Qed.

Lemma dec_value_pad z : dec_value (padStart0 2 (String_of_Z z)) = Some z.
Proof.
  pose proof (dec_value_String_of_Z z) as D.
  unfold padStart0, String_of_Z in *. rewrite js_length.
  destruct (NilEmpty.string_of_int (Z.to_int z)) as [| a [| b s]] eqn:E.
  - unfold dec_value in D. rewrite unjs_js in D. simpl in D.
    injection D as <-. reflexivity.
  - unfold dec_value in *. rewrite unjs_js in D.
    change (repeat 48%N (2 - String.length (String a "")) ++ js (String a ""))
      with (js (String "0" (String a ""))).
    rewrite unjs_js. unfold NilEmpty.int_of_string in *.
    destruct (Ascii.eqb_spec a "-") as [-> | Na].
    + simpl in D. injection D as <-. simpl in E. discriminate.
    + change (Ascii.eqb "0" "-") with false. cbn iota.
      cbn [NilEmpty.uint_of_string] in *.
      destruct (uint_of_char a (Some Nil)) as [u |]; [ | discriminate].
      exact D.
  - exact D.
Qed.

Lemma pad_String_of_Z_inj w w' :
  padStart0 2 (String_of_Z w) = padStart0 2 (String_of_Z w') -> w = w'.
Proof.
  intros H. apply (f_equal dec_value) in H.
  rewrite !dec_value_pad in H. congruence.
Qed.

Lemma string_of_uint_chars d :
  Forall (fun c => c <> 87%N) (js (NilEmpty.string_of_uint d)).
Proof.
  induction d; simpl; constructor; auto; discriminate.
Qed.

Lemma String_of_Z_chars z : Forall (fun c => c <> 87%N) (String_of_Z z).
Proof.
  unfold String_of_Z. destruct (Z.to_int z); simpl.
  - apply string_of_uint_chars.
  - constructor; [discriminate | apply string_of_uint_chars].
Qed.

Lemma app_W_inj (a : jsstring) : forall a' b b',
  Forall (fun c => c <> 87%N) a -> Forall (fun c => c <> 87%N) a' ->
  a ++ 87%N :: b = a' ++ 87%N :: b' -> a = a' /\ b = b'.
Proof.
  induction a as [| x a IH]; intros [| x' a'] b b' F F' H; simpl in H.
  - injection H as ->. auto.
  - injection H as <- _. inversion F'; subst. congruence.
  - injection H as -> _. inversion F; subst. congruence.
  - injection H as -> H. inversion F; inversion F'; subst.
    destruct (IH a' b b') as [-> ->]; auto.
Qed.

Lemma weekKey_shape y w :
  weekKey y w = (String_of_Z y ++ [45%N]) ++ 87%N :: padStart0 2 (String_of_Z w).
Proof. unfold weekKey. now rewrite <- app_assoc. Qed.

Lemma weekKey_inj y w y' w' :
  weekKey y w = weekKey y' w' -> y = y' /\ w = w'.
Proof.
  rewrite !weekKey_shape.
  intros H. apply app_W_inj in H.
  - destruct H as [H1 H2]. apply app_inv_tail in H1.
    split; [now apply String_of_Z_inj | now apply pad_String_of_Z_inj].
  - apply Forall_app. split; [apply String_of_Z_chars | ].
    constructor; [discriminate | constructor].
  - apply Forall_app. split; [apply String_of_Z_chars | ].
    constructor; [discriminate | constructor].
Qed.

(* --------------------------------------------------------------------- *)
(** ** The week partitioner *)

(** *** Week partitions *)

Lemma in_week_true y w day :
  in_week y w day = true <-> week_of day = Some (y, w).
Proof.
  unfold in_week. destruct (week_of day) as [[y' w'] |].
  - rewrite andb_true_iff, !Z.eqb_eq. split.
    + intros [-> ->]. reflexivity.
    + intros H. injection H as -> ->. auto.
  - split; discriminate.
Qed.

Lemma obj_replace_split {V} k (v p : V) o :
  obj_get k o = Some p ->
  exists l1 l2, o = l1 ++ (k, p) :: l2
    /\ ~ In k (obj_keys l1)
    /\ obj_replace k v o = l1 ++ (k, v) :: l2.
Proof.
  induction o as [| [k' v'] o IH]; simpl; [discriminate | ].
  destruct (jsstring_eqb k' k) eqn:E.
  - apply jsstring_eqb_eq in E. subst. intros H. injection H as ->.
    exists [], o. simpl. auto.
  - apply jsstring_eqb_neq in E. intros H.
    destruct (IH H) as (l1 & l2 & -> & Hn & Hr).
    exists ((k', v') :: l1), l2. simpl. rewrite Hr.
    repeat split; auto. intros [C | C]; auto.
Qed.

Lemma obj_replace_absent {V} k (v : V) o :
  ~ In k (obj_keys o) -> obj_replace k v o = o.
Proof.
  induction o as [| [k' v'] o IH]; simpl; [reflexivity | ].
  intros Hn. destruct (jsstring_eqb k' k) eqn:E.
  - apply jsstring_eqb_eq in E. tauto.
  - rewrite IH; tauto.
Qed.

(** The two ways a round of the loop changes the Map. *)
Lemma groupByWeek_step_cases byWeek day byWeek' :
  groupByWeek_step byWeek day = Some byWeek' ->
  exists y w, week_of day = Some (y, w) /\
    ((~ In (weekKey y w) (map_keys byWeek)
      /\ byWeek' = byWeek ++ [(weekKey y w,
            partition_push day {| isoYear := y; isoWeekNo := w;
                                  from := date day; to := date day;
                                  wp_days := [] |})])
     \/ (exists p, obj_get (weekKey y w) byWeek = Some p
           /\ byWeek' = obj_replace (weekKey y w) (partition_push day p) byWeek)).
Proof.
  unfold groupByWeek_step, week_of.
  destruct (parseIsoDay (date day)) as [d |]; [ | discriminate].
  destruct (isoWeek d) as [y w] eqn:Ew. simpl option_map.
  intros H. injection H as <-. exists y, w. split; [now rewrite Ew | ].
  unfold map_has, map_get, map_set.
  destruct (obj_has (weekKey y w) byWeek) eqn:Hh; cbn [negb].
  - right. rewrite Hh. unfold obj_has in Hh.
    destruct (obj_get (weekKey y w) byWeek) as [p |] eqn:G; [ | discriminate].
    exists p. auto.
  - left. apply obj_has_false in Hh. split; [exact Hh | ].
    set (fresh := {| isoYear := y; isoWeekNo := w; from := date day;
                     to := date day; wp_days := [] |}).
    assert (G : obj_get (weekKey y w) (byWeek ++ [(weekKey y w, fresh)])
                = Some fresh).
    { rewrite obj_get_app. apply obj_get_None in Hh. rewrite Hh. simpl.
      now rewrite jsstring_eqb_refl. }
    rewrite G.
    assert (Hh2 : obj_has (weekKey y w) (byWeek ++ [(weekKey y w, fresh)])
                  = true) by (unfold obj_has; now rewrite G).
    rewrite Hh2.
    destruct (obj_replace_split (weekKey y w) (partition_push day fresh) fresh
                _ G) as (l1 & l2 & E & Hn & ->).
    assert (l1 = byWeek /\ l2 = []) as [-> ->]; [ | reflexivity].
    { clear - E Hn Hh. revert l1 E Hn.
      induction byWeek as [| [k' v'] o IH]; intros l1 E Hn.
      - destruct l1 as [| a l1]; simpl in E.
        + injection E as <-. auto.
        + injection E as <- E. destruct l1; discriminate.
      - destruct l1 as [| a l1]; simpl in E.
        + injection E as -> _ _. simpl in Hh. tauto.
        + injection E as <- E. simpl in Hh, Hn.
          destruct (IH ltac:(tauto) l1 E ltac:(tauto)) as [-> ->]. auto. }
Qed.

Lemma partition_push_ok processed k p day :
  part_ok processed k p ->
  in_week (isoYear p) (isoWeekNo p) day = true ->
  part_ok (processed ++ [day]) k (partition_push day p).
Proof.
  intros [Hk Hd Hne Hfl Hfi Htg Hti] Hin.
  constructor; cbn [partition_push isoYear isoWeekNo wp_days from to].
  - exact Hk.
  - rewrite List.filter_app. simpl. rewrite Hin. now rewrite Hd.
  - intros C. apply app_eq_nil in C. destruct C; discriminate.
  - apply Forall_app. destruct (str_ltb (date day) (from p)) eqn:E.
    + split; [ | constructor; [apply str_leb_refl | constructor]].
      eapply List.Forall_impl; [ | exact Hfl]. cbn beta. intros d Hle.
      eapply str_leb_trans; [ | exact Hle]. now apply str_ltb_leb.
    + split; [exact Hfl | ]. constructor; [ | constructor].
      now apply str_ltb_false.
  - apply Exists_app. destruct (str_ltb (date day) (from p)).
    + right. now constructor.
    + left. exact Hfi.
  - apply Forall_app. destruct (str_gtb (date day) (to p)) eqn:E.
    + split; [ | constructor; [apply str_leb_refl | constructor]].
      eapply List.Forall_impl; [ | exact Htg]. cbn beta. intros d Hle.
      eapply str_leb_trans; [exact Hle | ]. now apply str_gtb_leb.
    + split; [exact Htg | ]. constructor; [ | constructor].
      now apply str_gtb_false.
  - apply Exists_app. destruct (str_gtb (date day) (to p)).
    + right. now constructor.
    + left. exact Hti.
Qed.

Lemma partition_fresh_ok processed day y w :
  week_of day = Some (y, w) ->
  List.filter (in_week y w) processed = [] ->
  part_ok (processed ++ [day]) (weekKey y w)
    (partition_push day {| isoYear := y; isoWeekNo := w; from := date day;
                           to := date day; wp_days := [] |}).
Proof.
  intros Hw Hf. apply in_week_true in Hw.
  unfold partition_push. cbn [isoYear isoWeekNo wp_days from to app].
  assert (L : str_ltb (date day) (date day) = false)
    by (unfold str_ltb; now rewrite str_compare_refl).
  assert (G : str_gtb (date day) (date day) = false)
    by (unfold str_gtb; now rewrite str_compare_refl).
  rewrite L, G.
  constructor; cbn [isoYear isoWeekNo wp_days from to].
  - reflexivity.
  - rewrite List.filter_app, Hf. simpl. now rewrite Hw.
  - discriminate.
  - constructor; [apply str_leb_refl | constructor].
  - now constructor.
  - constructor; [apply str_leb_refl | constructor].
  - now constructor.
Qed.

Lemma part_ok_other processed k p day y w :
  part_ok processed k p -> week_of day = Some (y, w) -> k <> weekKey y w ->
  part_ok (processed ++ [day]) k p.
Proof.
  intros [Hk Hd Hne Hfl Hfi Htg Hti] Hw Hn.
  constructor; auto.
  rewrite List.filter_app. simpl.
  destruct (in_week (isoYear p) (isoWeekNo p) day) eqn:E.
  - apply in_week_true in E. rewrite Hw in E. injection E as -> ->.
    contradiction.
  - now rewrite app_nil_r.
Qed.

Lemma groupByWeek_step_ok processed byWeek day byWeek' :
  byWeek_ok processed byWeek ->
  groupByWeek_step byWeek day = Some byWeek' ->
  byWeek_ok (processed ++ [day]) byWeek'.
Proof.
  intros (Hnd & Hparts & Hcov) Hstep.
  apply groupByWeek_step_cases in Hstep.
  destruct Hstep as (y & w & Hw & [[Hnew ->] | (p & Hget & ->)]).
  - (* a new week *)
    split; [ | split].
    + unfold map_keys. rewrite map_app. simpl.
      apply List.NoDup_app; [exact Hnd | | ].
      * constructor; [intros [] | constructor].
      * intros x Hx [<- | []]. contradiction.
    + apply Forall_app. split.
      * apply List.Forall_forall. intros [k q] Hkq.
        rewrite List.Forall_forall in Hparts. specialize (Hparts _ Hkq).
        cbn [fst snd] in *. eapply part_ok_other; eauto.
        intros ->. apply Hnew. unfold map_keys.
        change (weekKey y w) with (fst (weekKey y w, q)). now apply in_map.
      * constructor; [ | constructor]. cbn [fst snd].
        apply partition_fresh_ok; [exact Hw | ].
        destruct (List.filter (in_week y w) processed) as [| d l] eqn:Ef;
          [reflexivity | ].
        assert (Hd : In d (List.filter (in_week y w) processed))
          by (rewrite Ef; now left).
        apply List.filter_In in Hd. destruct Hd as [Hd1 Hd2].
        apply in_week_true in Hd2.
        rewrite List.Forall_forall in Hcov.
        destruct (Hcov _ Hd1) as (y' & w' & Hw' & Hin).
        rewrite Hd2 in Hw'. injection Hw' as <- <-. contradiction.
    + apply Forall_app. split.
      * eapply List.Forall_impl; [ | exact Hcov]. cbn beta.
        intros d (y' & w' & Hw' & Hin). exists y', w'. split; [exact Hw' | ].
        unfold map_keys. rewrite map_app. apply in_or_app. now left.
      * constructor; [ | constructor]. exists y, w. split; [exact Hw | ].
        unfold map_keys. rewrite map_app. apply in_or_app. right. now left.
  - (* a week met before *)
    destruct (obj_replace_split _ (partition_push day p) _ _ Hget)
      as (l1 & l2 & E & Hn1 & Er).
    rewrite Er. subst byWeek.
    assert (Hkeys : map_keys (l1 ++ (weekKey y w, partition_push day p) :: l2)
                    = map_keys (l1 ++ (weekKey y w, p) :: l2)).
    { unfold map_keys. now rewrite !map_app. }
    split; [ | split].
    + now rewrite Hkeys.
    + apply Forall_app in Hparts. destruct Hparts as [H1 H2].
      inversion H2 as [| ? ? Hp H2']; subst. cbn [fst snd] in Hp.
      assert (Hother : forall l : jsmap WeekPartition,
                 Forall (fun kp => part_ok processed (fst kp) (snd kp)) l ->
                 ~ In (weekKey y w) (map_keys l) ->
                 Forall (fun kp => part_ok (processed ++ [day])
                                           (fst kp) (snd kp)) l).
      { intros l Hl Hnl. apply List.Forall_forall. intros [k q] Hkq.
        rewrite List.Forall_forall in Hl. specialize (Hl _ Hkq).
        cbn [fst snd] in *. eapply part_ok_other; eauto.
        intros ->. apply Hnl. unfold map_keys.
        change (weekKey y w) with (fst (weekKey y w, q)). now apply in_map. }
      apply Forall_app. split; [now apply Hother | ].
      constructor.
      * cbn [fst snd]. apply partition_push_ok; [exact Hp | ].
        apply in_week_true. rewrite Hw.
        destruct (weekKey_inj _ _ _ _ (ok_key _ _ _ Hp)) as [-> ->].
        reflexivity.
      * apply Hother; [exact H2' | ].
        unfold map_keys in Hnd. rewrite map_app in Hnd. simpl in Hnd.
        apply List.NoDup_remove_2 in Hnd. intros C. apply Hnd.
        apply in_or_app. now right.
    + rewrite Hkeys. apply Forall_app. split.
      * exact Hcov.
      * constructor; [ | constructor]. exists y, w. split; [exact Hw | ].
        unfold map_keys. rewrite map_app. apply in_or_app. right. now left.
Qed.

Lemma groupByWeek_loop_ok days : forall processed byWeek byWeek',
  byWeek_ok processed byWeek ->
  groupByWeek_loop byWeek days = Some byWeek' ->
  byWeek_ok (processed ++ days) byWeek'.
Proof.
  induction days as [| day days IH]; intros processed byWeek byWeek' Hok;
    cbn [groupByWeek_loop].
  - intros H. injection H as <-. now rewrite app_nil_r.
  - destruct (groupByWeek_step byWeek day) as [byWeek1 |] eqn:E;
      [ | discriminate].
    intros H. apply (IH (processed ++ [day])) in H.
    + now rewrite <- app_assoc in H.
    + eapply groupByWeek_step_ok; eauto.
Qed.

Lemma groupByWeek_loop_total days : forall byWeek,
  Forall dated days ->
  exists byWeek', groupByWeek_loop byWeek days = Some byWeek'.
Proof.
  induction days as [| day days IH]; intros byWeek Hd;
    cbn [groupByWeek_loop]; [eauto | ].
  inversion Hd as [| ? ? [d Hday] Hd']; subst.
  unfold groupByWeek_step. rewrite Hday.
  destruct (isoWeek d) as [y w]. now apply IH.
Qed.

Lemma Exists_perm {A} (P : A -> Prop) l l' :
  Permutation l l' -> Exists P l -> Exists P l'.
Proof.
  intros Hp He. apply List.Exists_exists in He. destruct He as (x & Hx & HP).
  apply List.Exists_exists. exists x. split; [ | exact HP].
  eapply Permutation_in; eauto.
Qed.

Lemma Forall_perm {A} (P : A -> Prop) l l' :
  Permutation l l' -> Forall P l -> Forall P l'.
Proof.
  intros Hp Hf. rewrite List.Forall_forall in *. intros x Hx.
  apply Hf. eapply Permutation_in; [symmetry | ]; eauto.
Qed.

Lemma sort_days_spec days k p :
  part_ok days k p -> partition_spec days (sort_days p).
Proof.
  intros [Hk Hd Hne Hfl Hfi Htg Hti].
  pose proof (stable_sort_perm
                (fun a b => localeCompare_leb (date a) (date b)) (wp_days p))
    as Hp.
  constructor; cbn [sort_days isoYear isoWeekNo wp_days from to].
  - now rewrite Hp, Hd.
  - apply (stable_sort_Sorted
             (fun a b => localeCompare_leb (date a) (date b))).
    intros a b. apply str_leb_total.
  - eapply Forall_perm; [symmetry; exact Hp | exact Hfl].
  - eapply Exists_perm; [symmetry; exact Hp | exact Hfi].
  - eapply Forall_perm; [symmetry; exact Hp | exact Htg].
  - eapply Exists_perm; [symmetry; exact Hp | exact Hti].
Qed.

Lemma partition_leb_total a b :
  partition_leb a b = true \/ partition_leb b a = true.
Proof.
  unfold partition_leb.
  destruct (Z.eqb_spec (isoYear a) (isoYear b)) as [E | N].
  - rewrite E, Z.eqb_refl, !Z.leb_le. lia.
  - destruct (Z.eqb_spec (isoYear b) (isoYear a)); [congruence | ].
    rewrite !Z.leb_le. lia.
Qed.

Lemma partition_leb_lt a b :
  partition_leb a b = true ->
  (isoYear a, isoWeekNo a) <> (isoYear b, isoWeekNo b) -> week_lt a b.
Proof.
  unfold partition_leb, week_lt.
  destruct (Z.eqb_spec (isoYear a) (isoYear b)) as [E | N];
    rewrite Z.leb_le; intros L Hne.
  - right. split; [exact E | ].
    assert (isoWeekNo a <> isoWeekNo b) by congruence. lia.
  - left. lia.
Qed.

Lemma Sorted_strict {A B} (le lt : A -> A -> Prop) (g : A -> B) l :
  (forall a b, le a b -> g a <> g b -> lt a b) ->
  Sorted le l -> List.NoDup (List.map g l) -> Sorted lt l.
Proof.
  intros Hlt. induction l as [| a l IH]; intros Hs Hn; [constructor | ].
  inversion Hs as [| ? ? Hs' Hh]; subst.
  inversion Hn as [| ? ? Hna Hn']; subst.
  constructor; [auto | ].
  destruct l as [| b l]; constructor.
  inversion Hh; subst. apply Hlt; [assumption | ].
  intros E. apply Hna. rewrite E. now left.
Qed.

(** The whole of [groupByWeek]. *)
Lemma groupByWeek_spec days :
  Forall dated days ->
  exists parts,
    groupByWeek days = Some parts
    /\ Forall (partition_spec days) parts
    /\ (forall d, In d days ->
          exists q, In q parts
                    /\ week_of d = Some (isoYear q, isoWeekNo q))
    /\ Sorted week_lt parts.
Proof.
  intros Hd. unfold groupByWeek.
  destruct (groupByWeek_loop_total days [] Hd) as [byWeek Hloop].
  rewrite Hloop.
  assert (Hok : byWeek_ok days byWeek).
  { apply (groupByWeek_loop_ok days [] [] byWeek); [ | exact Hloop].
    repeat split; constructor. }
  destruct Hok as (Hnd & Hparts & Hcov).
  set (unsorted := List.map sort_days (map_values byWeek)).
  pose proof (stable_sort_perm partition_leb unsorted) as Hperm.
  eexists. split; [reflexivity | ]. split; [ | split].
  - eapply Forall_perm; [symmetry; exact Hperm | ].
    unfold unsorted, map_values. rewrite List.map_map.
    apply List.Forall_forall. intros q Hq. apply in_map_iff in Hq.
    destruct Hq as ([k p] & <- & Hin).
    rewrite List.Forall_forall in Hparts. specialize (Hparts _ Hin).
    eapply sort_days_spec. exact Hparts.
  - intros d Hin. rewrite List.Forall_forall in Hcov.
    destruct (Hcov d Hin) as (y & w & Hw & Hk).
    unfold map_keys in Hk. apply in_map_iff in Hk.
    destruct Hk as ([k p] & Ek & Hkp). cbn [fst] in Ek. subst k.
    rewrite List.Forall_forall in Hparts. specialize (Hparts _ Hkp).
    cbn [fst snd] in Hparts.
    destruct (weekKey_inj _ _ _ _ (ok_key _ _ _ Hparts)) as [-> ->].
    exists (sort_days p). split; [ | exact Hw].
    eapply Permutation_in; [symmetry; exact Hperm | ].
    unfold unsorted, map_values. rewrite List.map_map.
    apply in_map_iff. exists (weekKey (isoYear p) (isoWeekNo p), p). auto.
  - apply (Sorted_strict (fun a b => partition_leb a b = true) week_lt
             (fun q => (isoYear q, isoWeekNo q))).
    + intros a b. apply partition_leb_lt.
    + apply stable_sort_Sorted. apply partition_leb_total.
    + eapply Permutation.Permutation_NoDup.
      * apply Permutation_map. symmetry. exact Hperm.
      * unfold unsorted, map_values. rewrite !List.map_map.
        cbn [sort_days isoYear isoWeekNo].
        assert (Ek : map_keys byWeek
                     = List.map (fun yw => weekKey (fst yw) (snd yw))
                         (List.map (fun kp => (isoYear (snd kp),
                                               isoWeekNo (snd kp))) byWeek)).
        { unfold map_keys. rewrite List.map_map. apply List.map_ext_in.
          intros [k p] Hin. rewrite List.Forall_forall in Hparts.
          apply (ok_key _ _ _ (Hparts _ Hin)). }
        rewrite Ek in Hnd. apply List.NoDup_map_inv in Hnd. exact Hnd.
Qed.

(* --------------------------------------------------------------------- *)
(** ** The day-indexed document *)

(** *** Objects filled key by key *)

Section ObjFold.
Context {V : Type}.
Implicit Types (o : obj V) (k : jsstring) (v : V).


Lemma obj_replace_In k0 v0 o k v :
  In (k, v) (obj_replace k0 v0 o) -> (k = k0 /\ v = v0) \/ In (k, v) o.
Proof.
  induction o as [| [k' v'] o IH]; simpl; [tauto | ].
  destruct (jsstring_eqb k' k0) eqn:E.
  - apply jsstring_eqb_eq in E. subst.
    intros [H | H]; [injection H as <- <-; auto | auto].
  - intros [H | H]; [auto | ]. destruct (IH H); auto.
Qed.

Lemma obj_insert_index_In k0 v0 o k v :
  In (k, v) (obj_insert_index k0 v0 o) ->
  (k = k0 /\ v = v0) \/ In (k, v) o.
Proof.
  induction o as [| [k' v'] o IH]; simpl.
  - intros [H | []]. injection H as <- <-. auto.
  - destruct (_ && _); simpl.
    + intros [H | H]; [auto | ]. destruct (IH H); auto.
    + intros [H | H]; [injection H as <- <-; auto | auto].
Qed.

Lemma obj_set_In k0 v0 o k v :
  In (k, v) (obj_set k0 v0 o) -> (k = k0 /\ v = v0) \/ In (k, v) o.
Proof.
  unfold obj_set. destruct (obj_has k0 o); [apply obj_replace_In | ].
  destruct (isArrayIndex k0); [apply obj_insert_index_In | ].
  intros H. apply in_app_or in H. destruct H as [H | [H | []]]; [auto | ].
  injection H as <- <-. auto.
Qed.

Variable f : jsstring -> V.




End ObjFold.

(** *** [keys.sort()] *)

Lemma sort_strings_perm l : Permutation (sort_strings l) l.
Proof. apply stable_sort_perm. Qed.

Lemma sort_strings_NoDup l : List.NoDup l -> List.NoDup (sort_strings l).
Proof.
  intros H. eapply Permutation.Permutation_NoDup; [ | exact H].
  symmetry. apply sort_strings_perm.
Qed.


(** *** The day accumulator *)











(** *** The ordered document *)







(* --------------------------------------------------------------------- *)
(** ** Labels of the day-indexed document *)

(** *** The label of a date *)








(* --------------------------------------------------------------------- *)
(** ** Runs *)

(** *** Writing only what changed *)

Lemma writeJsonFile_read p j w :
  files (writeJsonFile p j w) !! p = Some (stringify j ++ [10%N]).
Proof.
  unfold writeJsonFile. case_bool_decide as E; [exact E | ].
  cbn [files]. apply lookup_insert_eq.
Qed.

Lemma writeJsonFile_other p j w p' :
  p <> p' -> files (writeJsonFile p j w) !! p' = files w !! p'.
Proof.
  intros Hne. unfold writeJsonFile. case_bool_decide; [reflexivity | ].
  cbn [files]. now apply lookup_insert_ne.
Qed.

Lemma writeJsonFile_same p j w :
  files w !! p = Some (stringify j ++ [10%N]) -> writeJsonFile p j w = w.
Proof.
  intros H. unfold writeJsonFile. now rewrite bool_decide_eq_true_2.
Qed.

Lemma write_targets_other ts : forall w p,
  ~ In p (List.map fst ts) ->
  files (fold_left write_target ts w) !! p = files w !! p.
Proof.
  induction ts as [| t ts IH]; intros w p Hn; cbn [fold_left];
    [reflexivity | ].
  simpl in Hn. rewrite IH by tauto.
  unfold write_target. apply writeJsonFile_other. tauto.
Qed.

(** After the writes, every file holds its payload. *)
Lemma write_targets_settled ts : forall w,
  List.NoDup (List.map fst ts) ->
  Forall (fun t => files (fold_left write_target ts w) !! fst t
                   = Some (content t)) ts.
Proof.
  induction ts as [| t ts IH]; intros w Hn; cbn [fold_left]; constructor.
  - inversion Hn; subst. rewrite write_targets_other by assumption.
    apply writeJsonFile_read.
  - inversion Hn; subst. now apply IH.
Qed.

(** Writes of what the files already hold change nothing. *)
Lemma write_targets_noop ts : forall w,
  Forall (fun t => files w !! fst t = Some (content t)) ts ->
  fold_left write_target ts w = w.
Proof.
  induction ts as [| t ts IH]; intros w Hf; cbn [fold_left]; [reflexivity | ].
  inversion Hf; subst. unfold write_target at 2.
  rewrite writeJsonFile_same by assumption. now apply IH.
Qed.

Lemma write_targets_warned ts : forall w,
  warned (fold_left write_target ts w) = warned w.
Proof.
  induction ts as [| t ts IH]; intros w; cbn [fold_left]; [reflexivity | ].
  rewrite IH. unfold write_target, writeJsonFile. now case_bool_decide.
Qed.

Lemma write_weeks_targets dir aggregated keys : forall w,
  fold_left (write_week dir aggregated) keys w
  = fold_left write_target (flat_map (week_targets dir aggregated) keys) w.
Proof.
  induction keys as [| key keys IH]; intros w; cbn [fold_left flat_map];
    [reflexivity | ].
  rewrite fold_left_app, IH. f_equal.
  unfold write_week, week_targets.
  now destruct (map_get key aggregated).
Qed.

(** *** Keys and paths *)

Lemma string_of_uint_key_chars d :
  Forall key_char (js (NilEmpty.string_of_uint d)).
Proof.
  induction d; simpl; constructor; auto; left; reflexivity.
Qed.

Lemma String_of_Z_key_chars z : Forall key_char (String_of_Z z).
Proof.
  unfold String_of_Z. destruct (Z.to_int z); simpl.
  - apply string_of_uint_key_chars.
  - constructor; [right; left; reflexivity | apply string_of_uint_key_chars].
Qed.

Lemma weekKey_key_chars y w : Forall key_char (weekKey y w).
Proof.
  unfold weekKey, padStart0. repeat rewrite Forall_app. repeat split.
  - apply String_of_Z_key_chars.
  - change (js "-W") with [45%N; 87%N].
    constructor; [right; left; reflexivity | ].
    constructor; [right; right; reflexivity | constructor].
  - apply List.Forall_forall. intros c Hc. apply repeat_spec in Hc. subst.
    left. reflexivity.
  - apply String_of_Z_key_chars.
Qed.

Lemma weekKey_nonempty y w : weekKey y w <> [].
Proof.
  rewrite weekKey_shape. intros C. apply app_eq_nil in C.
  destruct C; discriminate.
Qed.

Lemma byWeek_path_inj dir k k' :
  join dir (k ++ js ".json") = join dir (k' ++ js ".json") -> k = k'.
Proof.
  unfold join. intros H. apply app_inv_head in H. apply app_inv_head in H.
  now apply app_inv_tail in H.
Qed.

Lemma byDay_path_neq dir k k' :
  is_weekKey k ->
  join dir (k ++ js ".json")
  <> join (join dir (js "by-day")) (k' ++ js ".json").
Proof.
  intros (y & w & ->) H. unfold join in H.
  rewrite <- !app_assoc in H. apply app_inv_head in H.
  apply app_inv_head in H.
  pose proof (weekKey_key_chars y w) as Hc.
  pose proof (weekKey_nonempty y w) as Hne.
  destruct (weekKey y w) as [| c k]; [contradiction | ].
  simpl in H. injection H as -> _. inversion Hc as [| ? ? Hk _]; subst.
  destruct Hk as [Hk | [Hk | Hk]]; discriminate.
Qed.

Lemma week_targets_paths dir aggregated key p :
  In p (List.map fst (week_targets dir aggregated key)) ->
  p = join dir (key ++ js ".json")
  \/ p = join (join dir (js "by-day")) (key ++ js ".json").
Proof.
  unfold week_targets. destruct (map_get key aggregated);
    cbn [List.map fst In]; intros H; [ | destruct H].
  destruct H as [<- | [<- | []]]; auto.
Qed.

Lemma targets_NoDup dir aggregated keys :
  List.NoDup keys -> Forall is_weekKey keys ->
  List.NoDup (List.map fst (flat_map (week_targets dir aggregated) keys)).
Proof.
  induction keys as [| key keys IH]; intros Hn Hk; cbn [flat_map];
    [constructor | ].
  inversion Hn as [| ? ? Hnk Hn']; inversion Hk as [| ? ? Hkey Hk']; subst.
  rewrite map_app. apply List.NoDup_app; [ | now apply IH | ].
  - unfold week_targets. destruct (map_get key aggregated); simpl;
      [ | constructor].
    constructor; [ | constructor; [intros [] | constructor]].
    intros [C | []]. symmetry in C. revert C. now apply byDay_path_neq.
  - intros p Hp Hp'. apply week_targets_paths in Hp.
    rewrite flat_map_concat_map, concat_map, List.map_map in Hp'.
    apply in_concat in Hp'. destruct Hp' as (l & Hl & Hpl).
    apply in_map_iff in Hl. destruct Hl as (key' & <- & Hkey').
    apply week_targets_paths in Hpl.
    assert (Hkey'w : is_weekKey key')
      by (rewrite List.Forall_forall in Hk'; auto).
    destruct Hp as [-> | ->], Hpl as [E | E].
    + apply byWeek_path_inj in E. congruence.
    + revert E. now apply byDay_path_neq.
    + symmetry in E. revert E. now apply byDay_path_neq.
    + apply byWeek_path_inj in E. congruence.
Qed.

(** *** The aggregation Map *)

Lemma map_set_keys {V} k (v : V) m :
  map_keys (map_set k v m)
  = if obj_has k m then map_keys m else map_keys m ++ [k].
Proof.
  unfold map_set, map_keys. destruct (obj_has k m).
  - apply obj_keys_replace.
  - now rewrite map_app.
Qed.

Lemma map_set_ok {V} (P : jsstring -> Prop) k (v : V) m :
  P k -> List.NoDup (map_keys m) /\ Forall P (map_keys m) ->
  List.NoDup (map_keys (map_set k v m)) /\ Forall P (map_keys (map_set k v m)).
Proof.
  intros Hk [Hn Hf]. rewrite map_set_keys.
  destruct (obj_has k m) eqn:E; [auto | ]. split.
  - apply List.NoDup_app; [exact Hn | constructor; [intros [] | constructor] | ].
    intros a Ha [<- | []]. apply obj_has_false in E. contradiction.
  - apply Forall_app. split; [exact Hf | constructor; [exact Hk | constructor]].
Qed.

Lemma merge_partition_ok g canteen parsed aggregated partition :
  agg_ok aggregated ->
  agg_ok (merge_partition g canteen parsed aggregated partition).
Proof.
  intros Hok. unfold merge_partition, agg_ok.
  assert (Hk : is_weekKey (weekKey (isoYear partition) (isoWeekNo partition)))
    by (eexists; eexists; reflexivity).
  apply map_set_ok; [exact Hk | ].
  destruct (map_has _ aggregated); cbn [negb]; [exact Hok | ].
  now apply map_set_ok.
Qed.

Lemma merge_partitions_ok g canteen parsed partitions : forall aggregated,
  agg_ok aggregated ->
  agg_ok (fold_left (merge_partition g canteen parsed) partitions aggregated).
Proof.
  induction partitions as [| p ps IH]; intros aggregated Hok; cbn [fold_left];
    [exact Hok | ].
  apply IH. now apply merge_partition_ok.
Qed.

Lemma main_collect_ok env g sources : forall i aggregated warnings ws result,
  agg_ok aggregated ->
  main_collect env g i sources aggregated warnings = (ws, inr result) ->
  agg_ok result.
Proof.
  induction sources as [| canteen sources IH];
    intros i aggregated warnings ws result Hok; cbn [main_collect].
  - intros H. injection H as _ <-. exact Hok.
  - destruct (fetchHtml env (url canteen)) as [e | html]; [discriminate | ].
    destruct (parseMenuPage (clock_block env i) html) as [ws' [e | parsed]];
      [discriminate | ].
    destruct (groupByWeek (days parsed)) as [partitions |]; [ | discriminate].
    apply IH. now apply merge_partitions_ok.
Qed.

(** A second run over the same sources, with the same clock readings and
    pages, from the files the first run left: nothing is written. *)
Lemma main_with_rerun sources env fs w :
  main_with sources env fs = (Completed, w) ->
  main_with sources env (files w)
  = (Completed, {| files := files w; written := []; warned := warned w |}).
Proof.
  unfold main_with.
  destruct (main_collect env (toISOString (clock_start env)) 0 sources [] [])
    as [warnings [out | aggregated]] eqn:Ec.
  - intros H. injection H as -> <-. reflexivity.
  - destruct aggregated as [| entry aggregated'] eqn:Ea.
    + intros H. injection H as <-. reflexivity.
    + rewrite <- Ea in *. clear Ea.
      assert (Hok : agg_ok aggregated).
      { eapply main_collect_ok; [ | exact Ec]. split; constructor. }
      destruct Hok as [Hn Hk].
      set (keys := sort_strings (map_keys aggregated)).
      assert (Hnk : List.NoDup keys) by now apply sort_strings_NoDup.
      assert (Hkk : Forall is_weekKey keys).
      { eapply Forall_perm; [symmetry; apply sort_strings_perm | exact Hk]. }
      set (w0 := {| files := fs; written := []; warned := warnings |}).
      rewrite !write_weeks_targets.
      set (ts := flat_map (week_targets (outputDir env) aggregated) keys).
      pose proof (write_targets_settled ts w0
                    (targets_NoDup _ aggregated keys Hnk Hkk)) as Hs.
      intros H. injection H as <-.
      rewrite write_targets_warned. cbn [warned w0].
      f_equal. apply write_targets_noop. exact Hs.
Qed.

(* ===================================================================== *)
(** * Part IV — the claims of the specification                           *)
(* ===================================================================== *)

(* --------------------------------------------------------------------- *)
(** ** C1 *)

(** C1, as stated, fails: the labels "So, 15.12." and "Mo, 10.00." both
    match the pattern of [resolveDayDate]; after 15 December 2024 the
    second one resolves to 10 December 2024, because month 00 of the next
    year is December of this one. *)
Lemma resolveDays_month_zero_goes_back :
  Forall (fun l => exists dm, label_day_month l = Some dm) ex_month_zero_labels
  /\ resolveDays (UTC 2024 11 9) None ex_month_zero_labels
     = inr [UTC 2024 11 15; UTC 2024 11 10]
  /\ UTC 2024 11 10 < UTC 2024 11 15.
Proof.
  split; [ | split].
  - repeat (apply List.Forall_cons; [eexists; vm_compute; reflexivity | ]).
    apply List.Forall_nil.
  - vm_compute. reflexivity.
  - vm_compute. reflexivity.
Qed.

(** C1 (amended).  For every anchor date and every sequence of day labels
    that match the pattern with a month token other than 00, resolving
    the labels in order, each result being the previous date of the next
    call, gives all the dates, in non-decreasing order.  When moreover
    the anchor's year is 100 or later, the labels name days of the
    calendar (day 1..28/30/31 of month 1..12) and go up to a label [b]
    and up again from an earlier label on, the dates up to [b] are in the
    anchor's year and the ones after it in the next year: the year
    increases once, at the boundary. *)
Theorem resolveDays_monotone_and_year_boundary
    (startDate : Z) (labels : list jsstring) :
  (Forall month_from_1 labels ->
   exists dates,
     resolveDays startDate None labels = inr dates
     /\ length dates = length labels
     /\ Sorted Z.le dates)
  /\ (forall l1 b l2,
        labels_read labels ((l1 ++ [b]) ++ l2) ->
        Forall calendar_day ((l1 ++ [b]) ++ l2) ->
        100 <= getUTCFullYear startDate ->
        ascending (l1 ++ [b]) -> ascending l2 ->
        match l2 with a :: _ => md_ltb a b = true | [] => True end ->
        exists dates,
          resolveDays startDate None labels = inr dates
          /\ List.map getUTCFullYear dates
             = repeat (getUTCFullYear startDate) (length (l1 ++ [b]))
               ++ repeat (getUTCFullYear startDate + 1) (length l2)).
Proof.
  split.
  - apply resolveDays_sorted.
  - intros l1 b l2 Hr Hc Hy Ha1 Ha2 Hd.
    destruct (resolveDays_years startDate labels _ Hr Hc Hy)
      as (dates & Hdates & Hyears).
    exists dates. split; [exact Hdates | ].
    rewrite Hyears. now apply resolved_years_boundary.
Qed.

Lemma resolveDays_monotone_and_year_boundary_witness :
  (exists dates,
     resolveDays ex_anchor None ex_new_year_labels = inr dates
     /\ length dates = 5%nat /\ Sorted Z.le dates)
  /\ (exists dates,
        resolveDays ex_anchor None ex_new_year_labels = inr dates
        /\ List.map getUTCFullYear dates = [2025; 2025; 2025; 2026; 2026]).
Proof.
  destruct (resolveDays_monotone_and_year_boundary ex_anchor ex_new_year_labels)
    as [Hsorted Hyears].
  split.
  - apply Hsorted.
    repeat (apply List.Forall_cons;
            [eexists; eexists; split; [vm_compute; reflexivity | lia] | ]).
    apply List.Forall_nil.
  - apply (Hyears [(29, 12); (30, 12)] (31, 12) [(1, 1); (2, 1)]).
    + repeat (apply List.Forall2_cons; [vm_compute; reflexivity | ]).
      apply List.Forall2_nil.
    + repeat (apply List.Forall_cons; [unfold calendar_day; simpl; lia | ]).
      apply List.Forall_nil.
    + vm_compute. discriminate.
    + repeat constructor.
    + repeat constructor.
    + reflexivity.
Defined.

(* --------------------------------------------------------------------- *)
(** ** C2 *)

(** C2: the code where a container has fewer day elements than dish
    rows.  The loop runs over the dish rows, so the row after the last
    day element reads the label of an element that does not exist, the
    empty text, on which [resolveDayDate] throws: [parseMenuPage] throws
    and returns no day of the page.  With one day element and two dish
    rows the warning is logged and the error is the one of the empty
    label. *)
Theorem parseMenuPage_fewer_days_than_rows_throws (now : nat -> Z) :
  (forall page b,
     In b (page_blocks page) ->
     (length (block_days b) < length (block_rows b))%nat ->
     throws (snd (parseMenuPage now page)))
  /\ parseMenuPage now ex_page_fewer_days
     = ([WarnCountMismatch 1 2], inl (ErrDayLabel [])).
Proof.
  split; [ | reflexivity].
  intros page b. apply parseMenuPage_fewer_days_throws.
Qed.

Lemma parseMenuPage_fewer_days_than_rows_throws_witness :
  throws (snd (parseMenuPage (fun _ => 0) ex_page_fewer_days)).
Proof.
  destruct (parseMenuPage_fewer_days_than_rows_throws (fun _ => 0))
    as [Hthrows _].
  eapply (Hthrows ex_page_fewer_days).
  - left. reflexivity.
  - simpl. lia.
Defined.

(** With more day elements than dish rows the days of the rows are kept,
    under the same warning. *)
Example parseMenuPage_fewer_rows_than_days (now : nat -> Z) :
  exists categories,
    parseMenuPage now ex_page_fewer_rows
    = ([WarnCountMismatch 2 1],
       inr {| days := [{| date := js "2025-10-20"; label := js "Mo, 20.10.";
                          categories := categories |}];
              legend := None |}).
Proof. eexists. reflexivity. Qed.

(* --------------------------------------------------------------------- *)
(** ** C3 *)

(** C3, as stated, fails: the payload holds [generatedAt], read from the
    clock at the start of the run.  A run on the next morning over the
    same pages, from the files the first run left, writes both files of
    the week again. *)
Lemma main_rerun_later_clock_rewrites :
  let first := main (ex_env ex_clock_1) ∅ in
  let second := main (ex_env ex_clock_2) (files (snd first)) in
  fst first = Completed /\ fst second = Completed
  /\ written (snd second)
     = [js "data/menus/2025-W43.json"; js "data/menus/by-day/2025-W43.json"].
Proof. vm_compute. repeat split. Qed.

(** The canteen-indexed file lists the canteens in the order the sources
    were processed. *)
Example main_source_order_in_output :
  files (snd (main_with [ex_source_a; ex_source_b] (ex_env ex_clock_1) ∅))
    !! js "data/menus/2025-W43.json"
  <> files (snd (main_with [ex_source_b; ex_source_a] (ex_env ex_clock_1) ∅))
       !! js "data/menus/2025-W43.json".
Proof. vm_compute. discriminate. Qed.

(** C3 (amended).  For the same sources in the same order, the same
    pages and the same clock readings, a second complete run from the
    files the first one left serializes every document of every week to
    the bytes already there: it completes, writes nothing and leaves the
    files as they are. *)
Theorem main_rerun_same_clock_writes_nothing
    (sources : list CanteenConfig) (env : Env) (fs : FileSystem) (w : World) :
  main_with sources env fs = (Completed, w) ->
  main_with sources env (files w)
  = (Completed, {| files := files w; written := []; warned := warned w |}).
Proof. apply main_with_rerun. Qed.

Lemma main_rerun_same_clock_writes_nothing_witness :
  let first := snd (main (ex_env ex_clock_1) ∅) in
  written first
  = [js "data/menus/2025-W43.json"; js "data/menus/by-day/2025-W43.json"]
  /\ main (ex_env ex_clock_1) (files first)
     = (Completed, {| files := files first; written := []; warned := [] |}).
Proof.
  split; [vm_compute; reflexivity | ].
  apply (main_rerun_same_clock_writes_nothing CANTEENS (ex_env ex_clock_1) ∅).
  vm_compute. reflexivity.
Defined.

(* --------------------------------------------------------------------- *)
(** ** C4 *)

(** C4.  The amounts of an item are the matches of the price pattern in
    its price text, in source order, each a decimal number with two
    fraction digits.  With no amount the price is null.  With one or
    more the price holds the text, "EUR", every amount in that order, and
    the labels by their number: students and guests for two; students,
    staff and guests for three; none otherwise. *)
Theorem parseMeal_price_by_count (item : Item) :
  let text := cleanText (item_price_text item) in
  let amounts := price_amounts item in
  (Forall (fun m => match_of re_price text m /\ amount_text (group text m 1))
          (price_matches item)
   /\ StronglySorted (fun a b => (m_end a <= m_start b)%nat)
                     (price_matches item)
   /\ Forall (fun v => exists mant, v = NumDec mant 2) amounts)
  /\ (length amounts = 0%nat -> price (parseMeal item) = None)
  /\ (forall n, length amounts = S n ->
        exists p,
          price (parseMeal item) = Some p
          /\ raw p = text /\ currency p = js "EUR" /\ values p = amounts
          /\ (length amounts = 2%nat ->
              labels p = [js "students"; js "guests"])
          /\ (length amounts = 3%nat ->
              labels p = [js "students"; js "staff"; js "guests"])
          /\ (length amounts <> 2%nat -> length amounts <> 3%nat ->
              labels p = [])).
Proof.
  intros text amounts.
  destruct (matchAll_spec re_price text) as [Hm Hs].
  assert (Hg : Forall (fun m => match_of re_price text m
                                /\ amount_text (group text m 1))
                      (price_matches item)).
  { eapply List.Forall_impl; [ | exact Hm]. cbn beta. intros m M.
    split; [exact M | now apply group1_price]. }
  split; [split; [exact Hg | split; [exact Hs | ]] | split].
  - unfold amounts, price_amounts. apply List.Forall_map.
    eapply List.Forall_impl; [ | exact Hg]. cbn beta. intros m [_ A].
    now apply parseLocaleNumber_amount.
  - intros H0. unfold parseMeal. cbn [price].
    fold text. change (List.map _ (matchAll re_price text)) with amounts.
    now rewrite H0.
  - intros n Hn. unfold parseMeal. cbn [price].
    fold text. change (List.map _ (matchAll re_price text)) with amounts.
    rewrite Hn. cbn [Nat.ltb Nat.leb].
    eexists. split; [reflexivity | ]. cbn [raw currency values labels].
    repeat split.
    + intros E. injection E as ->. reflexivity.
    + intros E. injection E as ->. reflexivity.
    + intros N2 N3.
      destruct n as [| [| [| n]]]; try reflexivity; congruence.
Qed.

Lemma parseMeal_price_by_count_witness :
  exists p,
    price (parseMeal ex_schnitzel) = Some p
    /\ values p = [NumDec 220 2; NumDec 330 2; NumDec 440 2]
    /\ labels p = [js "students"; js "staff"; js "guests"].
Proof.
  destruct (parseMeal_price_by_count ex_schnitzel) as (_ & _ & Hsome).
  destruct (Hsome 2%nat) as (p & Hp & _ & _ & Hv & _ & H3 & _);
    [vm_compute; reflexivity | ].
  exists p. split; [exact Hp | ]. split.
  - rewrite Hv. vm_compute. reflexivity.
  - apply H3. vm_compute. reflexivity.
Defined.

(* --------------------------------------------------------------------- *)
(** ** C5 *)

(** C5, as stated, fails for the years 0 to 99: [isoWeek] copies the date
    with [Date.UTC], which reads such a year as 1900 + year.  For 3
    January of the year 50 it answers year 1950, where the rule of the
    specification gives year 50. *)
Lemma isoWeek_two_digit_year :
  option_map isoWeek (parseIsoDay (js "0050-01-03")) = Some (1950, 1)
  /\ option_map (fun d => isoWeek_spec (Day d)) (parseIsoDay (js "0050-01-03"))
     = Some (50, 1).
Proof. split; vm_compute; reflexivity. Qed.

(** C5 (amended).  For every date whose year, and the year of the
    Thursday of its week, are outside 0..99, [isoWeek] is the rule of the
    specification: shift to the Thursday of the week (Monday = 1 ..
    Sunday = 7, by 4 - dayNumber), take that day's year as the ISO year
    and ceil((days since 1 January of that year + 1) / 7) as the week.
    2024-12-30, a Monday, is week 1 of 2025; 2023-01-01, a Sunday, is
    week 52 of 2022. *)
Theorem isoWeek_thursday_rule :
  (forall date : Z,
     ~ (0 <= getUTCFullYear date <= 99) ->
     ~ (0 <= fst (isoWeek_spec (Day date)) <= 99) ->
     isoWeek date = isoWeek_spec (Day date))
  /\ (option_map isoWeek (parseIsoDay (js "2024-12-30")) = Some (2025, 1)
      /\ option_map (fun d => dayNumber (Day d)) (parseIsoDay (js "2024-12-30"))
         = Some 1)
  /\ (option_map isoWeek (parseIsoDay (js "2023-01-01")) = Some (2022, 52)
      /\ option_map (fun d => dayNumber (Day d)) (parseIsoDay (js "2023-01-01"))
         = Some 7).
Proof.
  split; [exact isoWeek_spec_eq | ].
  repeat split; vm_compute; reflexivity.
Qed.

Lemma isoWeek_thursday_rule_witness :
  isoWeek (UTC 2024 11 30) = isoWeek_spec (Day (UTC 2024 11 30)).
Proof.
  destruct isoWeek_thursday_rule as [Hrule _].
  apply Hrule; vm_compute; intros [_ H]; apply H; reflexivity.
Defined.

(* --------------------------------------------------------------------- *)
(** ** C6 *)

(** C6.  [parseMenuPage] throws exactly when the page has no container
    or one of the labels it reads, one per dish row, has no day and
    month; so whether it throws depends on nothing but these labels, not
    on the legend, the prices or the allergens. *)
Theorem parseMenuPage_throws_exactly_when (now : nat -> Z) (page : Page) :
  (throws (snd (parseMenuPage now page))
   <-> page_blocks page = []
       \/ Exists unparseable (flat_map block_labels (page_blocks page)))
  /\ (forall now' page',
        List.map block_labels (page_blocks page')
        = List.map block_labels (page_blocks page) ->
        (throws (snd (parseMenuPage now' page'))
         <-> throws (snd (parseMenuPage now page)))).
Proof.
  split; [apply parseMenuPage_throws | ].
  intros now' page' E. rewrite !parseMenuPage_throws.
  rewrite !flat_map_concat_map, E.
  assert (Hnil : page_blocks page' = [] <-> page_blocks page = []).
  { destruct (page_blocks page'), (page_blocks page); simpl in E;
      split; intros; try reflexivity; discriminate. }
  now rewrite Hnil.
Qed.

Lemma parseMenuPage_throws_exactly_when_witness :
  ~ throws (snd (parseMenuPage (fun _ => 0) ex_page_fewer_rows))
  /\ throws (snd (parseMenuPage (fun _ => 0) ex_page_fewer_days)).
Proof.
  split.
  - intros H.
    apply (proj1 (parseMenuPage_throws_exactly_when _ _)) in H.
    destruct H as [H | H]; [discriminate | ].
    simpl flat_map in H. unfold block_labels, labels_from in H.
    apply List.Exists_cons in H. destruct H as [H | H];
      [vm_compute in H; discriminate | inversion H].
  - apply (proj1 (parseMenuPage_throws_exactly_when _ _)). right.
    apply List.Exists_cons_tl. apply List.Exists_cons_hd. reflexivity.
Defined.

(* --------------------------------------------------------------------- *)
(** ** C7 *)



(* --------------------------------------------------------------------- *)
(** ** C8 *)




(* --------------------------------------------------------------------- *)
(** ** C9 *)

(** C9.  For every legend text and each of the three category patterns,
    whatever state the caller's pattern object is in, [parseLegendEntries]
    ends and gives the same mapping, with no key twice; so the three
    mappings of a legend have no key twice. *)
Theorem parseLegendEntries_repeatable_unique_keys :
  (forall text r i j,
     In r category_patterns ->
     exists entries,
       parseLegendEntries text (MkRegExp r i) = Some entries
       /\ parseLegendEntries text (MkRegExp r j) = Some entries
       /\ List.NoDup (obj_keys entries))
  /\ (forall page lg,
        parseLegend page = Some lg ->
        List.NoDup (obj_keys (info lg))
        /\ List.NoDup (obj_keys (lg_allergens lg))
        /\ List.NoDup (obj_keys (additives lg))).
Proof.
  split.
  - intros text r i j Hr.
    destruct (parseLegendEntries_total text (MkRegExp r i)
                (category_patterns_minlen r Hr)) as (entries & He & Hn).
    exists entries. split; [exact He | ]. split; [ | exact Hn].
    rewrite <- He. apply parseLegendEntries_lastIndex.
  - intros page lg. unfold parseLegend.
    destruct (List.filter _ (page_h3s page)) as [| heading _];
      [discriminate | ].
    destruct (h3_row_columns heading) as [[| c cs] |]; try discriminate.
    intros H. injection H as <-. cbn [info lg_allergens additives].
    repeat split.
    + destruct (parseLegendEntries_total
                  (cleanText (column_text (c :: cs) 0)) (MkRegExp re_info 0))
        as (e & -> & Hn); [simpl; lia | exact Hn].
    + destruct (parseLegendEntries_total
                  (cleanText (column_text (c :: cs) 1))
                  (MkRegExp re_allergens 0))
        as (e & -> & Hn); [simpl; lia | exact Hn].
    + destruct (parseLegendEntries_total
                  (cleanText (column_text (c :: cs) 2))
                  (MkRegExp re_additives 0))
        as (e & -> & Hn); [simpl; lia | exact Hn].
Qed.

Lemma parseLegendEntries_repeatable_unique_keys_witness :
  exists entries,
    parseLegendEntries (js "Allergene: a) Gluten, a1) Weizen, a) Getreide.")
                       (MkRegExp re_allergens 0) = Some entries
    /\ parseLegendEntries (js "Allergene: a) Gluten, a1) Weizen, a) Getreide.")
                          (MkRegExp re_allergens 7) = Some entries
    /\ List.NoDup (obj_keys entries).
Proof.
  destruct parseLegendEntries_repeatable_unique_keys as [Hentries _].
  apply Hentries. right. left. reflexivity.
Defined.

(* --------------------------------------------------------------------- *)
(** ** C10 *)



(* ===================================================================== *)
(** * Part V — further properties of the program                         *)
(* ===================================================================== *)

(** ** Clean texts and German numbers *)

Section Replace.
Variables (r : regex) (cl : cclass) (len : jsstring -> nat) (repl : jsstring).
Hypothesis Hmh : forall i rest,
  match_here r i rest =
  match rest with
  | x :: rest' =>
      if cclass_mem cl x then Some (MkMatch i (i + S (len rest')) []) else None
  | [] => None
  end.
Hypothesis Hlen : forall rest, (len rest <= length rest)%nat.

Lemma slice_snoc pos i (s : jsstring) x rest' :
  (pos <= i)%nat -> skipn i s = x :: rest' ->
  slice pos (S i) s = slice pos i s ++ [x].
Proof.
  intros Hp Hs. unfold slice.
  assert (E : skipn pos s = firstn (i - pos) (skipn pos s) ++ x :: rest').
  { rewrite <- Hs. replace i with ((i - pos) + pos)%nat at 2 by lia.
    rewrite <- skipn_skipn. symmetry. apply firstn_skipn. }
  assert (L : length (firstn (i - pos) (skipn pos s)) = (i - pos)%nat).
  { apply firstn_length_le. rewrite length_skipn.
    apply (f_equal (@length N)) in Hs. rewrite length_skipn in Hs.
    simpl in Hs. lia. }
  rewrite E at 1. replace (S i - pos)%nat with ((i - pos) + 1)%nat by lia.
  rewrite <- L at 1. rewrite firstn_app_2. reflexivity.
Qed.

Lemma skipn_cons_S i (s : jsstring) x rest' :
  skipn i s = x :: rest' -> skipn (S i) s = rest'.
Proof.
  intros H. replace (S i) with (1 + i)%nat by lia.
  now rewrite <- skipn_skipn, H.
Qed.

Lemma splice_matchAll s : forall k i pos fuel,
  (pos <= i)%nat -> (i <= length s)%nat -> (length s - i <= k)%nat ->
  (length s - i < fuel)%nat ->
  splice s repl pos (matchAll_from fuel r s i)
  = slice pos i s ++ replaced cl len repl k (skipn i s).
Proof.
  induction k as [| k IH]; intros i pos fuel Hp Hi Hk Hf.
  - assert (i = length s) by lia. subst i.
    destruct fuel as [| fuel]; [lia | ]. cbn [matchAll_from].
    assert (L : (length s <? length s)%nat = false) by (apply Nat.ltb_ge; lia).
    rewrite L, skipn_all. cbn [search]. rewrite Hmh. cbn [splice replaced].
    rewrite app_nil_r. unfold slice. symmetry. apply firstn_all2.
    rewrite length_skipn. lia.
  - destruct fuel as [| fuel]; [lia | ]. cbn [matchAll_from].
    assert (L : (length s <? i)%nat = false) by (apply Nat.ltb_ge; lia).
    rewrite L. destruct (skipn i s) as [| x rest'] eqn:Es.
    + cbn [search]. rewrite Hmh. cbn [splice replaced].
      rewrite app_nil_r. unfold slice. symmetry. apply firstn_all2.
      apply (f_equal (@length N)) in Es. rewrite !length_skipn in *.
      simpl in Es. lia.
    + assert (Li : (i < length s)%nat).
      { apply (f_equal (@length N)) in Es. rewrite length_skipn in Es.
        simpl in Es. lia. }
      assert (Lr : length rest' = (length s - S i)%nat).
      { apply (f_equal (@length N)) in Es. rewrite length_skipn in Es.
        simpl in Es. lia. }
      cbn [search replaced]. rewrite Hmh.
      destruct (cclass_mem cl x) eqn:M.
      * cbn [m_end m_start].
        assert (N0 : (i + S (len rest') =? i)%nat = false)
          by (apply Nat.eqb_neq; lia).
        rewrite N0. cbn [splice m_start m_end].
        pose proof (Hlen rest') as Hl.
        rewrite (IH (i + S (len rest'))%nat (i + S (len rest'))%nat fuel)
          by lia.
        unfold slice at 2. rewrite Nat.sub_diag. cbn [firstn app].
        replace (i + S (len rest'))%nat with (len rest' + S i)%nat by lia.
        rewrite <- skipn_skipn, (skipn_cons_S _ _ _ _ Es). reflexivity.
      * rewrite <- (skipn_cons_S _ _ _ _ Es).
        assert (Eq1 : matchAll_from (S fuel) r s (S i)
                      = match search r (S i) (skipn (S i) s) with
                        | Some m =>
                            m :: matchAll_from fuel r s
                                   (if (m_end m =? m_start m)%nat
                                    then S (m_end m) else m_end m)
                        | None => []
                        end).
        { cbn [matchAll_from].
          assert (L2 : (length s <? S i)%nat = false)
            by (apply Nat.ltb_ge; lia).
          now rewrite L2. }
        rewrite <- Eq1.
        rewrite (IH (S i) pos (S fuel)) by lia.
        rewrite (slice_snoc pos i s x rest' Hp Es), <- app_assoc.
        rewrite (skipn_cons_S _ _ _ _ Es). reflexivity.
Qed.

Lemma replace_all_replaced s :
  replace_all r repl s = replaced cl len repl (length s) s.
Proof.
  unfold replace_all, matchAll.
  rewrite (splice_matchAll s (length s) 0 0) by lia.
  reflexivity.
Qed.

End Replace.

(* ---------- the two patterns the generic lemma is used for ---------- *)

Lemma rep_greedy_run cl : forall rest lo i c i0,
  (lo <= run cl rest)%nat ->
  rep_greedy cl lo None i rest c (fun j _ c' => Some (MkMatch i0 j c'))
  = Some (MkMatch i0 (i + run cl rest) c).
Proof.
  induction rest as [| x rest IH]; intros lo i c i0 Hlo; simpl in *.
  - assert (lo = 0)%nat by lia. subst lo. now rewrite Nat.add_0_r.
  - destruct (cclass_mem cl x).
    + rewrite IH by lia. f_equal. f_equal. lia.
    + assert (lo = 0)%nat by lia. subst lo. now rewrite Nat.add_0_r.
Qed.

Lemma match_here_plus cl i rest :
  match_here (RRep cl 1 None true) i rest =
  match rest with
  | x :: rest' =>
      if cclass_mem cl x then Some (MkMatch i (i + S (run cl rest')) [])
      else None
  | [] => None
  end.
Proof.
  unfold match_here. cbn [rmatch].
  destruct rest as [| x rest']; [reflexivity | ].
  destruct (cclass_mem cl x) eqn:M.
  - rewrite rep_greedy_run by (simpl; rewrite M; lia).
    simpl. now rewrite M.
  - simpl. now rewrite M.
Qed.

Lemma match_here_class cl i rest :
  match_here (RClass cl) i rest =
  match rest with
  | x :: rest' =>
      if cclass_mem cl x then Some (MkMatch i (i + 1) []) else None
  | [] => None
  end.
Proof.
  unfold match_here. cbn [rmatch]. destruct rest as [| x rest']; [reflexivity | ].
  destruct (cclass_mem cl x); [ | reflexivity]. now rewrite Nat.add_1_r.
Qed.

Lemma run_le cl rest : (run cl rest <= length rest)%nat.
Proof.
  induction rest as [| x rest IH]; simpl; [lia | ].
  destruct (cclass_mem cl x); lia.
Qed.

Lemma squeeze_true_skip s :
  squeeze true s = squeeze false (skipn (run CSpace s) s).
Proof.
  induction s as [| c s IH]; simpl; [reflexivity | ].
  destruct (isWhiteSpace c) eqn:W; simpl; [exact IH | now rewrite W].
Qed.

Lemma replaced_squeeze : forall k s,
  (length s <= k)%nat ->
  replaced CSpace (run CSpace) (js " ") k s = squeeze false s.
Proof.
  induction k as [| k IH]; intros s Hk.
  - destruct s; [reflexivity | simpl in Hk; lia].
  - destruct s as [| c s]; [reflexivity | ]. simpl in Hk. cbn [replaced squeeze].
    cbn [cclass_mem]. destruct (isWhiteSpace c).
    + rewrite IH by (rewrite length_skipn; lia).
      rewrite squeeze_true_skip. reflexivity.
    + rewrite IH by lia. reflexivity.
Qed.

(** [value.replace(/\s+/g, " ")]: every run of white space becomes one
    space. *)
Lemma replace_all_spaces s :
  replace_all re_spaces (js " ") s = squeeze false s.
Proof.
  unfold re_spaces.
  rewrite (replace_all_replaced _ CSpace (run CSpace) (js " ")).
  - now apply replaced_squeeze.
  - intros i rest. apply match_here_plus.
  - intros rest. apply run_le.
Qed.

Lemma replaced_filter c repl : forall k s,
  (length s <= k)%nat ->
  replaced (CChar c) (fun _ => O) repl k s
  = flat_map (fun x => if (x =? c)%N then repl else [x]) s.
Proof.
  induction k as [| k IH]; intros s Hk.
  - destruct s; [reflexivity | simpl in Hk; lia].
  - destruct s as [| x s]; [reflexivity | ]. simpl in Hk.
    cbn [replaced flat_map cclass_mem]. change (skipn 0 s) with s.
    rewrite IH by lia. now destruct (x =? c)%N.
Qed.

(** [s.replace(/c/g, repl)] for a literal character [c]. *)
Lemma replace_all_char c repl s :
  replace_all (rchar c) repl s
  = flat_map (fun x => if (x =? c)%N then repl else [x]) s.
Proof.
  unfold rchar.
  rewrite (replace_all_replaced _ (CChar c) (fun _ => O) repl).
  - now apply replaced_filter.
  - intros i rest. rewrite match_here_class.
    destruct rest; [reflexivity | ]. now rewrite Nat.add_1_r.
  - intros rest. lia.
Qed.

(* ---------- cleanText ---------- *)

Lemma cleanText_eq s : cleanText s = trim (squeeze false s).
Proof. unfold cleanText. now rewrite replace_all_spaces. Qed.

Lemma space_is_white : isWhiteSpace 32 = true.
Proof. reflexivity. Qed.

Lemma white_not_32 c : isWhiteSpace c = false -> (c =? 32)%N = false.
Proof.
  intros H. destruct (N.eqb_spec c 32); [subst; discriminate | reflexivity].
Qed.

Lemma squeeze_only_spaces s : forall b,
  Forall (fun c => isWhiteSpace c = true -> c = 32%N) (squeeze b s).
Proof.
  induction s as [| c s IH]; intros b; simpl; [constructor | ].
  destruct (isWhiteSpace c) eqn:W.
  - destruct b; [apply IH | ]. constructor; [reflexivity | apply IH].
  - constructor; [congruence | apply IH].
Qed.

Lemma squeeze_noDouble s : forall b,
  noDoubleSpace (squeeze b s) = true
  /\ (b = true -> starts_inked (squeeze b s)).
Proof.
  induction s as [| c s IH]; intros b; simpl; [auto | ].
  destruct (isWhiteSpace c) eqn:W.
  - destruct b; [apply IH | ].
    destruct (IH true) as [N1 H1]. specialize (H1 eq_refl).
    split; [ | discriminate]. cbn [noDoubleSpace]. rewrite N1.
    destruct (squeeze true s) as [| d t]; [reflexivity | ].
    simpl in H1. rewrite (white_not_32 _ H1). reflexivity.
  - destruct (IH false) as [N1 _]. split; [ | intros _; exact W].
    cbn [noDoubleSpace]. rewrite N1, (white_not_32 _ W).
    now destruct (squeeze false s).
Qed.

Lemma trimStart_skipn s : exists k, trimStart s = skipn k s.
Proof.
  induction s as [| c s [k IH]]; [exists O; reflexivity | ]. simpl.
  destruct (isWhiteSpace c); [exists (S k); exact IH | exists O; reflexivity].
Qed.

Lemma trimStart_inked s : starts_inked (trimStart s).
Proof.
  induction s as [| c s IH]; simpl; [exact I | ].
  destruct (isWhiteSpace c) eqn:W; [exact IH | exact W].
Qed.

Lemma trimStart_id s : starts_inked s -> trimStart s = s.
Proof. destruct s as [| c s]; simpl; [reflexivity | ]. now intros ->. Qed.

Lemma trimStart_idem s : trimStart (trimStart s) = trimStart s.
Proof. apply trimStart_id, trimStart_inked. Qed.

Lemma trimEnd_firstn s : exists k, trimEnd s = firstn k s.
Proof.
  unfold trimEnd. destruct (trimStart_skipn (rev s)) as [k ->].
  exists (length s - k)%nat.
  now rewrite skipn_rev, rev_involutive.
Qed.

Lemma firstn_inked k s : starts_inked s -> starts_inked (firstn k s).
Proof. destruct k, s; simpl; auto. Qed.

Lemma trimEnd_idem s : trimEnd (trimEnd s) = trimEnd s.
Proof. unfold trimEnd. now rewrite rev_involutive, trimStart_idem. Qed.

Lemma trim_trim s : trim (trim s) = trim s.
Proof.
  unfold trim. set (u := trimStart s).
  assert (E : trimStart (trimEnd u) = trimEnd u).
  { apply trimStart_id. destruct (trimEnd_firstn u) as [k ->].
    apply firstn_inked, trimStart_inked. }
  now rewrite E, trimEnd_idem.
Qed.

Lemma noDouble_tail c s : noDoubleSpace (c :: s) = true -> noDoubleSpace s = true.
Proof. cbn [noDoubleSpace]. rewrite andb_true_iff. tauto. Qed.

Lemma noDouble_skipn k : forall s,
  noDoubleSpace s = true -> noDoubleSpace (skipn k s) = true.
Proof.
  induction k as [| k IH]; intros s H; [exact H | ].
  destruct s as [| c s]; [exact H | ]. simpl. apply IH.
  now apply noDouble_tail in H.
Qed.

Lemma noDouble_firstn k : forall s,
  noDoubleSpace s = true -> noDoubleSpace (firstn k s) = true.
Proof.
  induction k as [| k IH]; intros s H; [reflexivity | ].
  destruct s as [| c s]; [reflexivity | ].
  cbn [firstn noDoubleSpace]. rewrite IH by (now apply noDouble_tail in H).
  rewrite andb_true_r. cbn [noDoubleSpace] in H.
  apply andb_true_iff in H. destruct H as [H _].
  destruct k, s; simpl; auto.
Qed.

Lemma Forall_skipn_ {A} (P : A -> Prop) k : forall l,
  Forall P l -> Forall P (skipn k l).
Proof.
  induction k as [| k IH]; intros l H; [exact H | ].
  destruct l; [exact H | ]. simpl. apply IH. now inversion H.
Qed.

Lemma Forall_firstn_ {A} (P : A -> Prop) k : forall l,
  Forall P l -> Forall P (firstn k l).
Proof.
  induction k as [| k IH]; intros l H; [constructor | ].
  destruct l; [constructor | ]. simpl. inversion H; subst.
  constructor; auto.
Qed.

Lemma trim_infix s : exists j k, trim s = firstn k (skipn j s).
Proof.
  unfold trim. destruct (trimStart_skipn s) as [j Ej].
  destruct (trimEnd_firstn (trimStart s)) as [k Ek].
  exists j, k. now rewrite Ek, Ej.
Qed.

Lemma cleanText_clean s : clean (cleanText s).
Proof.
  rewrite cleanText_eq. destruct (trim_infix (squeeze false s)) as (j & k & E).
  split; [ | split].
  - rewrite E. apply Forall_firstn_, Forall_skipn_, squeeze_only_spaces.
  - rewrite E. apply noDouble_firstn, noDouble_skipn, squeeze_noDouble.
  - apply trim_trim.
Qed.

Lemma squeeze_start_inked s : starts_inked s -> squeeze true s = squeeze false s.
Proof. destruct s as [| c s]; simpl; [reflexivity | ]. now intros ->. Qed.

Lemma squeeze_id t :
  Forall (fun c => isWhiteSpace c = true -> c = 32%N) t ->
  noDoubleSpace t = true -> squeeze false t = t.
Proof.
  induction t as [| c t IH]; intros Hf Hn; [reflexivity | ].
  inversion Hf as [| ? ? Hc Hf']; subst.
  pose proof (noDouble_tail _ _ Hn) as Hn'.
  cbn [squeeze]. destruct (isWhiteSpace c) eqn:W.
  - rewrite (Hc eq_refl) in *. f_equal.
    rewrite squeeze_start_inked; [now apply IH | ].
    destruct t as [| d t]; [exact I | ]. simpl.
    cbn [noDoubleSpace] in Hn. apply andb_true_iff in Hn.
    destruct Hn as [Hn _]. inversion Hf' as [| ? ? Hd _]; subst.
    destruct (isWhiteSpace d); [ | reflexivity].
    rewrite (Hd eq_refl) in Hn. discriminate.
  - f_equal. now apply IH.
Qed.

Lemma cleanText_fixed t : clean t -> cleanText t = t.
Proof.
  intros (Hf & Hn & Ht). rewrite cleanText_eq, squeeze_id by assumption.
  exact Ht.
Qed.

Lemma inked_squeeze s : forall b, inked (squeeze b s) = inked s.
Proof.
  unfold inked. induction s as [| c s IH]; intros b; simpl; [reflexivity | ].
  destruct (isWhiteSpace c) eqn:W; simpl.
  - destruct b; [apply IH | ]. simpl. apply IH.
  - rewrite W. simpl. f_equal. apply IH.
Qed.

Lemma inked_trimStart s : inked (trimStart s) = inked s.
Proof.
  unfold inked. induction s as [| c s IH]; simpl; [reflexivity | ].
  destruct (isWhiteSpace c) eqn:W; simpl; [exact IH | now rewrite W].
Qed.

Lemma inked_rev s : inked (rev s) = rev (inked s).
Proof.
  unfold inked. induction s as [| c s IH]; simpl; [reflexivity | ].
  rewrite List.filter_app, IH. simpl.
  destruct (negb (isWhiteSpace c)); simpl; [reflexivity | now rewrite app_nil_r].
Qed.

Lemma inked_trim s : inked (trim s) = inked s.
Proof.
  unfold trim, trimEnd.
  now rewrite inked_rev, inked_trimStart, inked_rev, rev_involutive,
    inked_trimStart.
Qed.

Lemma inked_cleanText s : inked (cleanText s) = inked s.
Proof. now rewrite cleanText_eq, inked_trim, inked_squeeze. Qed.

Lemma inked_nil s : inked s = [] <-> Forall (fun c => isWhiteSpace c = true) s.
Proof.
  unfold inked. induction s as [| c s IH]; simpl.
  - split; auto.
  - destruct (isWhiteSpace c) eqn:W; simpl.
    + rewrite IH. split; [intros H; constructor; auto | intros H; now inversion H].
    + split; [discriminate | intros H; inversion H; congruence].
Qed.

Lemma cleanText_nil s :
  cleanText s = [] <-> Forall (fun c => isWhiteSpace c = true) s.
Proof.
  rewrite <- inked_nil, <- inked_cleanText. split.
  - now intros ->.
  - intros H. destruct (cleanText_clean s) as (_ & _ & Ht).
    destruct (cleanText s) as [| c t] eqn:E; [reflexivity | ].
    exfalso. unfold trim in Ht.
    pose proof (trimStart_inked (c :: t)) as Hi.
    destruct (trimEnd_firstn (trimStart (c :: t))) as [k Ek].
    assert (Hs : starts_inked (c :: t)).
    { rewrite <- Ht, Ek. now apply firstn_inked. }
    simpl in Hs. unfold inked in H. simpl in H. rewrite Hs in H. discriminate.
Qed.

(* ---------- parseLocaleNumber ---------- *)

Lemma replace_all_dot s : replace_all re_dot [] s = undotted s.
Proof.
  unfold re_dot. rewrite replace_all_char. unfold undotted.
  induction s as [| x s IH]; simpl; [reflexivity | ].
  rewrite IH. now destruct (x =? 46)%N.
Qed.

Lemma digit_not c x :
  isDigit c = true -> (x < 48 \/ 57 < x)%N -> (c =? x)%N = false.
Proof.
  unfold isDigit. rewrite andb_true_iff, !N.leb_le. intros [H1 H2] H.
  apply N.eqb_neq. lia.
Qed.

Lemma replace_first_char_digits c repl ip rest :
  forallb isDigit ip = true -> (c < 48 \/ 57 < c)%N ->
  replace_first_char c repl (ip ++ c :: rest) = ip ++ repl ++ rest.
Proof.
  intros Hd Hc. induction ip as [| x ip IH]; simpl.
  - now rewrite N.eqb_refl.
  - simpl in Hd. apply andb_true_iff in Hd. destruct Hd as [Hx Hd].
    rewrite (digit_not x c Hx Hc). f_equal. now apply IH.
Qed.

Lemma indexOf_char_digits c ip rest :
  forallb isDigit ip = true -> (c < 48 \/ 57 < c)%N ->
  indexOf_char c (ip ++ c :: rest) = Some (length ip).
Proof.
  intros Hd Hc. induction ip as [| x ip IH]; simpl.
  - now rewrite N.eqb_refl.
  - simpl in Hd. apply andb_true_iff in Hd. destruct Hd as [Hx Hd].
    rewrite (digit_not x c Hx Hc), IH by assumption. reflexivity.
Qed.

Lemma indexOf_char_none c s :
  forallb isDigit s = true -> (c < 48 \/ 57 < c)%N ->
  indexOf_char c s = None.
Proof.
  intros Hd Hc. induction s as [| x s IH]; simpl; [reflexivity | ].
  simpl in Hd. apply andb_true_iff in Hd. destruct Hd as [Hx Hd].
  rewrite (digit_not x c Hx Hc), IH by assumption. reflexivity.
Qed.

Lemma replace_first_char_none c repl s :
  forallb isDigit s = true -> (c < 48 \/ 57 < c)%N ->
  replace_first_char c repl s = s.
Proof.
  intros Hd Hc. induction s as [| x s IH]; simpl; [reflexivity | ].
  simpl in Hd. apply andb_true_iff in Hd. destruct Hd as [Hx Hd].
  rewrite (digit_not x c Hx Hc), IH by assumption. reflexivity.
Qed.

Lemma parseLocaleNumber_decimal value ip fp :
  forallb isDigit ip = true -> forallb isDigit fp = true ->
  (ip <> [] \/ fp <> []) ->
  undotted value = ip ++ [44%N] ++ fp ->
  parseLocaleNumber value
  = NumDec (Z.to_N (Number_of_digits (ip ++ fp))) (length fp).
Proof.
  intros Hi Hf Hne Hv. unfold parseLocaleNumber.
  rewrite replace_all_dot, Hv. cbn [app].
  rewrite replace_first_char_digits by (auto; lia).
  unfold Number_decimal. cbn [js list_ascii_of_string List.map app].
  change (N_of_ascii "."%char) with 46%N.
  rewrite indexOf_char_digits by (auto; lia).
  rewrite firstn_app, Nat.sub_diag, firstn_all, app_nil_r.
  replace (skipn (S (length ip)) (ip ++ 46%N :: fp)) with fp.
  2:{ change (S (length ip)) with (1 + length ip)%nat.
      rewrite <- skipn_skipn, skipn_app, Nat.sub_diag, skipn_all.
      reflexivity. }
  rewrite Hi, Hf. cbn [andb].
  destruct ip, fp; try reflexivity. destruct Hne; congruence.
Qed.

Lemma parseLocaleNumber_integer value ds :
  forallb isDigit ds = true -> undotted value = ds ->
  parseLocaleNumber value = NumDec (Z.to_N (Number_of_digits ds)) 0.
Proof.
  intros Hd Hv. unfold parseLocaleNumber.
  rewrite replace_all_dot, Hv.
  rewrite replace_first_char_none by (auto; lia).
  unfold Number_decimal. rewrite indexOf_char_none by (auto; lia).
  now rewrite Hd.
Qed.

(** ** Dish rows and meals *)

Lemma push_meal_meals meal cats :
  cats <> [] ->
  flat_map meals (push_meal meal cats) = flat_map meals cats ++ [meal].
Proof.
  induction cats as [| c cats IH]; intros Hne; [congruence | ].
  destruct cats as [| c' cats].
  - simpl. now rewrite !app_nil_r.
  - change (push_meal meal (c :: c' :: cats))
      with (c :: push_meal meal (c' :: cats)).
    cbn [flat_map]. rewrite IH by discriminate.
    cbn [flat_map]. now rewrite !app_assoc.
Qed.

Lemma push_meal_titles meal cats :
  List.map cat_title (push_meal meal cats) = List.map cat_title cats.
Proof.
  induction cats as [| c cats IH]; [reflexivity | ].
  destruct cats as [| c' cats]; [reflexivity | ].
  change (push_meal meal (c :: c' :: cats))
    with (c :: push_meal meal (c' :: cats)).
  cbn [List.map]. now rewrite IH.
Qed.

Lemma push_meal_nonempty meal cats : cats <> [] -> push_meal meal cats <> [].
Proof.
  destruct cats as [| c [| c' cats]]; simpl; congruence.
Qed.

Lemma uncategorized_clean : clean (js "Uncategorized").
Proof.
  split; [ | split]; try reflexivity.
  repeat (constructor; [vm_compute; discriminate | ]). constructor.
Qed.

(** What one child node keeps: the meals so far with the meal of the
    node after them, a category list that is not empty once [current] is
    set, and cleaned titles. *)
Lemma parseDishRow_node_inv cats current node cats' current' :
  parseDishRow_node (cats, current) node = (cats', current') ->
  (current = true -> cats <> []) ->
  Forall (fun c => clean (cat_title c)) cats ->
  flat_map meals cats'
  = flat_map meals cats ++ List.map parseMeal (node_items node)
  /\ (current' = true -> cats' <> [])
  /\ Forall (fun c => clean (cat_title c)) cats'.
Proof.
  intros H Hc Ht. destruct node as [| tagName text hasItem it];
    cbn [parseDishRow_node node_items] in *.
  - injection H as <- <-. rewrite app_nil_r. auto.
  - destruct (jsstring_eqb (toLowerCase tagName) (js "h3")).
    + injection H as <- <-. rewrite flat_map_app. simpl.
      split; [reflexivity | split].
      * intros _ E. now apply app_eq_nil in E as [_ E].
      * apply Forall_app. split; [exact Ht | ].
        constructor; [apply cleanText_clean | constructor].
    + destruct hasItem.
      * injection H as <- <-.
        set (cats1 := if current then cats
                      else cats ++ [{| cat_title := js "Uncategorized";
                                       meals := [] |}]).
        assert (N1 : cats1 <> []).
        { unfold cats1. destruct current; [now apply Hc | ].
          intros E. now apply app_eq_nil in E as [_ E]. }
        assert (M1 : flat_map meals cats1 = flat_map meals cats).
        { unfold cats1. destruct current; [reflexivity | ].
          rewrite flat_map_app. simpl. now rewrite !app_nil_r. }
        assert (T1 : Forall (fun c => clean (cat_title c)) cats1).
        { unfold cats1. destruct current; [exact Ht | ].
          apply Forall_app. split; [exact Ht | ].
          constructor; [apply uncategorized_clean | constructor]. }
        split; [ | split].
        -- rewrite push_meal_meals by exact N1. now rewrite M1.
        -- intros _. now apply push_meal_nonempty.
        -- rewrite <- (List.Forall_map cat_title (fun t => clean t)).
           rewrite push_meal_titles.
           now rewrite (List.Forall_map cat_title (fun t => clean t)).
      * injection H as <- <-. rewrite app_nil_r. auto.
Qed.

Lemma parseDishRow_nodes_inv column : forall cats current,
  (current = true -> cats <> []) ->
  Forall (fun c => clean (cat_title c)) cats ->
  let st := fold_left parseDishRow_node column (cats, current) in
  flat_map meals (fst st)
  = flat_map meals cats ++ List.map parseMeal (flat_map node_items column)
  /\ (snd st = true -> fst st <> [])
  /\ Forall (fun c => clean (cat_title c)) (fst st).
Proof.
  induction column as [| node column IH]; intros cats current Hc Ht.
  - simpl. rewrite app_nil_r. auto.
  - cbn [fold_left flat_map].
    destruct (parseDishRow_node (cats, current) node) as [cats' current'] eqn:E.
    destruct (parseDishRow_node_inv _ _ _ _ _ E Hc Ht) as (M & C & T).
    destruct (IH cats' current' C T) as (M2 & C2 & T2).
    split; [ | auto]. rewrite M2, M, List.map_app, app_assoc. reflexivity.
Qed.

Lemma parseDishRow_columns_inv row : forall cats,
  Forall (fun c => clean (cat_title c)) cats ->
  flat_map meals (fold_left parseDishRow_column row cats)
  = flat_map meals cats ++ List.map parseMeal (row_items row)
  /\ Forall (fun c => clean (cat_title c))
            (fold_left parseDishRow_column row cats).
Proof.
  induction row as [| column row IH]; intros cats Ht.
  - simpl. unfold row_items. simpl. rewrite app_nil_r. auto.
  - cbn [fold_left]. unfold parseDishRow_column at 2 4.
    destruct (parseDishRow_nodes_inv column cats false) as (M & _ & T);
      [discriminate | exact Ht | ].
    destruct (IH _ T) as (M2 & T2). split; [ | exact T2].
    rewrite M2, M. unfold row_items. cbn [flat_map].
    rewrite List.map_app, app_assoc. reflexivity.
Qed.

Lemma flat_map_meals_filter cats :
  flat_map meals
    (List.filter (fun category => (0 <? length (meals category))%nat) cats)
  = flat_map meals cats.
Proof.
  induction cats as [| c cats IH]; [reflexivity | ]. simpl.
  destruct (meals c) as [| m ms] eqn:E; simpl.
  - exact IH.
  - now rewrite E, IH.
Qed.

Lemma parseDishRow_meals row :
  flat_map meals (parseDishRow row) = List.map parseMeal (row_items row).
Proof.
  unfold parseDishRow. rewrite flat_map_meals_filter.
  destruct (parseDishRow_columns_inv row []) as [M _]; [constructor | ].
  exact M.
Qed.

Lemma parseDishRow_categories row :
  Forall (fun c => meals c <> [] /\ clean (cat_title c)) (parseDishRow row).
Proof.
  unfold parseDishRow.
  destruct (parseDishRow_columns_inv row []) as [_ T]; [constructor | ].
  apply List.Forall_forall. intros c Hc. apply List.filter_In in Hc.
  destruct Hc as [Hin Hm]. rewrite List.Forall_forall in T. split; [ | auto].
  destruct (meals c); [discriminate | discriminate].
Qed.

Lemma parseDishRow_no_items row : row_items row = [] -> parseDishRow row = [].
Proof.
  intros H. pose proof (parseDishRow_meals row) as M. rewrite H in M.
  pose proof (parseDishRow_categories row) as C.
  destruct (parseDishRow row) as [| c cs]; [reflexivity | ].
  inversion C as [| ? ? [Hne _] _]; subst. simpl in M.
  destruct (meals c); [congruence | discriminate].
Qed.

(* ---------- parseMeal ---------- *)

Lemma split_char_nonempty c s : split_char c s <> [].
Proof.
  destruct s as [| x s]; simpl; [discriminate | ].
  destruct (split_char c s); [discriminate | ].
  destruct (x =? c)%N; discriminate.
Qed.

Lemma split_char_no_sep c s : Forall (fun p => ~ In c p) (split_char c s).
Proof.
  induction s as [| x s IH]; simpl.
  - constructor; [tauto | constructor].
  - pose proof (split_char_nonempty c s) as Hne.
    destruct (split_char c s) as [| piece rest]; [congruence | ].
    inversion IH as [| ? ? Hp Hr]; subst.
    destruct (N.eqb_spec x c).
    + constructor; [tauto | now constructor].
    + constructor; [ | exact Hr]. simpl. intros [E | E]; [congruence | tauto].
Qed.

Lemma In_inked c s : isWhiteSpace c = false -> In c s <-> In c (inked s).
Proof.
  intros W. unfold inked. rewrite List.filter_In. rewrite W. simpl. tauto.
Qed.

Lemma cleanText_keeps c s :
  isWhiteSpace c = false -> In c (cleanText s) <-> In c s.
Proof.
  intros W. now rewrite (In_inked c (cleanText s) W), inked_cleanText,
    <- (In_inked c s W).
Qed.

Lemma parseMeal_text item :
  clean (title (parseMeal item))
  /\ Forall (fun a => a <> [] /\ clean a /\ ~ In 44%N a)
            (allergens (parseMeal item))
  /\ (allergensRaw (parseMeal item) = None -> allergens (parseMeal item) = [])
  /\ (cleanText (item_small_text item) = [] ->
      allergensRaw (parseMeal item) = None).
Proof.
  unfold parseMeal. cbn [title allergens allergensRaw].
  set (raw := replace_all re_parens [] (cleanText (item_small_text item))).
  split; [apply cleanText_clean | split; [ | split]].
  - destruct (0 <? length raw)%nat; [ | constructor].
    apply List.Forall_forall. intros a Ha. apply List.filter_In in Ha.
    destruct Ha as [Ha Hne]. apply in_map_iff in Ha.
    destruct Ha as (p & <- & Hp). split; [ | split].
    + destruct (cleanText p); [discriminate | discriminate].
    + apply cleanText_clean.
    + rewrite cleanText_keeps by reflexivity.
      pose proof (split_char_no_sep 44 raw) as F.
      rewrite List.Forall_forall in F. now apply F.
  - destruct (0 <? length raw)%nat; [discriminate | reflexivity].
  - intros E. unfold raw. rewrite E. reflexivity.
Qed.

(** ** Date strings *)

Lemma pad4_all : forallb (fun k => pad_ok 4 (Z.of_nat k)) (seq 0 (Z.to_nat 10000)) = true.
Proof. vm_compute. reflexivity. Qed.

Lemma pad2_all : forallb (fun k => pad_ok 2 (Z.of_nat k)) (seq 0 (Z.to_nat 100)) = true.
Proof. vm_compute. reflexivity. Qed.

Lemma pad4_ok z : 0 <= z <= 9999 -> pad_ok 4 z = true.
Proof.
  intros H. pose proof pad4_all as A. rewrite forallb_forall in A.
  specialize (A (Z.to_nat z)). rewrite Z2Nat.id in A by lia.
  apply A. apply in_seq. lia.
Qed.

Lemma pad2_ok z : 0 <= z <= 99 -> pad_ok 2 z = true.
Proof.
  intros H. pose proof pad2_all as A. rewrite forallb_forall in A.
  specialize (A (Z.to_nat z)). rewrite Z2Nat.id in A by lia.
  apply A. apply in_seq. lia.
Qed.

Lemma pad_ok_4 z : pad_ok 4 z = true ->
  exists c1 c2 c3 c4, pad 4 z = [c1; c2; c3; c4]
    /\ forallb isDigit [c1; c2; c3; c4] = true
    /\ Number_of_digits [c1; c2; c3; c4] = z.
Proof.
  unfold pad_ok. rewrite !andb_true_iff, Nat.eqb_eq, Z.eqb_eq.
  intros [[L D] V].
  destruct (pad 4 z) as [| c1 [| c2 [| c3 [| c4 [| c5 t]]]]]; try discriminate.
  exists c1, c2, c3, c4. auto.
Qed.

Lemma pad_ok_2 z : pad_ok 2 z = true ->
  exists c1 c2, pad 2 z = [c1; c2]
    /\ forallb isDigit [c1; c2] = true
    /\ Number_of_digits [c1; c2] = z.
Proof.
  unfold pad_ok. rewrite !andb_true_iff, Nat.eqb_eq, Z.eqb_eq.
  intros [[L D] V].
  destruct (pad 2 z) as [| c1 [| c2 [| c3 t]]]; try discriminate.
  exists c1, c2. auto.
Qed.

Lemma daysInMonth_le_31 y m : daysInMonth y m <= 31.
Proof.
  unfold daysInMonth. destruct (isLeapYear y);
    destruct m as [| p | p]; try lia;
    do 4 (destruct p as [p | p |]; try lia).
Qed.

(** [formatIsoDate] for the years 0 to 9999. *)
Lemma formatIsoDate_isoText d :
  0 <= YearFromTime d <= 9999 ->
  formatIsoDate d
  = isoText (YearFromTime d) (MonthFromTime d + 1) (DateFromTime d).
Proof.
  intros Hy. unfold formatIsoDate, toISOString, isoText.
  pose proof (MonthFromTime_range d) as Hm.
  pose proof (DateFromTime_range d) as Hd.
  pose proof (daysInMonth_le_31 (YearFromTime d) (MonthFromTime d)) as Hd'.
  replace ((0 <=? YearFromTime d) && (YearFromTime d <=? 9999)) with true
    by (symmetry; apply andb_true_iff; split; apply Z.leb_le; lia).
  destruct (pad_ok_4 _ (pad4_ok _ Hy)) as (y1 & y2 & y3 & y4 & -> & _ & _).
  destruct (pad_ok_2 (MonthFromTime d + 1)) as (m1 & m2 & -> & _ & _);
    [apply pad2_ok; lia | ].
  destruct (pad_ok_2 (DateFromTime d)) as (d1 & d2 & -> & _ & _);
    [apply pad2_ok; lia | ].
  reflexivity.
Qed.

Lemma parseIsoDay_isoText y m d :
  0 <= y <= 9999 -> 1 <= m <= 12 -> 1 <= d <= daysInMonth y (m - 1) ->
  parseIsoDay (isoText y m d) = Some (MakeDate (MakeDay y (m - 1) d) 0).
Proof.
  intros Hy Hm Hd. unfold isoText.
  pose proof (daysInMonth_le_31 y (m - 1)) as Hd'.
  destruct (pad_ok_4 _ (pad4_ok _ Hy)) as (y1 & y2 & y3 & y4 & -> & Dy & Vy).
  destruct (pad_ok_2 m) as (m1 & m2 & -> & Dm & Vm); [apply pad2_ok; lia | ].
  destruct (pad_ok_2 d) as (d1 & d2 & -> & Dd & Vd); [apply pad2_ok; lia | ].
  cbn [js list_ascii_of_string List.map app].
  change (N_of_ascii "-"%char) with 45%N.
  unfold parseIsoDay. cbn [N.eqb andb]. rewrite Vy, Vm, Vd.
  cbn [forallb] in Dy, Dm, Dd.
  rewrite !andb_true_iff in Dy. rewrite !andb_true_iff in Dm.
  rewrite !andb_true_iff in Dd.
  destruct Dy as (A1 & A2 & A3 & A4 & _), Dm as (B1 & B2 & _),
    Dd as (C1 & C2 & _).
  cbn [forallb]. rewrite A1, A2, A3, A4, B1, B2, C1, C2. cbn [andb].
  rewrite Pos.eqb_refl. cbn [andb].
  replace ((1 <=? m) && (m <=? 12) && (1 <=? d) && (d <=? daysInMonth y (m - 1)))
    with true; [reflexivity | ].
  symmetry. rewrite !andb_true_iff, !Z.leb_le. lia.
Qed.

(** The string [formatIsoDate] gives is read back as the day. *)
Lemma parseIsoDay_formatIsoDate d :
  0 <= YearFromTime d <= 9999 ->
  parseIsoDay (formatIsoDate d) = Some (MakeDate (Day d) 0).
Proof.
  intros Hy. rewrite formatIsoDate_isoText by exact Hy.
  pose proof (MonthFromTime_range d) as Hm.
  pose proof (DateFromTime_range d) as Hd.
  rewrite parseIsoDay_isoText; try lia.
  - replace (MonthFromTime d + 1 - 1) with (MonthFromTime d) by lia.
    now rewrite MakeDay_fields.
  - replace (MonthFromTime d + 1 - 1) with (MonthFromTime d) by lia. exact Hd.
Qed.

(* ---------- the order of date strings ---------- *)

Lemma Number_of_digits_acc a : forall acc,
  fold_left (fun acc c => 10 * acc + digit_value c) a acc
  = acc * 10 ^ Z.of_nat (length a) + Number_of_digits a.
Proof.
  unfold Number_of_digits.
  induction a as [| x a IH]; intros acc.
  - simpl. lia.
  - cbn [fold_left length]. rewrite IH, (IH (10 * 0 + digit_value x)).
    rewrite Nat2Z.inj_succ, Z.pow_succ_r by lia. lia.
Qed.

Lemma Number_of_digits_cons x a :
  Number_of_digits (x :: a)
  = digit_value x * 10 ^ Z.of_nat (length a) + Number_of_digits a.
Proof.
  unfold Number_of_digits at 1. cbn [fold_left].
  rewrite Number_of_digits_acc. lia.
Qed.

Lemma Number_of_digits_bound a :
  forallb isDigit a = true ->
  0 <= Number_of_digits a < 10 ^ Z.of_nat (length a).
Proof.
  induction a as [| x a IH]; intros H.
  - simpl. unfold Number_of_digits. simpl. lia.
  - cbn [forallb] in H. apply andb_true_iff in H. destruct H as [Hx Ha].
    rewrite Number_of_digits_cons. cbn [length].
    rewrite Nat2Z.inj_succ, Z.pow_succ_r by lia.
    pose proof (digit_value_range x Hx). specialize (IH Ha). nia.
Qed.

Lemma digit_value_compare x y :
  N.compare x y = Z.compare (digit_value x) (digit_value y).
Proof.
  unfold digit_value. rewrite <- N2Z.inj_compare.
  destruct (Z.compare_spec (Z.of_N x) (Z.of_N y));
    symmetry; [apply Z.compare_eq_iff | apply Z.compare_lt_iff
              | apply Z.compare_gt_iff]; lia.
Qed.

(** Digit strings of one length compare as their numbers do. *)
Lemma str_compare_digits a : forall b,
  length a = length b ->
  forallb isDigit a = true -> forallb isDigit b = true ->
  str_compare a b = Z.compare (Number_of_digits a) (Number_of_digits b).
Proof.
  induction a as [| x a IH]; intros [| y b] L Ha Hb; try discriminate.
  - reflexivity.
  - cbn [forallb] in Ha, Hb. apply andb_true_iff in Ha, Hb.
    destruct Ha as [Hx Ha], Hb as [Hy Hb]. injection L as L.
    cbn [str_compare]. rewrite !Number_of_digits_cons, <- L.
    pose proof (Number_of_digits_bound a Ha) as Ba.
    pose proof (Number_of_digits_bound b Hb) as Bb. rewrite <- L in Bb.
    rewrite digit_value_compare, (IH b L Ha Hb).
    set (p := 10 ^ Z.of_nat (length a)) in *.
    destruct (Z.compare_spec (digit_value x) (digit_value y)) as [E | E | E].
    + rewrite E. destruct (Z.compare_spec (Number_of_digits a) (Number_of_digits b));
        symmetry; [apply Z.compare_eq_iff | apply Z.compare_lt_iff
                  | apply Z.compare_gt_iff]; lia.
    + symmetry. apply Z.compare_lt_iff. nia.
    + symmetry. apply Z.compare_gt_iff. nia.
Qed.

Lemma str_compare_app a : forall a' b b',
  length a = length a' ->
  str_compare (a ++ b) (a' ++ b')
  = match str_compare a a' with Eq => str_compare b b' | c => c end.
Proof.
  induction a as [| x a IH]; intros [| y a'] b b' L; try discriminate.
  - reflexivity.
  - injection L as L. cbn [app str_compare].
    destruct (N.compare x y); auto.
Qed.

Lemma str_compare_head x a b :
  str_compare (x :: a) (x :: b) = str_compare a b.
Proof. cbn [str_compare]. now rewrite N.compare_refl. Qed.

Lemma isoText_compare y m d y' m' d' :
  0 <= y <= 9999 -> 0 <= m <= 99 -> 0 <= d <= 99 ->
  0 <= y' <= 9999 -> 0 <= m' <= 99 -> 0 <= d' <= 99 ->
  str_compare (isoText y m d) (isoText y' m' d')
  = match y ?= y' with
    | Eq => match m ?= m' with Eq => d ?= d' | c => c end
    | c => c
    end.
Proof.
  intros Hy Hm Hd Hy' Hm' Hd'. unfold isoText.
  destruct (pad_ok_4 _ (pad4_ok _ Hy)) as (y1 & y2 & y3 & y4 & -> & Dy & Vy).
  destruct (pad_ok_4 _ (pad4_ok _ Hy')) as (z1 & z2 & z3 & z4 & -> & Dz & Vz).
  destruct (pad_ok_2 _ (pad2_ok _ Hm)) as (m1 & m2 & -> & Dm & Vm).
  destruct (pad_ok_2 _ (pad2_ok _ Hm')) as (n1 & n2 & -> & Dn & Vn).
  destruct (pad_ok_2 _ (pad2_ok _ Hd)) as (d1 & d2 & -> & Dd & Vd).
  destruct (pad_ok_2 _ (pad2_ok _ Hd')) as (e1 & e2 & -> & De & Ve).
  rewrite str_compare_app by reflexivity.
  rewrite (str_compare_digits [y1; y2; y3; y4] [z1; z2; z3; z4] eq_refl Dy Dz),
    Vy, Vz.
  destruct (y ?= y'); try reflexivity.
  change (js "-") with [45%N]. cbn [app]. rewrite str_compare_head.
  change ([m1; m2; 45%N; d1; d2]) with ([m1; m2] ++ [45%N; d1; d2]).
  change ([n1; n2; 45%N; e1; e2]) with ([n1; n2] ++ [45%N; e1; e2]).
  rewrite str_compare_app by reflexivity.
  rewrite (str_compare_digits [m1; m2] [n1; n2] eq_refl Dm Dn), Vm, Vn.
  destruct (m ?= m'); try reflexivity.
  rewrite str_compare_head.
  rewrite <- Vd, <- Ve. now apply str_compare_digits.
Qed.

(** A later day has the later year, or in one year the later month, or
    in one month the later date. *)
Lemma monthOfDayInYear_mono leap a b :
  a <= b -> monthOfDayInYear a leap <= monthOfDayInYear b leap.
Proof.
  intros H. unfold monthOfDayInYear.
  repeat (match goal with
          | |- context [if ?x <? ?y then _ else _] =>
              destruct (Z.ltb_spec x y)
          end); lia.
Qed.

Lemma fields_lt a b :
  Day a < Day b ->
  match YearFromTime a ?= YearFromTime b with
  | Eq => match MonthFromTime a + 1 ?= MonthFromTime b + 1 with
          | Eq => DateFromTime a ?= DateFromTime b
          | c => c
          end
  | c => c
  end = Lt.
Proof.
  intros H. unfold YearFromTime.
  pose proof (YearFromDay_spec (Day a)) as Sa.
  pose proof (YearFromDay_spec (Day b)) as Sb.
  destruct (Z.compare_spec (YearFromDay (Day a)) (YearFromDay (Day b)))
    as [E | L | G]; [ | reflexivity | ].
  - assert (Hw : DayWithinYear a < DayWithinYear b).
    { unfold DayWithinYear, YearFromTime. rewrite E. lia. }
    assert (Hl : InLeapYear a = InLeapYear b).
    { unfold InLeapYear, YearFromTime. now rewrite E. }
    unfold MonthFromTime, DateFromTime, MonthFromTime. rewrite Hl.
    pose proof (monthOfDayInYear_mono (InLeapYear b) _ _ (Z.lt_le_incl _ _ Hw))
      as Hm.
    destruct (Z.compare_spec
                (monthOfDayInYear (DayWithinYear a) (InLeapYear b) + 1)
                (monthOfDayInYear (DayWithinYear b) (InLeapYear b) + 1))
      as [Em | Lm | Gm]; [ | reflexivity | lia].
    replace (monthOfDayInYear (DayWithinYear a) (InLeapYear b))
      with (monthOfDayInYear (DayWithinYear b) (InLeapYear b)) by lia.
    apply Z.compare_lt_iff. lia.
  - exfalso.
    assert (DayFromYear (YearFromDay (Day b) + 1)
            <= DayFromYear (YearFromDay (Day a)))
      by (apply DayFromYear_le; lia).
    lia.
Qed.

Lemma fields_of_Day a b :
  Day a = Day b ->
  YearFromTime a = YearFromTime b /\ MonthFromTime a = MonthFromTime b
  /\ DateFromTime a = DateFromTime b.
Proof.
  intros E.
  assert (Ey : YearFromTime a = YearFromTime b)
    by (unfold YearFromTime; now rewrite E).
  assert (Ew : DayWithinYear a = DayWithinYear b)
    by (unfold DayWithinYear; now rewrite E, Ey).
  assert (El : InLeapYear a = InLeapYear b)
    by (unfold InLeapYear; now rewrite Ey).
  assert (Em : MonthFromTime a = MonthFromTime b)
    by (unfold MonthFromTime; now rewrite Ew, El).
  repeat split; auto. unfold DateFromTime. now rewrite Ew, Em, El.
Qed.

Lemma formatIsoDate_lt a b :
  0 <= YearFromTime a <= 9999 -> 0 <= YearFromTime b <= 9999 ->
  Day a < Day b ->
  str_compare (formatIsoDate a) (formatIsoDate b) = Lt.
Proof.
  intros Ha Hb H. rewrite !formatIsoDate_isoText by assumption.
  pose proof (MonthFromTime_range a). pose proof (MonthFromTime_range b).
  pose proof (DateFromTime_range a). pose proof (DateFromTime_range b).
  pose proof (daysInMonth_le_31 (YearFromTime a) (MonthFromTime a)).
  pose proof (daysInMonth_le_31 (YearFromTime b) (MonthFromTime b)).
  rewrite isoText_compare by lia. now apply fields_lt.
Qed.

(** Date strings compare as the days do. *)
Lemma formatIsoDate_compare a b :
  0 <= YearFromTime a <= 9999 -> 0 <= YearFromTime b <= 9999 ->
  str_compare (formatIsoDate a) (formatIsoDate b) = (Day a ?= Day b).
Proof.
  intros Ha Hb. destruct (Z.compare_spec (Day a) (Day b)) as [E | L | G].
  - destruct (fields_of_Day a b E) as (Ey & Em & Ed).
    rewrite !formatIsoDate_isoText by assumption.
    rewrite Ey, Em, Ed. apply str_compare_refl.
  - now apply formatIsoDate_lt.
  - rewrite str_compare_antisym, (formatIsoDate_lt b a) by assumption.
    reflexivity.
Qed.

(* ---------- the calendar fields of Date.UTC ---------- *)

Lemma UTC_fields y m d :
  ~ (0 <= y <= 99) -> 1 <= m <= 12 -> 1 <= d <= daysInMonth y (m - 1) ->
  YearFromTime (UTC y (m - 1) d) = y
  /\ MonthFromTime (UTC y (m - 1) d) = m - 1
  /\ DateFromTime (UTC y (m - 1) d) = d.
Proof.
  intros Hy Hm Hd. rewrite UTC_plain by exact Hy.
  set (leap := if isLeapYear y then 1 else 0).
  assert (Hl : 0 <= leap <= 1) by (unfold leap; destruct (isLeapYear y); lia).
  assert (Ed : MakeDay y (m - 1) d
               = DayFromYear y + (daysBeforeMonth (m - 1) leap + d - 1)).
  { unfold MakeDay. replace ((m - 1) / 12) with 0 by zlia.
    replace ((m - 1) mod 12) with (m - 1) by zlia.
    rewrite Z.add_0_r. fold leap. lia. }
  set (dwy := daysBeforeMonth (m - 1) leap + d - 1) in *.
  assert (Hw : 0 <= dwy < 365 + leap
               /\ monthOfDayInYear dwy leap = m - 1).
  { unfold dwy, daysInMonth, leap in *.
    destruct (isLeapYear y); month_cases m; simpl in *;
      (split; [lia | ]); unfold monthOfDayInYear;
      repeat (match goal with
              | |- context [if ?a <? ?b then _ else _] =>
                  destruct (Z.ltb_spec a b)
              end); lia. }
  destruct Hw as [Hw Hmo].
  assert (Ey : YearFromTime (MakeDate (MakeDay y (m - 1) d) 0) = y).
  { unfold YearFromTime. rewrite Day_MakeDate, Ed.
    apply YearFromDay_unique. rewrite DayFromYear_succ. unfold DaysInYear.
    fold leap. unfold leap in *. destruct (isLeapYear y); lia. }
  assert (El : InLeapYear (MakeDate (MakeDay y (m - 1) d) 0) = leap).
  { unfold InLeapYear. now rewrite Ey. }
  assert (Ew : DayWithinYear (MakeDate (MakeDay y (m - 1) d) 0) = dwy).
  { unfold DayWithinYear. rewrite Ey, Day_MakeDate, Ed. lia. }
  assert (Em : MonthFromTime (MakeDate (MakeDay y (m - 1) d) 0) = m - 1).
  { unfold MonthFromTime. now rewrite Ew, El. }
  split; [exact Ey | split; [exact Em | ]].
  unfold DateFromTime. rewrite Ew, Em, El. unfold dwy. lia.
Qed.

Lemma formatIsoDate_UTC y m d :
  100 <= y <= 9999 -> 1 <= m <= 12 -> 1 <= d <= daysInMonth y (m - 1) ->
  formatIsoDate (UTC y (m - 1) d) = isoText y m d.
Proof.
  intros Hy Hm Hd.
  destruct (UTC_fields y m d) as (Ey & Em & Ed); [lia | lia | exact Hd | ].
  rewrite formatIsoDate_isoText by (rewrite Ey; lia).
  rewrite Ey, Em, Ed. f_equal. lia.
Qed.

(* ---------- extractFirstDate ---------- *)

Lemma rep_digits4 {R} i rest c (k : cont R) :
  rep_greedy CDigit 4 (Some 4%nat) i rest c k =
  match rest with
  | c1 :: c2 :: c3 :: c4 :: rest' =>
      if isDigit c1 && isDigit c2 && isDigit c3 && isDigit c4
      then k (S (S (S (S i)))) rest' c else None
  | _ => None
  end.
Proof.
  destruct rest as [| c1 [| c2 [| c3 [| c4 rest']]]]; simpl; try reflexivity.
  - now destruct (isDigit c1).
  - destruct (isDigit c1); simpl; [ | reflexivity]. now destruct (isDigit c2).
  - destruct (isDigit c1); simpl; [ | reflexivity].
    destruct (isDigit c2); simpl; [ | reflexivity]. now destruct (isDigit c3).
  - destruct (isDigit c1); simpl; [ | reflexivity].
    destruct (isDigit c2); simpl; [ | reflexivity].
    destruct (isDigit c3); simpl; [ | reflexivity].
    destruct (isDigit c4); simpl; [ | reflexivity].
    destruct rest'; simpl; now destruct (k _ _ _).
Qed.

Lemma match_here_fullDate_head i x rest :
  isDigit x = false -> match_here re_fullDate i (x :: rest) = None.
Proof.
  intros H. unfold match_here, re_fullDate, rseq, rdigits.
  cbn [rmatch]. rewrite rep_digits2.
  destruct rest; [reflexivity | ]. now rewrite H.
Qed.

Lemma match_here_fullDate i c1 c2 c3 c4 c5 c6 c7 c8 rest :
  forallb isDigit [c1; c2; c3; c4; c5; c6; c7; c8] = true ->
  match_here re_fullDate i
    (c1 :: c2 :: 46%N :: c3 :: c4 :: 46%N :: c5 :: c6 :: c7 :: c8 :: rest)
  = Some (MkMatch i (10 + i)
            [(3, (6 + i, 10 + i)); (2, (3 + i, 5 + i)); (1, (i, 2 + i))]%nat).
Proof.
  cbn [forallb]. rewrite !andb_true_iff.
  intros (D1 & D2 & D3 & D4 & D5 & D6 & D7 & D8 & _).
  unfold match_here, re_fullDate, rseq, rdigits.
  cbn [rmatch]. rewrite rep_digits2, D1, D2. cbn [andb].
  rewrite rchar_match. cbn [N.eqb Pos.eqb].
  rewrite rep_digits2, D3, D4. cbn [andb].
  rewrite rchar_match. cbn [N.eqb Pos.eqb].
  rewrite rep_digits4, D5, D6, D7, D8. reflexivity.
Qed.

Lemma search_fullDate_skip pre : forall i rest,
  forallb (fun c => negb (isDigit c)) pre = true ->
  rest <> [] ->
  search re_fullDate i (pre ++ rest)
  = search re_fullDate (i + length pre) rest.
Proof.
  induction pre as [| x pre IH]; intros i rest Hp Hr.
  - simpl. now rewrite Nat.add_0_r.
  - cbn [forallb] in Hp. apply andb_true_iff in Hp. destruct Hp as [Hx Hp].
    apply negb_true_iff in Hx. cbn [app search].
    rewrite match_here_fullDate_head by exact Hx.
    rewrite IH by assumption. f_equal. simpl. lia.
Qed.

Lemma slice_app_right (pre rest : jsstring) a b :
  slice (a + length pre) (b + length pre) (pre ++ rest) = slice a b rest.
Proof.
  unfold slice. replace (b + length pre - (a + length pre))%nat with (b - a)%nat
    by lia.
  rewrite skipn_app, Nat.add_sub.
  rewrite (skipn_all2 pre) by lia. reflexivity.
Qed.

(** A heading whose first digits are a date DD.MM.YYYY anchors the
    container at [Date.UTC(YYYY, MM - 1, DD)]. *)
Lemma extractFirstDate_found pre post y m d :
  forallb (fun c => negb (isDigit c)) pre = true ->
  0 <= y <= 9999 -> 0 <= m <= 99 -> 0 <= d <= 99 ->
  extractFirstDate (pre ++ pad 2 d ++ js "." ++ pad 2 m ++ js "."
                        ++ pad 4 y ++ post)
  = Some (UTC y (m - 1) d).
Proof.
  intros Hp Hy Hm Hd.
  destruct (pad_ok_4 _ (pad4_ok _ Hy)) as (y1 & y2 & y3 & y4 & -> & Dy & Vy).
  destruct (pad_ok_2 _ (pad2_ok _ Hm)) as (m1 & m2 & -> & Dm & Vm).
  destruct (pad_ok_2 _ (pad2_ok _ Hd)) as (d1 & d2 & -> & Dd & Vd).
  change (js ".") with [46%N]. cbn [app].
  unfold extractFirstDate, str_match.
  rewrite search_fullDate_skip by (auto; discriminate).
  cbn [search].
  rewrite match_here_fullDate.
  2:{ cbn [forallb] in *. rewrite !andb_true_iff in Dy.
      rewrite !andb_true_iff in Dm. rewrite !andb_true_iff in Dd.
      destruct Dy as (A1 & A2 & A3 & A4 & _), Dm as (B1 & B2 & _),
        Dd as (C1 & C2 & _).
      now rewrite A1, A2, A3, A4, B1, B2, C1, C2. }
  unfold group. cbn [m_caps cap_lookup Nat.eqb].
  set (rest := d1 :: d2 :: 46%N :: m1 :: m2 :: 46%N :: y1 :: y2 :: y3 :: y4
                  :: post).
  replace (slice (0 + length pre) (2 + (0 + length pre)) (pre ++ rest))
    with [d1; d2]
    by (change [d1; d2] with (slice 0 2 rest);
        rewrite <- (slice_app_right pre rest 0 2); f_equal; lia).
  replace (slice (3 + (0 + length pre)) (5 + (0 + length pre)) (pre ++ rest))
    with [m1; m2]
    by (change [m1; m2] with (slice 3 5 rest);
        rewrite <- (slice_app_right pre rest 3 5); f_equal; lia).
  replace (slice (6 + (0 + length pre)) (10 + (0 + length pre)) (pre ++ rest))
    with [y1; y2; y3; y4]
    by (change [y1; y2; y3; y4] with (slice 6 10 rest);
        rewrite <- (slice_app_right pre rest 6 10); f_equal; lia).
  now rewrite Vd, Vm, Vy.
Qed.

(** ** Calendar weeks *)

Lemma thursday_of day : day + (4 - dayNumber day) = 7 * weekIndex day.
Proof. unfold dayNumber, weekIndex. zlia. Qed.

Lemma isoWeek_spec_thursday day :
  isoWeek_spec day
  = (YearFromDay (7 * weekIndex day),
     (7 * weekIndex day - DayFromYear (YearFromDay (7 * weekIndex day)) + 7) / 7).
Proof.
  unfold isoWeek_spec. rewrite thursday_of. f_equal. f_equal. lia.
Qed.

Lemma YearFromDay_mono d1 d2 : d1 <= d2 -> YearFromDay d1 <= YearFromDay d2.
Proof.
  intros H. pose proof (YearFromDay_spec d1) as S1.
  pose proof (YearFromDay_spec d2) as S2.
  destruct (Z.le_gt_cases (YearFromDay d1) (YearFromDay d2)); [assumption | ].
  assert (DayFromYear (YearFromDay d2 + 1) <= DayFromYear (YearFromDay d1))
    by (apply DayFromYear_le; lia).
  lia.
Qed.

(** Days at most three apart are in the same or in neighbouring years. *)
Lemma YearFromDay_near d t :
  d - 3 <= t <= d + 3 ->
  YearFromDay d - 1 <= YearFromDay t <= YearFromDay d + 1.
Proof.
  intros H. pose proof (YearFromDay_spec d) as Sd.
  pose proof (YearFromDay_spec t) as St.
  pose proof (DayFromYear_succ (YearFromDay d)) as E1.
  pose proof (DayFromYear_succ (YearFromDay d - 1)) as E0.
  replace (YearFromDay d - 1 + 1) with (YearFromDay d) in E0 by lia.
  pose proof (DaysInYear_cases (YearFromDay d)) as C1.
  pose proof (DaysInYear_cases (YearFromDay d - 1)) as C0.
  split.
  - destruct (Z.le_gt_cases (YearFromDay d - 1) (YearFromDay t));
      [assumption | ].
    assert (DayFromYear (YearFromDay t + 1) <= DayFromYear (YearFromDay d - 1))
      by (apply DayFromYear_le; lia).
    lia.
  - destruct (Z.le_gt_cases (YearFromDay t) (YearFromDay d + 1));
      [assumption | ].
    pose proof (DayFromYear_succ (YearFromDay d + 1)) as E2.
    pose proof (DaysInYear_cases (YearFromDay d + 1)) as C2.
    assert (DayFromYear (YearFromDay d + 1 + 1) <= DayFromYear (YearFromDay t))
      by (apply DayFromYear_le; lia).
    lia.
Qed.

Lemma weekIndex_near day : day - 3 <= 7 * weekIndex day <= day + 3.
Proof. unfold weekIndex. zlia. Qed.

(** From the year 101 on, [isoWeek] is the rule on the Thursday of the
    week. *)
Lemma isoWeek_thursday date :
  101 <= getUTCFullYear date ->
  isoWeek date
  = (YearFromDay (7 * weekIndex (Day date)),
     (7 * weekIndex (Day date)
      - DayFromYear (YearFromDay (7 * weekIndex (Day date))) + 7) / 7).
Proof.
  intros Hy. unfold getUTCFullYear in Hy.
  pose proof (YearFromDay_near (Day date) _ (weekIndex_near (Day date))) as N.
  fold (YearFromTime date) in N.
  rewrite isoWeek_spec_eq; [apply isoWeek_spec_thursday | lia | ].
  rewrite isoWeek_spec_thursday. simpl. lia.
Qed.

Lemma isoWeek_range date :
  101 <= getUTCFullYear date ->
  1 <= snd (isoWeek date) <= 53
  /\ getUTCFullYear date - 1 <= fst (isoWeek date) <= getUTCFullYear date + 1.
Proof.
  intros Hy. rewrite isoWeek_thursday by exact Hy. cbn [fst snd].
  set (t := 7 * weekIndex (Day date)).
  pose proof (YearFromDay_spec t) as S.
  pose proof (DayFromYear_succ (YearFromDay t)) as E.
  pose proof (DaysInYear_cases (YearFromDay t)) as C.
  pose proof (YearFromDay_near (Day date) t (weekIndex_near (Day date))) as N.
  unfold getUTCFullYear, YearFromTime. split; [zlia | exact N].
Qed.

(** Two days get the same ISO year and week exactly when they lie in the
    same week, Monday to Sunday. *)
Lemma isoWeek_same_week a b :
  101 <= getUTCFullYear a -> 101 <= getUTCFullYear b ->
  (isoWeek a = isoWeek b <-> weekIndex (Day a) = weekIndex (Day b)).
Proof.
  intros Ha Hb. rewrite !isoWeek_thursday by assumption.
  split.
  - intros H. injection H as Hy Hw.
    set (ta := 7 * weekIndex (Day a)) in *.
    set (tb := 7 * weekIndex (Day b)) in *.
    rewrite <- Hy in Hw.
    assert (ta = tb); [ | lia].
    revert Hw. generalize (DayFromYear (YearFromDay ta)). intros J Hw.
    unfold ta, tb in *. zlia.
  - intros ->. reflexivity.
Qed.

(** ** Day maps and the transposed week *)

(* ---------- convertDaysToMap ---------- *)









(* ---------- buildDayGroupedWeek: the entries ---------- *)












(** ** Written files *)

(* ---------- writeJsonFile ---------- *)


Lemma writeJsonFile_written p j w :
  written (writeJsonFile p j w)
  = written w ++ (if bool_decide (files w !! p = Some (stringify j ++ [10%N]))
                  then [] else [p]).
Proof.
  unfold writeJsonFile. case_bool_decide; cbn [written];
    [now rewrite app_nil_r | reflexivity].
Qed.

(* ---------- main: what is written ---------- *)

Lemma write_targets_written ts : forall w,
  List.NoDup (List.map fst ts) ->
  (forall p, In p (written w) -> ~ In p (List.map fst ts)) ->
  List.NoDup (written w) ->
  List.NoDup (written (fold_left write_target ts w))
  /\ (forall p, In p (written (fold_left write_target ts w)) ->
        In p (written w) \/ In p (List.map fst ts)).
Proof.
  induction ts as [| t ts IH]; intros w Hn Hd Hw; cbn [fold_left].
  - split; auto.
  - simpl in Hn. inversion Hn as [| ? ? Hnot Hn']; subst.
    assert (Hw1 : forall p, In p (written (write_target w t)) ->
                            In p (written w) \/ p = fst t).
    { intros p. unfold write_target. rewrite writeJsonFile_written.
      rewrite in_app_iff. case_bool_decide; simpl; intuition congruence. }
    destruct (IH (write_target w t) Hn') as [N1 I1].
    + intros p Hp Hin. apply Hw1 in Hp. destruct Hp as [Hp | ->].
      * apply (Hd p Hp). now right.
      * contradiction.
    + unfold write_target. rewrite writeJsonFile_written.
      case_bool_decide; [now rewrite app_nil_r | ].
      apply List.NoDup_app; [exact Hw | constructor; [intros [] | constructor] | ].
      intros p Hp [<- | []]. apply (Hd _ Hp). now left.
    + split; [exact N1 | ]. intros p Hp. apply I1 in Hp.
      destruct Hp as [Hp | Hp]; [ | right; now right].
      apply Hw1 in Hp. destruct Hp as [Hp | ->]; [now left | right; now left].
Qed.

Lemma targets_week_files dir aggregated keys p :
  Forall is_weekKey keys ->
  In p (List.map fst (flat_map (week_targets dir aggregated) keys)) ->
  week_file dir p.
Proof.
  intros Hk Hin. rewrite flat_map_concat_map, concat_map, List.map_map in Hin.
  apply in_concat in Hin. destruct Hin as (l & Hl & Hp).
  apply in_map_iff in Hl. destruct Hl as (key & <- & Hkey).
  apply week_targets_paths in Hp.
  rewrite List.Forall_forall in Hk. destruct (Hk key Hkey) as (y & w & ->).
  exists y, w. unfold week_paths. cbn [In]. destruct Hp as [-> | ->]; auto.
Qed.





(** What a completed run wrote, and what it left alone. *)
Lemma main_with_written sources env fs w :
  main_with sources env fs = (Completed, w) ->
  List.NoDup (written w)
  /\ Forall (week_file (outputDir env)) (written w)
  /\ (forall p, ~ week_file (outputDir env) p -> files w !! p = fs !! p).
Proof.
  unfold main_with.
  destruct (main_collect env (toISOString (clock_start env)) 0 sources [] [])
    as [warnings [out | aggregated]] eqn:Ec.
  - intros H. injection H as _ <-. cbn [written files].
    split; [constructor | split; [constructor | reflexivity]].
  - destruct aggregated as [| entry aggregated'] eqn:Ea.
    + intros H. injection H as <-. cbn [written files].
      split; [constructor | split; [constructor | reflexivity]].
    + rewrite <- Ea in *. clear Ea.
      assert (Hok : agg_ok aggregated).
      { eapply main_collect_ok; [ | exact Ec]. split; constructor. }
      destruct Hok as [Hn Hk].
      set (keys := sort_strings (map_keys aggregated)).
      assert (Hnk : List.NoDup keys) by now apply sort_strings_NoDup.
      assert (Hkk : Forall is_weekKey keys).
      { eapply Forall_perm; [symmetry; apply sort_strings_perm | exact Hk]. }
      set (w0 := {| files := fs; written := []; warned := warnings |}).
      rewrite write_weeks_targets.
      set (ts := flat_map (week_targets (outputDir env) aggregated) keys).
      intros H. injection H as <-.
      pose proof (targets_NoDup (outputDir env) aggregated keys Hnk Hkk) as Nt.
      fold ts in Nt.
      destruct (write_targets_written ts w0 Nt) as [N1 I1];
        [intros p [] | constructor | ].
      split; [exact N1 | split].
      * apply List.Forall_forall. intros p Hp. apply I1 in Hp.
        destruct Hp as [[] | Hp]. eapply targets_week_files; eauto.
      * intros p Hp. rewrite write_targets_other; [reflexivity | ].
        intros Hin. apply Hp. eapply targets_week_files; eauto.
Qed.

(** ** The days of a page *)

Lemma resolveDayDate_aligned label startDate previous r :
  resolveDayDate label startDate previous = inr r -> aligned r.
Proof.
  rewrite resolveDayDate_unfold.
  destruct (label_day_month label) as [[d m] |]; [ | discriminate].
  destruct previous as [p |].
  - destruct (_ <? p); intros H; injection H as <-; apply aligned_UTC.
  - intros H; injection H as <-; apply aligned_UTC.
Qed.

Lemma resolveDays_shape startDate labels : forall previous dates,
  resolveDays startDate previous labels = inr dates ->
  length dates = length labels /\ Forall aligned dates.
Proof.
  induction labels as [| l ls IH]; intros previous dates H.
  - injection H as <-. split; [reflexivity | constructor].
  - cbn [resolveDays] in H.
    destruct (resolveDayDate l startDate previous) as [e | d] eqn:E;
      [discriminate | ].
    destruct (resolveDays startDate (Some d) ls) as [e | ds] eqn:E2;
      [discriminate | ].
    injection H as <-. destruct (IH _ _ E2) as [L A].
    split; [simpl; now rewrite L | ].
    constructor; [eapply resolveDayDate_aligned; eauto | exact A].
Qed.

Lemma build_days_shape labels : forall dates rows,
  length dates = length labels -> length rows = length labels ->
  List.map label (build_days labels dates rows) = labels
  /\ List.map categories (build_days labels dates rows)
     = List.map parseDishRow rows
  /\ List.map date (build_days labels dates rows)
     = List.map formatIsoDate dates.
Proof.
  induction labels as [| l ls IH]; intros [| d ds] [| r rs] Ld Lr;
    try discriminate; [simpl; auto | ].
  injection Ld as Ld. injection Lr as Lr.
  destruct (IH ds rs Ld Lr) as (A & B & C).
  cbn [build_days List.map label categories date]. now rewrite A, B, C.
Qed.

Lemma block_labels_length b : length (block_labels b) = length (block_rows b).
Proof. unfold block_labels, labels_from. now rewrite length_map, length_seq. Qed.

Lemma parseMenuPage_block_shape now b ws dm ws' dm' :
  parseMenuPage_block now b (ws, dm) = (ws', inr dm') ->
  ws' = ws ++ mismatch_warning b
  /\ exists new,
       dm' = dm ++ new
       /\ List.map label new = block_labels b
       /\ List.map categories new = List.map parseDishRow (block_rows b)
       /\ Forall iso_dated new.
Proof.
  unfold parseMenuPage_block. rewrite parseMenuPage_rows_resolveDays.
  fold (block_labels b).
  destruct (resolveDays _ None (block_labels b)) as [e | dates] eqn:E;
    [discriminate | ].
  intros H. injection H as <- <-. split.
  - unfold mismatch_warning. destruct (negb _); [reflexivity | ].
    now rewrite app_nil_r.
  - destruct (resolveDays_shape _ _ _ _ E) as [L A].
    destruct (build_days_shape (block_labels b) dates (block_rows b) L
                (eq_sym (block_labels_length b))) as (B1 & B2 & B3).
    eexists. split; [reflexivity | ]. split; [exact B1 | split; [exact B2 | ]].
    apply List.Forall_forall. intros day Hday.
    assert (Hd : In (date day) (List.map formatIsoDate dates))
      by (rewrite <- B3; now apply in_map).
    apply in_map_iff in Hd. destruct Hd as (t & Ht & Hin).
    exists t. split; [ | now symmetry].
    rewrite List.Forall_forall in A. now apply A.
Qed.

Lemma parseMenuPage_blocks_shape now blocks : forall i ws dm ws' dm',
  parseMenuPage_blocks now i blocks (ws, dm) = (ws', inr dm') ->
  ws' = ws ++ flat_map mismatch_warning blocks
  /\ exists new,
       dm' = dm ++ new
       /\ List.map label new = flat_map block_labels blocks
       /\ List.map categories new
          = List.map parseDishRow (flat_map block_rows blocks)
       /\ Forall iso_dated new.
Proof.
  induction blocks as [| b bs IH]; intros i ws dm ws' dm' H.
  - cbn [parseMenuPage_blocks fst snd] in H. injection H as <- <-.
    split; [simpl; now rewrite app_nil_r | ].
    exists []. simpl. rewrite app_nil_r. repeat split; constructor.
  - cbn [parseMenuPage_blocks] in H.
    destruct (parseMenuPage_block (now i) b (ws, dm)) as [ws1 [e | dm1]] eqn:E;
      [discriminate | ].
    apply parseMenuPage_block_shape in E.
    destruct E as (-> & new1 & -> & L1 & C1 & D1).
    apply IH in H. destruct H as (-> & new2 & -> & L2 & C2 & D2).
    split; [cbn [flat_map]; now rewrite app_assoc | ].
    exists (new1 ++ new2). cbn [flat_map].
    rewrite !List.map_app, L1, L2, C1, C2, app_assoc.
    repeat split; auto. now apply Forall_app.
Qed.

Lemma parseMenuPage_shape now page ws menu :
  parseMenuPage now page = (ws, inr menu) ->
  List.map label (days menu) = flat_map block_labels (page_blocks page)
  /\ List.map categories (days menu)
     = List.map parseDishRow (flat_map block_rows (page_blocks page))
  /\ Forall iso_dated (days menu)
  /\ legend menu = parseLegend page
  /\ ws = flat_map mismatch_warning (page_blocks page).
Proof.
  unfold parseMenuPage.
  destruct (page_blocks page) as [| b bs] eqn:Eb; [discriminate | ].
  destruct (parseMenuPage_blocks now 0 (b :: bs) ([], [])) as [ws1 [e | dm]]
    eqn:E; [discriminate | ].
  intros H. injection H as <- <-.
  apply parseMenuPage_blocks_shape in E.
  destruct E as (-> & new & -> & L & C & D).
  cbn [days legend app]. auto.
Qed.

(** ** Partitions as calendar weeks *)

Lemma groupByWeek_calendar days :
  Forall (fun d => exists t, day_of d t) days ->
  exists parts,
    groupByWeek days = Some parts
    /\ forall d1 d2 t1 t2,
         In d1 days -> In d2 days -> day_of d1 t1 -> day_of d2 t2 ->
         (together parts d1 d2
          <-> weekIndex (Day t1) = weekIndex (Day t2)).
Proof.
  intros Hd.
  assert (Hdated : Forall dated days).
  { eapply List.Forall_impl; [ | exact Hd]. cbn beta.
    intros d (t & Ht & _). now exists t. }
  destruct (groupByWeek_spec days Hdated) as (parts & Hg & Hspec & Hcov & _).
  exists parts. split; [exact Hg | ].
  intros d1 d2 t1 t2 I1 I2 [P1 Y1] [P2 Y2].
  assert (W1 : week_of d1 = Some (isoWeek t1))
    by (unfold week_of; now rewrite P1).
  assert (W2 : week_of d2 = Some (isoWeek t2))
    by (unfold week_of; now rewrite P2).
  rewrite <- (isoWeek_same_week t1 t2 Y1 Y2).
  rewrite List.Forall_forall in Hspec.
  split.
  - intros (q & Hq & M1 & M2).
    destruct (Hspec q Hq) as [Hm _ _ _ _ _].
    apply (Permutation_in _ Hm) in M1, M2.
    apply List.filter_In in M1, M2. destruct M1 as [_ M1], M2 as [_ M2].
    apply in_week_true in M1, M2. congruence.
  - intros E. destruct (Hcov d1 I1) as (q & Hq & Wq).
    exists q. split; [exact Hq | ].
    destruct (Hspec q Hq) as [Hm _ _ _ _ _].
    split; apply (Permutation_in _ (Permutation_sym Hm));
      apply List.filter_In; (split; [assumption | ]); apply in_week_true.
    + exact Wq.
    + rewrite W2, <- E, <- W1. exact Wq.
Qed.

(** ** The order of time, and pages without dish rows *)

(* ---------- week keys ---------- *)

Lemma year4_all :
  forallb (fun k => year4_ok (Z.of_nat k + 1000)) (seq 0 (Z.to_nat 9000)) = true.
Proof. vm_compute. reflexivity. Qed.

Lemma String_of_Z_year4 y : 1000 <= y <= 9999 -> String_of_Z y = pad 4 y.
Proof.
  intros H. pose proof year4_all as A. rewrite forallb_forall in A.
  specialize (A (Z.to_nat (y - 1000))).
  replace (Z.of_nat (Z.to_nat (y - 1000)) + 1000) with y in A by lia.
  apply jsstring_eqb_eq. apply A. apply in_seq. lia.
Qed.

Lemma weekKey_digits y w :
  1000 <= y <= 9999 -> weekKey y w = pad 4 y ++ js "-W" ++ pad 2 w.
Proof. intros H. unfold weekKey. now rewrite String_of_Z_year4. Qed.

(** Week keys of years of four digits compare as (year, week) does. *)
Lemma weekKey_compare y w y' w' :
  1000 <= y <= 9999 -> 1000 <= y' <= 9999 ->
  0 <= w <= 99 -> 0 <= w' <= 99 ->
  str_compare (weekKey y w) (weekKey y' w')
  = match y ?= y' with Eq => w ?= w' | c => c end.
Proof.
  intros Hy Hy' Hw Hw'. rewrite !weekKey_digits by assumption.
  destruct (pad_ok_4 y) as (y1 & y2 & y3 & y4 & -> & Dy & Vy);
    [apply pad4_ok; lia | ].
  destruct (pad_ok_4 y') as (z1 & z2 & z3 & z4 & -> & Dz & Vz);
    [apply pad4_ok; lia | ].
  destruct (pad_ok_2 _ (pad2_ok _ Hw)) as (a1 & a2 & -> & Da & Va).
  destruct (pad_ok_2 _ (pad2_ok _ Hw')) as (b1 & b2 & -> & Db & Vb).
  rewrite str_compare_app by reflexivity.
  rewrite (str_compare_digits [y1; y2; y3; y4] [z1; z2; z3; z4] eq_refl Dy Dz),
    Vy, Vz.
  destruct (y ?= y'); try reflexivity.
  change (js "-W") with [45%N; 87%N]. cbn [app].
  rewrite !str_compare_head. rewrite <- Va, <- Vb.
  now apply str_compare_digits.
Qed.

(* ---------- groupByWeek: from, to and the order of the days ---------- *)

Lemma dated_by_dated d t : dated_by d t -> dated d.
Proof.
  intros [E Hy]. exists (MakeDate (Day t) 0). rewrite E.
  now apply parseIsoDay_formatIsoDate.
Qed.

Lemma dated_by_leb d1 t1 d2 t2 :
  dated_by d1 t1 -> dated_by d2 t2 ->
  (str_leb (date d1) (date d2) = true <-> Day t1 <= Day t2).
Proof.
  intros [E1 Y1] [E2 Y2]. unfold str_leb. rewrite E1, E2.
  rewrite formatIsoDate_compare by assumption.
  destruct (Z.compare_spec (Day t1) (Day t2)); split; intros; try lia;
    try reflexivity; discriminate.
Qed.

Lemma groupByWeek_chronological days :
  Forall (fun d => exists t, dated_by d t) days ->
  exists parts,
    groupByWeek days = Some parts
    /\ Forall
         (fun q =>
            Sorted (fun a b => forall ta tb,
                      dated_by a ta -> dated_by b tb -> Day ta <= Day tb)
                   (wp_days q)
            /\ exists first last tfirst tlast,
                 In first (wp_days q) /\ In last (wp_days q)
                 /\ dated_by first tfirst /\ dated_by last tlast
                 /\ from q = date first /\ to q = date last
                 /\ forall d t, In d (wp_days q) -> dated_by d t ->
                      Day tfirst <= Day t <= Day tlast)
         parts.
Proof.
  intros Hd.
  assert (Hdated : Forall dated days).
  { eapply List.Forall_impl; [ | exact Hd]. cbn beta.
    intros d (t & Ht). eapply dated_by_dated; eauto. }
  destruct (groupByWeek_spec days Hdated) as (parts & Hg & Hspec & _ & _).
  exists parts. split; [exact Hg | ].
  eapply List.Forall_impl; [ | exact Hspec]. cbn beta.
  intros q [Hm Hs Hfl Hfi Htg Hti].
  assert (Hin : forall d, In d (wp_days q) -> exists t, dated_by d t).
  { intros d Hq. apply (Permutation_in _ Hm) in Hq.
    apply List.filter_In in Hq. destruct Hq as [Hq _].
    rewrite List.Forall_forall in Hd. now apply Hd. }
  split.
  - eapply Sorted_ind with (P := fun l => Sorted _ l); [ | | exact Hs].
    + constructor.
    + intros a l _ IH Hh. constructor; [exact IH | ].
      destruct Hh as [| b l Hab]; constructor.
      intros ta tb Da Db. now apply (dated_by_leb a ta b tb Da Db).
  - apply List.Exists_exists in Hfi, Hti.
    destruct Hfi as (first & If & Ef), Hti as (last & Il & El).
    destruct (Hin first If) as (tf & Df), (Hin last Il) as (tl & Dl).
    exists first, last, tf, tl.
    do 6 (split; [auto | ]).
    intros d0 t0 Id Dd. rewrite List.Forall_forall in Hfl, Htg.
    specialize (Hfl d0 Id). specialize (Htg d0 Id). cbn beta in Hfl, Htg.
    rewrite <- Ef in Hfl. rewrite <- El in Htg.
    apply (dated_by_leb first tf d0 t0 Df Dd) in Hfl.
    apply (dated_by_leb d0 t0 last tl Dd Dl) in Htg. lia.
Qed.

(* ---------- main: nothing to write ---------- *)

Lemma no_dish_rows_labels blocks :
  Forall (fun b => block_rows b = []) blocks ->
  flat_map block_labels blocks = [].
Proof.
  induction 1 as [| b bs Hb _ IH]; [reflexivity | ].
  cbn [flat_map]. rewrite IH. unfold block_labels. now rewrite Hb.
Qed.

Lemma parseMenuPage_no_dish_rows now page :
  no_dish_rows page ->
  exists ws menu, parseMenuPage now page = (ws, inr menu) /\ days menu = [].
Proof.
  intros [Hne Hr].
  destruct (parseMenuPage now page) as [ws [e | menu]] eqn:E.
  - exfalso.
    assert (T : throws (snd (parseMenuPage now page)))
      by (rewrite E; now exists e).
    apply parseMenuPage_throws in T. destruct T as [T | T]; [contradiction | ].
    rewrite no_dish_rows_labels in T by exact Hr. inversion T.
  - exists ws, menu. split; [reflexivity | ].
    apply parseMenuPage_shape in E. destruct E as (L & _).
    rewrite no_dish_rows_labels in L by exact Hr.
    now apply map_eq_nil in L.
Qed.

Lemma main_collect_no_data env g sources : forall i aggregated warnings,
  Forall (fun c => exists page, fetchHtml env (url c) = inr page
                                /\ no_dish_rows page) sources ->
  exists ws, main_collect env g i sources aggregated warnings
             = (ws, inr aggregated).
Proof.
  induction sources as [| c sources IH]; intros i aggregated warnings Hs.
  - eexists. reflexivity.
  - inversion Hs as [| ? ? (page & Hf & Hn) Hs']; subst.
    cbn [main_collect]. rewrite Hf.
    destruct (parseMenuPage_no_dish_rows (clock_block env i) page Hn)
      as (ws & menu & -> & Hd).
    rewrite Hd. cbn [groupByWeek groupByWeek_loop map_values List.map
                       stable_sort fold_left].
    now apply IH.
Qed.

Lemma main_with_no_data sources env fs :
  Forall (fun c => exists page, fetchHtml env (url c) = inr page
                                /\ no_dish_rows page) sources ->
  exists ws,
    main_with sources env fs
    = (Completed, {| files := fs; written := [];
                     warned := ws ++ [WarnNoMenuData] |}).
Proof.
  intros Hs. unfold main_with.
  destruct (main_collect_no_data env (toISOString (clock_start env)) sources
              0 [] [] Hs) as [ws ->].
  now exists ws.
Qed.

(** ** Legend keys *)

(* ---------- quantifiers ---------- *)

Lemma rep_greedy_span {R} cl rest : forall lo hi i c (k : cont R) res,
  rep_greedy cl lo hi i rest c k = Some res ->
  exists n, (lo <= n)%nat
    /\ match hi with Some h => (n <= h)%nat | None => True end
    /\ (n <= length rest)%nat
    /\ forallb (cclass_mem cl) (firstn n rest) = true
    /\ k (i + n)%nat (skipn n rest) c = Some res.
Proof.
  induction rest as [| x rest IH]; intros lo hi i c k res H; simpl in H.
  - exists O. rewrite Nat.add_0_r.
    destruct lo; [ | destruct (hi_zero hi); discriminate].
    assert (k i [] c = Some res) by (now destruct (hi_zero hi)).
    repeat split; auto; destruct hi; lia.
  - assert (Stop : match lo with O => k i (x :: rest) c | S _ => None end
                   = Some res ->
                   exists n, (lo <= n)%nat
                     /\ match hi with Some h => (n <= h)%nat | None => True end
                     /\ (n <= length (x :: rest))%nat
                     /\ forallb (cclass_mem cl) (firstn n (x :: rest)) = true
                     /\ k (i + n)%nat (skipn n (x :: rest)) c = Some res).
    { destruct lo; [ | discriminate]. intros E. exists O.
      rewrite Nat.add_0_r. repeat split; auto; try lia.
      destruct hi; lia. }
    destruct (hi_zero hi) eqn:Hz; [auto | ].
    destruct (cclass_mem cl x) eqn:M; [ | auto].
    destruct (rep_greedy cl (Nat.pred lo) (hi_pred hi) (S i) rest c k)
      as [r |] eqn:E; [ | auto].
    injection H as ->. apply IH in E.
    destruct E as (n & L & Hh & Ln & F & K). exists (S n).
    split; [lia | split; [ | split; [simpl; lia | split]]].
    + destruct hi as [[| h] |]; simpl in *; try discriminate; lia.
    + cbn [firstn forallb]. now rewrite M, F.
    + cbn [skipn]. now replace (i + S n)%nat with (S i + n)%nat by lia.
Qed.

Lemma rep_lazy_span {R} cl rest : forall lo hi i c (k : cont R) res,
  rep_lazy cl lo hi i rest c k = Some res ->
  exists n, (lo <= n)%nat
    /\ (n <= length rest)%nat
    /\ forallb (cclass_mem cl) (firstn n rest) = true
    /\ k (i + n)%nat (skipn n rest) c = Some res.
Proof.
  induction rest as [| x rest IH]; intros lo hi i c k res H; simpl in H.
  - destruct lo.
    + destruct (k i [] c) eqn:E.
      * injection H as ->. exists O. rewrite Nat.add_0_r.
        repeat split; auto; simpl; lia.
      * destruct (hi_zero hi); discriminate.
    + destruct (hi_zero hi); discriminate.
  - assert (More : (if hi_zero hi then None
                    else if cclass_mem cl x
                         then rep_lazy cl (Nat.pred lo) (hi_pred hi) (S i) rest c k
                         else None) = Some res ->
                   exists n, (lo <= n)%nat
                     /\ (n <= length (x :: rest))%nat
                     /\ forallb (cclass_mem cl) (firstn n (x :: rest)) = true
                     /\ k (i + n)%nat (skipn n (x :: rest)) c = Some res).
    { destruct (hi_zero hi); [discriminate | ].
      destruct (cclass_mem cl x) eqn:M; [ | discriminate].
      intros E. apply IH in E. destruct E as (n & L & Ln & F & K).
      exists (S n). split; [lia | split; [simpl; lia | split]].
      - cbn [firstn forallb]. now rewrite M, F.
      - cbn [skipn]. now replace (i + S n)%nat with (S i + n)%nat by lia. }
    destruct lo; [ | auto].
    destruct (k i (x :: rest) c) eqn:E; [ | auto].
    injection H as ->. exists O. rewrite Nat.add_0_r.
    repeat split; auto; simpl; lia.
Qed.

(* ---------- the tail the three patterns share ---------- *)

Lemma legend_alt_caps i0 j rest c m :
  rmatch (RAlt (RSeq (RAlt (rchar 44) (rchar 46)) (RClass CSpace)) REol)
         j rest c (fun j' _ c' => Some (MkMatch i0 j' c')) = Some m ->
  m_caps m = c.
Proof.
  cbn [rmatch rchar].
  destruct rest as [| x [| y rest]]; cbn [cclass_mem].
  - intros H. injection H as <-. reflexivity.
  - destruct (x =? 44)%N, (x =? 46)%N; cbn; discriminate.
  - destruct (x =? 44)%N, (x =? 46)%N, (isWhiteSpace y); cbn;
      intros H; first [discriminate | injection H as <-; reflexivity].
Qed.

Lemma legend_tail_caps i0 j rest c m :
  rmatch re_legend_tail j rest c (fun j' _ c' => Some (MkMatch i0 j' c'))
  = Some m ->
  exists a n, m_caps m = (2%nat, (j + a, j + a + n)%nat) :: c
    /\ forallb (cclass_mem (CNotChar 44)) (firstn n (skipn a rest)) = true.
Proof.
  unfold re_legend_tail, rseq. cbn [rmatch rchar].
  destruct rest as [| x rest1]; [discriminate | ].
  cbn [cclass_mem]. destruct (x =? 41)%N; [ | discriminate].
  intros H. apply rep_greedy_span in H.
  destruct H as (n1 & _ & _ & _ & _ & H).
  apply rep_lazy_span in H. destruct H as (n2 & _ & _ & F & H).
  apply legend_alt_caps in H.
  exists (S n1), n2. split.
  - rewrite H. replace (j + S n1)%nat with (S j + n1)%nat by lia.
    reflexivity.
  - exact F.
Qed.

(* ---------- the three patterns ---------- *)

Lemma group_caps body m a b c :
  m_caps m = (2%nat, c) :: (1%nat, (a, b)) :: [] ->
  group body m 1 = slice a b body /\ group body m 2 = slice (fst c) (snd c) body.
Proof.
  intros E. unfold group. rewrite E. cbn [cap_lookup Nat.eqb].
  now destruct c.
Qed.

Lemma not_comma_In s :
  forallb (cclass_mem (CNotChar 44)) s = true -> ~ In 44%N s.
Proof.
  intros F Hin. rewrite forallb_forall in F. specialize (F _ Hin).
  discriminate.
Qed.

Lemma slice_skip (body : jsstring) i a n :
  slice (i + a) (i + a + n) body = firstn n (skipn a (skipn i body)).
Proof.
  unfold slice. rewrite skipn_skipn. f_equal; [lia | f_equal; lia].
Qed.

Lemma match_info body i m :
  match_here re_info i (skipn i body) = Some m ->
  legend_match info_key body m.
Proof.
  unfold re_info, match_here. cbn [rmatch rchar].
  destruct (skipn i body) as [| x rest1] eqn:Es; [discriminate | ].
  cbn [cclass_mem]. destruct (x =? 40)%N; [ | discriminate].
  intros H. apply rep_greedy_span in H.
  destruct H as (n & L & Hh & Ln & F & H).
  apply legend_tail_caps in H. destruct H as (a & n2 & Hc & F2).
  destruct (group_caps body m _ _ _ Hc) as [G1 G2].
  assert (Er : skipn (S i) body = rest1) by (eapply skipn_cons_S; eauto).
  split.
  - rewrite G1. unfold slice.
    replace (S i + n - S i)%nat with n by lia. rewrite Er.
    split; [ | exact F]. rewrite firstn_length_le by lia. lia.
  - rewrite G2. cbn [fst snd]. rewrite slice_skip.
    apply not_comma_In.
    replace (skipn a (skipn (S i + n) body)) with (skipn a (skipn n rest1));
      [exact F2 | ].
    f_equal. rewrite <- Er, skipn_skipn. f_equal. lia.
Qed.

Lemma match_allergens body i m :
  match_here re_allergens i (skipn i body) = Some m ->
  legend_match allergen_key body m.
Proof.
  unfold re_allergens, match_here. cbn [rmatch].
  destruct (skipn i body) as [| x rest1] eqn:Es; [discriminate | ].
  cbn [cclass_mem]. destruct (isLowerAZ x) eqn:Lx; [ | discriminate].
  intros H. apply rep_greedy_span in H.
  destruct H as (n & L & Hh & Ln & F & H).
  apply legend_tail_caps in H. destruct H as (a & n2 & Hc & F2).
  destruct (group_caps body m _ _ _ Hc) as [G1 G2].
  assert (Er : skipn (S i) body = rest1) by (eapply skipn_cons_S; eauto).
  split.
  - rewrite G1. unfold slice.
    replace (S i + n - i)%nat with (S n) by lia. rewrite Es.
    cbn [firstn]. exists x, (firstn n rest1).
    repeat split; auto. rewrite firstn_length_le by lia. lia.
  - rewrite G2. cbn [fst snd]. rewrite slice_skip.
    apply not_comma_In.
    replace (skipn a (skipn (S i + n) body)) with (skipn a (skipn n rest1));
      [exact F2 | ].
    f_equal. rewrite <- Er, skipn_skipn. f_equal. lia.
Qed.

Lemma match_additives body i m :
  match_here re_additives i (skipn i body) = Some m ->
  legend_match additive_key body m.
Proof.
  unfold re_additives, match_here, rdigits. cbn [rmatch].
  intros H. apply rep_greedy_span in H.
  destruct H as (n & L & Hh & Ln & F & H).
  apply legend_tail_caps in H. destruct H as (a & n2 & Hc & F2).
  destruct (group_caps body m _ _ _ Hc) as [G1 G2].
  split.
  - rewrite G1. unfold slice.
    replace (i + n - i)%nat with n by lia.
    split; [ | exact F]. rewrite firstn_length_le by lia. lia.
  - rewrite G2. cbn [fst snd]. rewrite slice_skip.
    apply not_comma_In.
    replace (skipn (i + n) body) with (skipn n (skipn i body))
      by (rewrite skipn_skipn; f_equal; lia).
    exact F2.
Qed.

(* ---------- keys and values ---------- *)

Lemma inked_only_clean k :
  forallb (fun c => negb (isWhiteSpace c)) k = true -> cleanText k = k.
Proof.
  intros F. apply cleanText_fixed.
  assert (Fa : Forall (fun c => isWhiteSpace c = false) k).
  { apply List.Forall_forall. intros c Hc. rewrite forallb_forall in F.
    specialize (F c Hc). now apply negb_true_iff in F. }
  split; [ | split].
  - eapply List.Forall_impl; [ | exact Fa]. cbn beta. congruence.
  - clear F. induction Fa as [| c k Hc Fa IH]; [reflexivity | ].
    cbn [noDoubleSpace]. rewrite IH, (white_not_32 _ Hc).
    now destruct k.
  - unfold trim. rewrite trimStart_id by (destruct Fa; simpl; auto).
    unfold trimEnd. rewrite trimStart_id; [apply rev_involutive | ].
    assert (Fr : Forall (fun c => isWhiteSpace c = false) (rev k))
      by (apply List.Forall_rev; exact Fa).
    destruct Fr; simpl; auto.
Qed.

Lemma class_not_white (p : N -> bool) k :
  (forall c, p c = true -> isWhiteSpace c = false) ->
  forallb p k = true -> forallb (fun c => negb (isWhiteSpace c)) k = true.
Proof.
  intros Hp F. apply forallb_forall. intros c Hc.
  rewrite forallb_forall in F. rewrite (Hp c (F c Hc)). reflexivity.
Qed.

Lemma range_not_white c : (48 <= c <= 122)%N -> isWhiteSpace c = false.
Proof.
  intros H. unfold isWhiteSpace.
  repeat (match goal with
          | |- context [(?a <=? ?b)%N] => destruct (N.leb_spec a b)
          | |- context [(?a =? ?b)%N] => destruct (N.eqb_spec a b)
          end); simpl; try reflexivity; lia.
Qed.

Lemma upper_not_white c : isUpperAZ c = true -> isWhiteSpace c = false.
Proof.
  unfold isUpperAZ. rewrite andb_true_iff, !N.leb_le. intros H.
  apply range_not_white. lia.
Qed.

Lemma lower_not_white c : isLowerAZ c = true -> isWhiteSpace c = false.
Proof.
  unfold isLowerAZ. rewrite andb_true_iff, !N.leb_le. intros H.
  apply range_not_white. lia.
Qed.

Lemma digit_not_white c : isDigit c = true -> isWhiteSpace c = false.
Proof.
  unfold isDigit. rewrite andb_true_iff, !N.leb_le. intros H.
  apply range_not_white. lia.
Qed.

Lemma info_key_clean k : info_key k -> cleanText k = k.
Proof.
  intros [_ F]. apply inked_only_clean.
  eapply class_not_white; [apply upper_not_white | exact F].
Qed.

Lemma additive_key_clean k : additive_key k -> cleanText k = k.
Proof.
  intros [_ F]. apply inked_only_clean.
  eapply class_not_white; [apply digit_not_white | exact F].
Qed.

Lemma allergen_key_clean k : allergen_key k -> cleanText k = k.
Proof.
  intros (x & ds & -> & Lx & _ & F). apply inked_only_clean.
  cbn [forallb]. rewrite (lower_not_white _ Lx). cbn [negb andb].
  eapply class_not_white; [apply digit_not_white | exact F].
Qed.

Lemma In_firstn_ {A} (x : A) n : forall l, In x (firstn n l) -> In x l.
Proof.
  induction n as [| n IH]; intros [| y l]; simpl; try tauto.
  intros [H | H]; [now left | right; now apply IH].
Qed.

Lemma In_skipn_ {A} (x : A) n : forall l, In x (skipn n l) -> In x l.
Proof.
  induction n as [| n IH]; intros [| y l]; simpl; try tauto.
  intros H. right. now apply IH.
Qed.

Lemma In_slice (c : N) a b s : In c (slice a b s) -> In c s.
Proof.
  unfold slice. intros H. apply In_firstn_ in H. now apply In_skipn_ in H.
Qed.

Lemma replace_first_In r c s : In c (replace_first r [] s) -> In c s.
Proof.
  unfold replace_first. destruct (search r 0 s) as [m |]; [ | auto].
  cbn [splice app]. rewrite in_app_iff.
  intros [H | H]; [now apply In_slice in H | now apply In_skipn_ in H].
Qed.

Lemma exec_match re body m re' :
  exec re body = (Some m, re') ->
  source re' = source re
  /\ match_here (source re) (m_start m) (skipn (m_start m) body) = Some m.
Proof.
  unfold exec.
  destruct (Nat.ltb_spec (length body) (lastIndex re)) as [Hlt | Hle];
    [discriminate | ].
  destruct (search (source re) (lastIndex re) (skipn (lastIndex re) body))
    as [m' |] eqn:E; [ | discriminate].
  intros Hx. injection Hx as -> <-. split; [reflexivity | ].
  apply search_spec in E; [ | assumption]. tauto.
Qed.

Lemma parseLegendEntries_loop_entries (P : jsstring -> Prop) body fuel :
  forall regex entries result,
  (forall i m, match_here (source regex) i (skipn i body) = Some m ->
               legend_match P body m) ->
  (forall k, P k -> cleanText k = k) ->
  Forall (fun kv => P (fst kv) /\ ~ In 44%N (snd kv)) entries ->
  parseLegendEntries_loop fuel regex body entries = Some result ->
  Forall (fun kv => P (fst kv) /\ ~ In 44%N (snd kv)) result.
Proof.
  induction fuel as [| fuel IH]; intros regex entries result Hm Hc He;
    cbn [parseLegendEntries_loop]; [discriminate | ].
  destruct (exec regex body) as [[m |] regex'] eqn:E.
  - apply exec_match in E. destruct E as [Es Em].
    apply IH; [now rewrite Es | exact Hc | ].
    destruct (nonEmpty _); [ | exact He].
    destruct (Hm _ _ Em) as [Hk Hv].
    apply List.Forall_forall. intros [k v] Hin. apply obj_set_In in Hin.
    destruct Hin as [[-> ->] | Hin].
    + cbn [fst snd]. split; [now rewrite (Hc _ Hk) | ].
      intros C. apply replace_first_In in C.
      apply (proj1 (cleanText_keeps 44 _ eq_refl)) in C. contradiction.
    + rewrite List.Forall_forall in He. now apply He.
  - intros H. injection H as <-. exact He.
Qed.

Lemma parseLegendEntries_entries (P : jsstring -> Prop) text pattern :
  (forall body i m,
     match_here (source pattern) i (skipn i body) = Some m ->
     legend_match P body m) ->
  (forall k, P k -> cleanText k = k) ->
  Forall (fun kv => P (fst kv) /\ ~ In 44%N (snd kv))
         (entries_of (parseLegendEntries text pattern)).
Proof.
  intros Hm Hc. unfold parseLegendEntries.
  destruct (parseLegendEntries_loop _ _ _ _) as [result |] eqn:E;
    [ | constructor].
  cbn [entries_of].
  eapply parseLegendEntries_loop_entries; [ | exact Hc | | exact E].
  - intros i m. apply Hm.
  - constructor.
Qed.

Lemma parseLegend_entries page lg :
  parseLegend page = Some lg ->
  Forall (fun kv => info_key (fst kv) /\ ~ In 44%N (snd kv)) (info lg)
  /\ Forall (fun kv => allergen_key (fst kv) /\ ~ In 44%N (snd kv))
            (lg_allergens lg)
  /\ Forall (fun kv => additive_key (fst kv) /\ ~ In 44%N (snd kv))
            (additives lg).
Proof.
  unfold parseLegend.
  destruct (List.filter _ (page_h3s page)) as [| heading _]; [discriminate | ].
  destruct (h3_row_columns heading) as [[| c cs] |]; try discriminate.
  intros H. injection H as <-. cbn [info lg_allergens additives].
  split; [ | split].
  - apply parseLegendEntries_entries; [ | apply info_key_clean].
    intros body i m. apply match_info.
  - apply parseLegendEntries_entries; [ | apply allergen_key_clean].
    intros body i m. apply match_allergens.
  - apply parseLegendEntries_entries; [ | apply additive_key_clean].
    intros body i m. apply match_additives.
Qed.

(** ** Day labels *)

Lemma match_here_dayMonth_head i x rest :
  isDigit x = false -> match_here re_dayMonth i (x :: rest) = None.
Proof.
  intros H. unfold match_here, re_dayMonth, rseq, rdigits.
  cbn [rmatch]. rewrite rep_digits2.
  destruct rest; [reflexivity | ]. now rewrite H.
Qed.

Lemma match_here_dayMonth_found i c1 c2 c3 c4 rest :
  forallb isDigit [c1; c2; c3; c4] = true ->
  match_here re_dayMonth i (c1 :: c2 :: 46%N :: c3 :: c4 :: 46%N :: rest)
  = Some (MkMatch i (6 + i) [(2, (3 + i, 5 + i)); (1, (i, 2 + i))]%nat).
Proof.
  cbn [forallb]. rewrite !andb_true_iff. intros (D1 & D2 & D3 & D4 & _).
  unfold match_here, re_dayMonth, rseq, rdigits.
  cbn [rmatch]. rewrite rep_digits2, D1, D2. cbn [andb].
  rewrite rchar_match. cbn [N.eqb Pos.eqb].
  rewrite rep_digits2, D3, D4. cbn [andb].
  rewrite rchar_match. reflexivity.
Qed.

Lemma search_dayMonth_skip pre : forall i rest,
  forallb (fun c => negb (isDigit c)) pre = true ->
  rest <> [] ->
  search re_dayMonth i (pre ++ rest)
  = search re_dayMonth (i + length pre) rest.
Proof.
  induction pre as [| x pre IH]; intros i rest Hp Hr.
  - simpl. now rewrite Nat.add_0_r.
  - cbn [forallb] in Hp. apply andb_true_iff in Hp. destruct Hp as [Hx Hp].
    apply negb_true_iff in Hx. cbn [app search].
    rewrite match_here_dayMonth_head by exact Hx.
    rewrite IH by assumption. f_equal. simpl. lia.
Qed.

(** The day and month a label of the usual form is read as. *)
Lemma label_day_month_found pre post d m :
  forallb (fun c => negb (isDigit c)) pre = true ->
  0 <= d <= 99 -> 0 <= m <= 99 ->
  label_day_month (day_label pre post d m) = Some (d, m).
Proof.
  intros Hp Hd Hm. unfold day_label.
  destruct (pad_ok_2 _ (pad2_ok _ Hm)) as (m1 & m2 & -> & Dm & Vm).
  destruct (pad_ok_2 _ (pad2_ok _ Hd)) as (d1 & d2 & -> & Dd & Vd).
  change (js ".") with [46%N]. cbn [app].
  unfold label_day_month, str_match.
  rewrite search_dayMonth_skip by (auto; discriminate).
  cbn [search].
  rewrite match_here_dayMonth_found.
  2:{ cbn [forallb] in *. rewrite !andb_true_iff in Dm.
      rewrite !andb_true_iff in Dd.
      destruct Dm as (B1 & B2 & _), Dd as (C1 & C2 & _).
      now rewrite B1, B2, C1, C2. }
  unfold group. cbn [m_caps cap_lookup Nat.eqb].
  set (rest := d1 :: d2 :: 46%N :: m1 :: m2 :: 46%N :: post).
  replace (slice (0 + length pre) (2 + (0 + length pre)) (pre ++ rest))
    with [d1; d2]
    by (change [d1; d2] with (slice 0 2 rest);
        rewrite <- (slice_app_right pre rest 0 2); f_equal; lia).
  replace (slice (3 + (0 + length pre)) (5 + (0 + length pre)) (pre ++ rest))
    with [m1; m2]
    by (change [m1; m2] with (slice 3 5 rest);
        rewrite <- (slice_app_right pre rest 3 5); f_equal; lia).
  now rewrite Vd, Vm.
Qed.

Lemma calendar_day_daysInMonth y d m :
  calendar_day (d, m) -> 1 <= m <= 12 /\ 1 <= d <= daysInMonth y (m - 1).
Proof.
  unfold calendar_day, monthLength, daysInMonth. cbn [fst snd].
  intros [Hm Hd]. split; [exact Hm | ].
  destruct (isLeapYear y); month_cases m; simpl in *; lia.
Qed.

(** The first label of a container is dated in the anchor's year. *)
Lemma resolveDayDate_first_iso pre post startDate d m :
  forallb (fun c => negb (isDigit c)) pre = true ->
  100 <= getUTCFullYear startDate <= 9999 -> calendar_day (d, m) ->
  exists t,
    resolveDayDate (day_label pre post d m) startDate None = inr t
    /\ formatIsoDate t = isoText (getUTCFullYear startDate) m d.
Proof.
  intros Hp Hy Hc.
  destruct (calendar_day_daysInMonth (getUTCFullYear startDate) d m Hc)
    as [Hm Hd].
  pose proof (daysInMonth_le_31 (getUTCFullYear startDate) (m - 1)).
  rewrite (resolveDayDate_first _ _ d m)
    by (apply label_day_month_found; auto; lia).
  eexists. split; [reflexivity | ].
  now apply formatIsoDate_UTC.
Qed.

(** A later label stays in the year of the date before it, unless that
    puts it before that date: then it is dated in the next year. *)
Lemma resolveDayDate_next_iso pre post startDate p d m :
  forallb (fun c => negb (isDigit c)) pre = true ->
  100 <= getUTCFullYear p <= 9998 -> calendar_day (d, m) ->
  exists t,
    resolveDayDate (day_label pre post d m) startDate (Some p) = inr t
    /\ formatIsoDate t
       = isoText (if UTC (getUTCFullYear p) (m - 1) d <? p
                  then getUTCFullYear p + 1 else getUTCFullYear p) m d.
Proof.
  intros Hp Hy Hc.
  destruct (calendar_day_daysInMonth (getUTCFullYear p) d m Hc) as [Hm Hd].
  destruct (calendar_day_daysInMonth (getUTCFullYear p + 1) d m Hc)
    as [_ Hd1].
  pose proof (daysInMonth_le_31 (getUTCFullYear p) (m - 1)).
  rewrite resolveDayDate_unfold, label_day_month_found by (auto; lia).
  unfold getUTCFullYear in *.
  destruct (_ <? p); eexists; (split; [reflexivity | ]);
    apply formatIsoDate_UTC; auto; lia.
Qed.

(** ** X1 *)

(** X1.  [cleanText] turns every run of white space into one space and
    trims the ends.  Its result is in clean form (no white space but
    single spaces inside), holds the characters of the input that are not
    white space, in their order, and is empty exactly when the input is
    all white space.  The clean texts are the texts it leaves as they
    are, so cleaning twice is cleaning once. *)
Theorem cleanText_normal_form (s : jsstring) :
  cleanText s = trim (squeeze false s)
  /\ clean (cleanText s)
  /\ inked (cleanText s) = inked s
  /\ (cleanText s = [] <-> Forall (fun c => isWhiteSpace c = true) s)
  /\ cleanText (cleanText s) = cleanText s
  /\ (forall t, clean t -> cleanText t = t).
Proof.
  split; [apply cleanText_eq | ].
  split; [apply cleanText_clean | ].
  split; [apply inked_cleanText | ].
  split; [apply cleanText_nil | ].
  split; [apply cleanText_fixed, cleanText_clean | apply cleanText_fixed].
Qed.

Lemma cleanText_normal_form_witness :
  cleanText (js "Mo, 20.10.") = js "Mo, 20.10.".
Proof.
  destruct (cleanText_normal_form []) as (_ & _ & _ & _ & _ & Hfixed).
  apply Hfixed. split; [ | split; reflexivity].
  repeat (constructor; [vm_compute; intros H; first [discriminate | reflexivity] | ]).
  constructor.
Defined.

(** ** X2 *)

(** X2.  [parseLocaleNumber] reads a number written the German way: the
    dots are dropped wherever they stand and the first comma is the
    decimal mark.  Digits, a comma and digits give the decimal number
    with as many fraction digits as follow the comma; digits alone give
    the integer. *)
Theorem parseLocaleNumber_german (value ip fp : jsstring) :
  forallb isDigit ip = true -> forallb isDigit fp = true ->
  (undotted value = ip ++ [44%N] ++ fp -> ip <> [] \/ fp <> [] ->
   parseLocaleNumber value
   = NumDec (Z.to_N (Number_of_digits (ip ++ fp))) (length fp))
  /\ (undotted value = ip ->
      parseLocaleNumber value = NumDec (Z.to_N (Number_of_digits ip)) 0).
Proof.
  intros Hi Hf. split.
  - intros Hv Hne. now apply parseLocaleNumber_decimal.
  - intros Hv. now apply parseLocaleNumber_integer.
Qed.

Lemma parseLocaleNumber_german_witness :
  parseLocaleNumber (js "1.234,50") = NumDec 123450 2.
Proof.
  destruct (parseLocaleNumber_german (js "1.234,50") (js "1234") (js "50"))
    as [Hdec _]; [reflexivity | reflexivity | ].
  apply Hdec; [reflexivity | left; discriminate].
Defined.

(** ** X3 *)

(** X3.  What [parseMeal] makes of the texts of an item: the title is in
    clean form; every allergen code is not empty, in clean form and
    without comma; an item without annotation has [allergensRaw] null,
    and with [allergensRaw] null it has no allergen. *)
Theorem parseMeal_texts (item : Item) :
  clean (title (parseMeal item))
  /\ Forall (fun a => a <> [] /\ clean a /\ ~ In 44%N a)
            (allergens (parseMeal item))
  /\ (allergensRaw (parseMeal item) = None -> allergens (parseMeal item) = [])
  /\ (cleanText (item_small_text item) = [] ->
      allergensRaw (parseMeal item) = None).
Proof. apply parseMeal_text. Qed.

Lemma parseMeal_texts_witness :
  allergensRaw (parseMeal ex_plain_item) = None
  /\ allergens (parseMeal ex_plain_item) = [].
Proof.
  destruct (parseMeal_texts ex_plain_item) as (_ & _ & Hnone & Hraw).
  assert (H : allergensRaw (parseMeal ex_plain_item) = None)
    by (apply Hraw; reflexivity).
  split; [exact H | exact (Hnone H)].
Defined.

(** ** X4 *)

(** X4.  [parseDishRow] loses no meal and invents none: the meals of its
    categories, in order, are the items of the row in document order
    (elements with the class item that are no h3).  No category it
    returns is empty, every title is in clean form, and a row without
    items gives no category. *)
Theorem parseDishRow_keeps_meals (row : DishRow) :
  flat_map meals (parseDishRow row) = List.map parseMeal (row_items row)
  /\ Forall (fun c => meals c <> [] /\ clean (cat_title c)) (parseDishRow row)
  /\ (row_items row = [] -> parseDishRow row = []).
Proof.
  split; [apply parseDishRow_meals | ].
  split; [apply parseDishRow_categories | apply parseDishRow_no_items].
Qed.

Lemma parseDishRow_keeps_meals_witness :
  List.map cat_title (parseDishRow ex_row_two_columns)
  = [js "Uncategorized"; js "Aktion"; js "Uncategorized"]
  /\ flat_map meals (parseDishRow ex_row_two_columns)
     = List.map parseMeal [ex_plain_item; ex_schnitzel; ex_plain_item]
  /\ parseDishRow [[NonTag; Element (js "h3") (js "Aktion") true ex_plain_item]]
     = [].
Proof.
  destruct (parseDishRow_keeps_meals ex_row_two_columns) as (Hmeals & _ & _).
  destruct (parseDishRow_keeps_meals
              [[NonTag; Element (js "h3") (js "Aktion") true ex_plain_item]])
    as (_ & _ & Hnone).
  split; [vm_compute; reflexivity | split; [exact Hmeals | ]].
  apply Hnone. reflexivity.
Defined.

(** ** X5 *)

(** X5.  [extractFirstDate] on a heading whose first digits are a date
    DD.MM.YYYY returns [Date.UTC(YYYY, MM - 1, DD)], whatever follows; on
    a heading without any digit it returns null. *)
Theorem extractFirstDate_reads_heading (pre post : jsstring) (y m d : Z) :
  forallb (fun c => negb (isDigit c)) pre = true ->
  (0 <= y <= 9999 -> 0 <= m <= 99 -> 0 <= d <= 99 ->
   extractFirstDate (pre ++ pad 2 d ++ js "." ++ pad 2 m ++ js "."
                         ++ pad 4 y ++ post)
   = Some (UTC y (m - 1) d))
  /\ extractFirstDate pre = None.
Proof.
  intros Hp. split.
  - intros Hy Hm Hd. now apply extractFirstDate_found.
  - unfold extractFirstDate, str_match.
    replace (search re_fullDate 0 pre) with (@None rmatch_result);
      [reflexivity | ].
    symmetry. generalize 0%nat.
    induction pre as [| x pre IH]; intros i; [reflexivity | ].
    cbn [forallb] in Hp. apply andb_true_iff in Hp. destruct Hp as [Hx Hp].
    apply negb_true_iff in Hx. cbn [search].
    rewrite match_here_fullDate_head by exact Hx. now apply IH.
Qed.

Lemma extractFirstDate_reads_heading_witness :
  extractFirstDate (js "Speiseplan vom 20.10.2025 - 24.10.2025")
  = Some (UTC 2025 9 20)
  /\ extractFirstDate (js "Speiseplan vom ") = None.
Proof.
  destruct (extractFirstDate_reads_heading (js "Speiseplan vom ")
              (js " - 24.10.2025") 2025 10 20) as [Hfound Hnone];
    [reflexivity | ].
  split; [ | exact Hnone].
  apply Hfound; lia.
Defined.

(** ** X6 *)

(** X6.  How [resolveDayDate] dates a label DD.MM. that names a day of
    the calendar.  Without previous date the day is put in the anchor's
    year, whatever the anchor's own month and day.  With a previous date
    it is put in the year of that date, unless this places it before
    that date: then it is put in the next year.  The date string is
    YYYY-MM-DD of that year. *)
Theorem resolveDayDate_year_of_label
    (pre post : jsstring) (startDate : Z) (d m : Z) :
  forallb (fun c => negb (isDigit c)) pre = true ->
  calendar_day (d, m) ->
  (100 <= getUTCFullYear startDate <= 9999 ->
   exists t,
     resolveDayDate (day_label pre post d m) startDate None = inr t
     /\ formatIsoDate t = isoText (getUTCFullYear startDate) m d)
  /\ (forall p,
        100 <= getUTCFullYear p <= 9998 ->
        exists t,
          resolveDayDate (day_label pre post d m) startDate (Some p) = inr t
          /\ formatIsoDate t
             = isoText (if UTC (getUTCFullYear p) (m - 1) d <? p
                        then getUTCFullYear p + 1 else getUTCFullYear p)
                       m d).
Proof.
  intros Hp Hc. split.
  - intros Hy. now apply resolveDayDate_first_iso.
  - intros p Hy. now apply resolveDayDate_next_iso.
Qed.

Lemma resolveDayDate_year_of_label_witness :
  (exists t,
     resolveDayDate (js "Do, 01.01.") (UTC 2025 11 29) None = inr t
     /\ formatIsoDate t = js "2025-01-01")
  /\ (exists t,
        resolveDayDate (js "Do, 01.01.") (UTC 2025 11 29)
                       (Some (UTC 2025 11 31)) = inr t
        /\ formatIsoDate t = js "2026-01-01").
Proof.
  destruct (resolveDayDate_year_of_label (js "Do, ") [] (UTC 2025 11 29) 1 1)
    as [Hfirst Hnext]; [reflexivity | unfold calendar_day; simpl; lia | ].
  split.
  - apply Hfirst. vm_compute. split; discriminate.
  - apply (Hnext (UTC 2025 11 31)). vm_compute. split; discriminate.
Defined.

(** ** X7 *)

(** X7.  The date string [formatIsoDate] gives for a time value in the
    years 0 to 9999 is read back by [groupByWeek] as midnight of the same
    day. *)
Theorem formatIsoDate_read_back (d : Z) :
  0 <= getUTCFullYear d <= 9999 ->
  parseIsoDay (formatIsoDate d) = Some (MakeDate (Day d) 0).
Proof. apply parseIsoDay_formatIsoDate. Qed.

Lemma formatIsoDate_read_back_witness :
  parseIsoDay (formatIsoDate ex_clock_1) = Some (UTC 2025 9 20).
Proof.
  apply (formatIsoDate_read_back ex_clock_1). vm_compute. split; discriminate.
Defined.

(** ** X8 *)

(** X8.  In the years 0 to 9999 the strings of [formatIsoDate] compare,
    by code units, as the days do: the comparisons of [groupByWeek] and
    [main] on date strings are comparisons of dates. *)
Theorem formatIsoDate_order (a b : Z) :
  0 <= getUTCFullYear a <= 9999 -> 0 <= getUTCFullYear b <= 9999 ->
  str_compare (formatIsoDate a) (formatIsoDate b) = (Day a ?= Day b).
Proof. apply formatIsoDate_compare. Qed.

Lemma formatIsoDate_order_witness :
  str_compare (formatIsoDate (UTC 2024 11 31)) (formatIsoDate (UTC 2025 0 1))
  = Lt.
Proof.
  rewrite (formatIsoDate_order (UTC 2024 11 31) (UTC 2025 0 1)).
  - reflexivity.
  - vm_compute. split; discriminate.
  - vm_compute. split; discriminate.
Defined.

(** ** X9 *)

(** X9.  What [parseMenuPage] returns when it returns: one day for every
    dish row of every container, in document order, with the cleaned
    text of the day element of the same index as label (the empty text
    is not possible here, see C2), the categories of that row, and as
    date the ISO form of a day at midnight; the legend of the page; and
    one warning for each container whose counts differ. *)
Theorem parseMenuPage_days (now : nat -> Z) (page : Page)
    (ws : list Warning) (menu : ParsedMenu) :
  parseMenuPage now page = (ws, inr menu) ->
  List.map label (days menu) = flat_map block_labels (page_blocks page)
  /\ List.map categories (days menu)
     = List.map parseDishRow (flat_map block_rows (page_blocks page))
  /\ Forall iso_dated (days menu)
  /\ legend menu = parseLegend page
  /\ ws = flat_map mismatch_warning (page_blocks page).
Proof. apply parseMenuPage_shape. Qed.

Lemma parseMenuPage_days_witness :
  exists menu,
    parseMenuPage (fun _ => 0) ex_page_fewer_rows
    = ([WarnCountMismatch 2 1], inr menu)
    /\ List.map label (days menu) = [js "Mo, 20.10."].
Proof.
  destruct (parseMenuPage (fun _ => 0) ex_page_fewer_rows) as [ws [e | menu]]
    eqn:E; [vm_compute in E; discriminate | ].
  destruct (parseMenuPage_days _ _ _ _ E) as (Hl & _ & _ & _ & Hw).
  exists menu. rewrite Hw. split; [reflexivity | ]. rewrite Hl. reflexivity.
Defined.

(** ** X10 *)

(** X10.  From the year 101 on, the week [isoWeek] computes is between 1
    and 53 and its year is the calendar year of the date, the one before
    or the one after. *)
Theorem isoWeek_in_range (date : Z) :
  101 <= getUTCFullYear date ->
  1 <= snd (isoWeek date) <= 53
  /\ getUTCFullYear date - 1 <= fst (isoWeek date) <= getUTCFullYear date + 1.
Proof. apply isoWeek_range. Qed.

Lemma isoWeek_in_range_witness :
  1 <= snd (isoWeek (UTC 2024 11 30)) <= 53
  /\ 2023 <= fst (isoWeek (UTC 2024 11 30)) <= 2025.
Proof.
  apply (isoWeek_in_range (UTC 2024 11 30)). vm_compute. discriminate.
Defined.

(** ** X11 *)

(** X11.  From the year 101 on, two dates get the same ISO year and week
    from [isoWeek] exactly when they lie in the same week from Monday to
    Sunday. *)
Theorem isoWeek_identifies_week (a b : Z) :
  101 <= getUTCFullYear a -> 101 <= getUTCFullYear b ->
  (isoWeek a = isoWeek b <-> weekIndex (Day a) = weekIndex (Day b)).
Proof. apply isoWeek_same_week. Qed.

Lemma isoWeek_identifies_week_witness :
  isoWeek (UTC 2024 11 30) = isoWeek (UTC 2025 0 5)
  /\ isoWeek (UTC 2024 11 29) <> isoWeek (UTC 2024 11 30).
Proof.
  split.
  - apply (isoWeek_identifies_week (UTC 2024 11 30) (UTC 2025 0 5));
      [vm_compute; discriminate | vm_compute; discriminate | reflexivity].
  - intros H.
    apply (isoWeek_identifies_week (UTC 2024 11 29) (UTC 2024 11 30)) in H;
      [vm_compute in H; discriminate | vm_compute; discriminate
      | vm_compute; discriminate].
Defined.

(** ** X12 *)

(** X12.  [weekKey] gives different keys to different (year, week)
    pairs.  For years of four digits and weeks up to 99 the key is the
    year, -W and the week in two digits, and the keys compare, by code
    units, as (year, week) does: the sorted keys of [main] are in the
    order of time. *)
Theorem weekKey_injective_ordered :
  (forall y w y' w', weekKey y w = weekKey y' w' -> y = y' /\ w = w')
  /\ (forall y w y' w',
        1000 <= y <= 9999 -> 1000 <= y' <= 9999 ->
        0 <= w <= 99 -> 0 <= w' <= 99 ->
        weekKey y w = pad 4 y ++ js "-W" ++ pad 2 w
        /\ str_compare (weekKey y w) (weekKey y' w')
           = match y ?= y' with Eq => w ?= w' | c => c end).
Proof.
  split; [apply weekKey_inj | ].
  intros y w y' w' Hy Hy' Hw Hw'.
  split; [now apply weekKey_digits | now apply weekKey_compare].
Qed.

Lemma weekKey_injective_ordered_witness :
  weekKey 2025 1 = js "2025-W01"
  /\ str_compare (weekKey 2024 52) (weekKey 2025 1) = Lt.
Proof.
  destruct weekKey_injective_ordered as [_ Horder].
  destruct (Horder 2024 52 2025 1) as [_ Hlt]; try lia.
  destruct (Horder 2025 1 2025 1) as [Hkey _]; try lia.
  split; [exact Hkey | exact Hlt].
Defined.

(** ** X13 *)

(** X13.  For day menus dated from the year 101 on, the partitions of
    [groupByWeek] are the calendar weeks: two days are in one partition
    exactly when they lie in the same week from Monday to Sunday. *)
Theorem groupByWeek_calendar_weeks (days : list DayMenu) :
  Forall (fun d => exists t, day_of d t) days ->
  exists parts,
    groupByWeek days = Some parts
    /\ forall d1 d2 t1 t2,
         In d1 days -> In d2 days -> day_of d1 t1 -> day_of d2 t2 ->
         (together parts d1 d2
          <-> weekIndex (Day t1) = weekIndex (Day t2)).
Proof. apply groupByWeek_calendar. Qed.

Lemma groupByWeek_calendar_weeks_witness :
  exists parts,
    groupByWeek ex_days = Some parts
    /\ together parts (ex_day "2025-01-02" "Do, 02.01.")
                      (ex_day "2024-12-30" "Mo, 30.12.")
    /\ ~ together parts (ex_day "2024-12-30" "Mo, 30.12.")
                        (ex_day "2024-12-27" "Fr, 27.12.").
Proof.
  destruct (groupByWeek_calendar_weeks ex_days) as (parts & Hg & Hw).
  - repeat (apply List.Forall_cons;
            [eexists; split; [vm_compute; reflexivity
                             | vm_compute; discriminate] | ]).
    apply List.Forall_nil.
  - exists parts. split; [exact Hg | ]. split.
    + apply (Hw _ _ (UTC 2025 0 2) (UTC 2024 11 30)).
      * left. reflexivity.
      * right. left. reflexivity.
      * split; [vm_compute; reflexivity | vm_compute; discriminate].
      * split; [vm_compute; reflexivity | vm_compute; discriminate].
      * reflexivity.
    + intros H. apply (Hw _ _ (UTC 2024 11 30) (UTC 2024 11 27)) in H.
      * vm_compute in H. discriminate.
      * right. left. reflexivity.
      * right. right. left. reflexivity.
      * split; [vm_compute; reflexivity | vm_compute; discriminate].
      * split; [vm_compute; reflexivity | vm_compute; discriminate].
Defined.

(** ** X14 *)

(** X14.  For day menus dated by [formatIsoDate] in the years 0 to 9999,
    every partition of [groupByWeek] has its days in the order of time,
    and its [from] and [to] are the dates of its earliest and of its
    latest day. *)
Theorem groupByWeek_in_order_of_time (days : list DayMenu) :
  Forall (fun d => exists t, dated_by d t) days ->
  exists parts,
    groupByWeek days = Some parts
    /\ Forall
         (fun q =>
            Sorted (fun a b => forall ta tb,
                      dated_by a ta -> dated_by b tb -> Day ta <= Day tb)
                   (wp_days q)
            /\ exists first last tfirst tlast,
                 In first (wp_days q) /\ In last (wp_days q)
                 /\ dated_by first tfirst /\ dated_by last tlast
                 /\ from q = date first /\ to q = date last
                 /\ forall d t, In d (wp_days q) -> dated_by d t ->
                      Day tfirst <= Day t <= Day tlast)
         parts.
Proof. apply groupByWeek_chronological. Qed.

Lemma groupByWeek_in_order_of_time_witness :
  exists parts,
    groupByWeek ex_days = Some parts
    /\ List.map from parts = [js "2024-12-23"; js "2024-12-30"]
    /\ List.map to parts = [js "2024-12-27"; js "2025-01-02"].
Proof.
  destruct (groupByWeek_in_order_of_time ex_days) as (parts & Hg & _).
  - apply List.Forall_cons;
      [exists (UTC 2025 0 2); split;
       [vm_compute; reflexivity | vm_compute; split; discriminate] | ].
    apply List.Forall_cons;
      [exists (UTC 2024 11 30); split;
       [vm_compute; reflexivity | vm_compute; split; discriminate] | ].
    apply List.Forall_cons;
      [exists (UTC 2024 11 27); split;
       [vm_compute; reflexivity | vm_compute; split; discriminate] | ].
    apply List.Forall_cons;
      [exists (UTC 2024 11 23); split;
       [vm_compute; reflexivity | vm_compute; split; discriminate] | ].
    apply List.Forall_nil.
  - exists parts. split; [exact Hg | ].
    assert (E : Some parts = groupByWeek ex_days) by (now rewrite Hg).
    vm_compute in E. injection E as ->. split; reflexivity.
Defined.

(** ** X15 *)


(** ** X16 *)



(** ** X17 *)


(** ** X18 *)



(** ** X19 *)

(** X19.  A completed run of [main] writes to no path twice, writes only
    to the two files of ISO weeks under the output directory,
    <dir>/<key>.json and <dir>/by-day/<key>.json, and leaves every other
    file as it was. *)
Theorem main_writes_week_files
    (sources : list CanteenConfig) (env : Env) (fs : FileSystem) (w : World) :
  main_with sources env fs = (Completed, w) ->
  List.NoDup (written w)
  /\ Forall (week_file (outputDir env)) (written w)
  /\ (forall p, ~ week_file (outputDir env) p -> files w !! p = fs !! p).
Proof. apply main_with_written. Qed.

Lemma main_writes_week_files_witness :
  List.NoDup (written (snd (main (ex_env ex_clock_1) ∅)))
  /\ Forall (week_file (js "data/menus"))
            (written (snd (main (ex_env ex_clock_1) ∅))).
Proof.
  destruct (main_writes_week_files CANTEENS (ex_env ex_clock_1) ∅
              (snd (main (ex_env ex_clock_1) ∅))) as (Hn & Hf & _).
  - vm_compute. reflexivity.
  - split; [exact Hn | exact Hf].
Defined.

(** ** X20 *)

(** X20.  When every source serves a page with containers but without
    dish rows, [main] completes, warns that no menu data was collected
    and writes nothing. *)
Theorem main_without_data
    (sources : list CanteenConfig) (env : Env) (fs : FileSystem) :
  Forall (fun c => exists page, fetchHtml env (url c) = inr page
                                /\ no_dish_rows page) sources ->
  exists ws,
    main_with sources env fs
    = (Completed, {| files := fs; written := [];
                     warned := ws ++ [WarnNoMenuData] |}).
Proof. apply main_with_no_data. Qed.

Lemma main_without_data_witness :
  exists ws,
    main ex_env_no_rows ∅
    = (Completed, {| files := ∅; written := [];
                     warned := ws ++ [WarnNoMenuData] |}).
Proof.
  apply (main_without_data CANTEENS ex_env_no_rows ∅).
  repeat (apply List.Forall_cons;
          [exists ex_page_no_rows; split;
           [reflexivity
           | split; [discriminate | repeat constructor]] | ]).
  apply List.Forall_nil.
Defined.

(** ** X21 *)

(** X21.  The keys of a legend [parseLegend] returns have the form of
    their sub-category: one or two capital letters for info, a small
    letter with or without a digit after it for allergens, one or two
    digits for additives; and no value holds a comma. *)
Theorem parseLegend_keys_and_values (page : Page) (lg : Legend) :
  parseLegend page = Some lg ->
  Forall (fun kv => info_key (fst kv) /\ ~ In 44%N (snd kv)) (info lg)
  /\ Forall (fun kv => allergen_key (fst kv) /\ ~ In 44%N (snd kv))
            (lg_allergens lg)
  /\ Forall (fun kv => additive_key (fst kv) /\ ~ In 44%N (snd kv))
            (additives lg).
Proof. apply parseLegend_entries. Qed.

Lemma parseLegend_keys_and_values_witness :
  exists lg,
    parseLegend ex_page_legend = Some lg
    /\ obj_keys (info lg) = [js "V"; js "VG"]
    /\ obj_keys (lg_allergens lg) = [js "a"; js "a1"; js "g"]
    /\ obj_keys (additives lg) = [js "1"; js "12"]
    /\ Forall (fun kv => info_key (fst kv)) (info lg).
Proof.
  destruct (parseLegend ex_page_legend) as [lg |] eqn:E;
    [ | vm_compute in E; discriminate].
  destruct (parseLegend_keys_and_values _ _ E) as (Hinfo & _ & _).
  exists lg. split; [reflexivity | ].
  assert (E' : Some lg = parseLegend ex_page_legend) by (now rewrite E).
  split; [vm_compute in E'; injection E' as ->; reflexivity | ].
  split; [vm_compute in E'; injection E' as ->; reflexivity | ].
  split; [vm_compute in E'; injection E' as ->; reflexivity | ].
  eapply List.Forall_impl; [ | exact Hinfo]. cbn beta. tauto.
Defined.
